(** * Listing-text normalisation (app/normalize.py): a shallow embedding

    [normalize_listing] is a cascade of regular-expression rewrites over
    Python strings.  Python strings are sequences of Unicode code points,
    Python's [re] is a backtracking matcher with ordered alternatives and
    greedy or lazy repeats; both are modelled below as the program uses
    them, followed by the program itself and the properties checked on
    it.  The pipeline can fail in one place: [html.unescape] raises
    ValueError on a decimal character reference with more digits than
    [int] accepts.  A function that can raise returns an option, [None]
    for the exception. *)

From Stdlib Require Import NArith List String Ascii Bool Lia Arith.
From stdpp Require Import base option list gmap strings.
Import ListNotations.

Local Open Scope N_scope.

(** ** Strings *)

(** A Python [str]: the list of its code points. *)
Definition str := list N.

(** An ASCII literal of the source, as a [str]. *)
Definition lit (s : string) : str :=
  List.map N_of_ascii (list_ascii_of_string s).

(** Code points the program names that are not ASCII, and the quote. *)
Definition c_dquote : N := 34.      (* the double quote *)
Definition c_squote : N := 39.      (* the apostrophe *)
Definition c_nbsp : N := 160.       (* U+00A0 *)
Definition c_times : N := 215.      (* U+00D7 MULTIPLICATION SIGN *)
Definition c_rdquote : N := 8221.   (* U+201D RIGHT DOUBLE QUOTATION MARK *)
Definition c_bullet : N := 8226.    (* U+2022 BULLET *)
Definition c_star_b : N := 9733.    (* U+2605 BLACK STAR *)
Definition c_star_w : N := 9734.    (* U+2606 WHITE STAR *)

(** ** The tables of the Python runtime

    [\s], [\d], [\w], [\b], [str.strip], [str.upper] and case-insensitive
    matching consult CPython's Unicode database, and [html.unescape] the
    tables of the [html] module.  They are data of the runtime, not of the
    repository: the development takes them as a parameter.  The Unicode
    fields are consulted only for code points from 128 on; below 128 the
    classes are the ASCII ones, written out.  The last field is the
    limit of [int] on the digits of a decimal numeral
    ([sys.get_int_max_str_digits()], 4300 unless the interpreter is told
    otherwise, 0 for no limit). *)
Record runtime := {
  u_space : N -> bool;        (* Py_UNICODE_ISSPACE *)
  u_decimal : N -> bool;      (* Py_UNICODE_ISDECIMAL *)
  u_alnum : N -> bool;        (* Py_UNICODE_ISALNUM *)
  u_lower : N -> N;           (* simple lower-case mapping *)
  u_upper : N -> N;           (* simple upper-case mapping *)
  u_casefix : N -> list N;    (* re._casefix._EXTRA_CASES *)
  u_upper_full : N -> str;    (* str.upper on one character *)
  html5 : list (str * str);             (* html.entities.html5 *)
  invalid_charrefs : list (N * str);    (* html._invalid_charrefs *)
  invalid_codepoints : list N;          (* html._invalid_codepoints *)
  int_max_str_digits : nat              (* sys.get_int_max_str_digits() *)
}.

Definition between (lo hi c : N) : bool := (lo <=? c) && (c <=? hi).

Section Chars.
Variable U : runtime.

Definition isspace (c : N) : bool :=
  if c <? 128 then between 9 13 c || between 28 32 c else u_space U c.

Definition isdecimal (c : N) : bool :=
  if c <? 128 then between 48 57 c else u_decimal U c.

Definition isalnum (c : N) : bool :=
  if c <? 128 then between 48 57 c || between 65 90 c || between 97 122 c
  else u_alnum U c.

(** [\w]: alphanumeric or underscore. *)
Definition isword (c : N) : bool := isalnum c || (c =? 95).

Definition tolower (c : N) : N :=
  if c <? 128 then (if between 65 90 c then c + 32 else c) else u_lower U c.

Definition toupper (c : N) : N :=
  if c <? 128 then (if between 97 122 c then c - 32 else c) else u_upper U c.

Definition iscased (c : N) : bool :=
  negb (c =? tolower c) || negb (c =? toupper c).

(** Lower-case characters with the same upper case as [lo]; among the
    ASCII letters only [i] (dotless i) and [s] (long s) have any. *)
Definition casefix (lo : N) : list N :=
  if lo <? 128 then
    (if lo =? 105 then [305] else if lo =? 115 then [383] else [])
  else u_casefix U lo.

(** [str.upper] of a one-character string. *)
Definition upper_full (c : N) : str :=
  if c <? 128 then [toupper c] else u_upper_full U c.
End Chars.

(** ** Regular expressions *)

Inductive category := CatSpace | CatDigit | CatWord.

(** An item of a bracketed set. *)
Inductive citem :=
| CChar (c : N)
| CRange (lo hi : N)
| CCat (k : category).

Inductive re :=
| Eps
| Lit (c : N)                       (* one character *)
| Any                               (* [.], without DOTALL *)
| Cls (neg : bool) (items : list citem)   (* [...] and [^...] *)
| Esc (k : category)                (* \s \d \w *)
| Seq (r1 r2 : re)
| Alt (r1 r2 : re)                  (* ordered: r1 first *)
| Rep (lo : nat) (hi : option nat) (greedy : bool) (r : re)
| Grp (n : nat) (r : re)            (* capturing group number n *)
| Backref (n : nat)                 (* \n *)
| WordB                             (* \b *)
| EndA                              (* $, without MULTILINE *)
| Look (back : nat) (r : re).       (* (?=r) is [Look 0 r]; (?<=r), r of width w, is [Look w r] *)

Fixpoint seq (rs : list re) : re :=
  match rs with
  | [] => Eps
  | [r] => r
  | r :: rs' => Seq r (seq rs')
  end.

(** A run of literal characters. *)
Definition word (s : string) : re := seq (List.map Lit (lit s)).

Definition star (r : re) : re := Rep 0 None true r.
Definition plus (r : re) : re := Rep 1 None true r.
Definition opt (r : re) : re := Rep 0 (Some 1%nat) true r.

(** ** The matcher

    A position in the subject: the characters before it (nearest first),
    the characters from it on, and the groups captured so far. *)
Record mstate := MState {
  m_pre : str;
  m_suf : str;
  m_caps : list (nat * str)
}.

Fixpoint cap_lookup (n : nat) (caps : list (nat * str)) : option str :=
  match caps with
  | [] => None
  | (i, s) :: caps' => if Nat.eqb i n then Some s else cap_lookup n caps'
  end.

(** One character consumed. *)
Definition step (st : mstate) (c : N) (rest : str) : mstate :=
  MState (c :: m_pre st) rest (m_caps st).

(** [w] characters back, for a look-behind; [None] at less than [w]
    characters from the start. *)
Fixpoint rewind (w : nat) (pre suf : str) : option (str * str) :=
  match w with
  | O => Some (pre, suf)
  | S w' => match pre with
            | [] => None
            | c :: pre' => rewind w' pre' (c :: suf)
            end
  end.

(** The text consumed between a position and a later one. *)
Definition consumed (st st' : mstate) : str :=
  firstn (length (m_suf st) - length (m_suf st')) (m_suf st).

Section Matcher.
Variable U : runtime.
(** re.IGNORECASE, for the whole pattern. *)
Variable ic : bool.

Definition cat_test (k : category) (c : N) : bool :=
  match k with
  | CatSpace => isspace U c
  | CatDigit => isdecimal U c
  | CatWord => isword U c
  end.

(** A literal.  Under IGNORECASE a cased literal is compared through the
    lower-case mapping, with the extra cases of [casefix]. *)
Definition lit_test (p c : N) : bool :=
  if ic && iscased U p then
    let lo := tolower U p in
    let c' := tolower U c in
    (c' =? lo) || existsb (N.eqb c') (casefix U lo)
  else c =? p.

(** A set.  Under IGNORECASE a set with a cased literal tests the
    lower-cased subject character against the lower-cased literals.  No
    case-insensitive pattern of the program has a range in a set, so
    ranges are compared as they are. *)
Definition hascased (items : list citem) : bool :=
  existsb (fun it => match it with CChar p => iscased U p | _ => false end) items.

Definition item_test (fold : bool) (it : citem) (c : N) : bool :=
  match it with
  | CChar p =>
      if fold then
        let lo := tolower U p in (c =? lo) || existsb (N.eqb c) (casefix U lo)
      else c =? p
  | CRange lo hi => between lo hi c
  | CCat k => cat_test k c
  end.

Definition cls_test (neg : bool) (items : list citem) (c : N) : bool :=
  let fold := ic && hascased items in
  let c' := if fold then tolower U c else c in
  xorb neg (existsb (fun it => item_test fold it c') items).

Definition chr_eq (a b : N) : bool :=
  if ic then tolower U a =? tolower U b else a =? b.

(** [g] as a prefix of [s] (for a back-reference): what follows it. *)
Fixpoint strip_prefix (g s pre : str) : option (str * str) :=
  match g with
  | [] => Some (pre, s)
  | a :: g' =>
      match s with
      | [] => None
      | c :: s' => if chr_eq c a then strip_prefix g' s' (c :: pre) else None
      end
  end.

Definition at_word_boundary (st : mstate) : bool :=
  let before := match m_pre st with [] => false | c :: _ => isword U c end in
  let after := match m_suf st with [] => false | c :: _ => isword U c end in
  xorb before after.

(** One character against a test. *)
Definition one (test : N -> bool) (st : mstate)
    (k : mstate -> option mstate) : option mstate :=
  match m_suf st with
  | [] => None
  | c :: rest => if test c then k (step st c rest) else None
  end.

(** The loop of a repeat: [n] rounds of [body] done so far.  The body is
    tried again only when the last round consumed something (no body
    under a repeat of the program can match the empty string), so a round
    past [lo] shortens the subject, and the fuel given by [m], [lo] and
    the length of the subject and one, is never used up. *)
Fixpoint rep_loop (body : mstate -> (mstate -> option mstate) -> option mstate)
    (lo : nat) (hi : option nat) (greedy : bool) (k : mstate -> option mstate)
    (fuel n : nat) (st : mstate) {struct fuel} : option mstate :=
  match fuel with
  | O => None
  | S fuel' =>
      let again :=
        body st (fun st' =>
          if (n <? lo)%nat || (length (m_suf st') <? length (m_suf st))%nat
          then rep_loop body lo hi greedy k fuel' (S n) st' else None) in
      let more := match hi with Some h => (n <? h)%nat | None => true end in
      if (n <? lo)%nat then again
      else if greedy then
        match (if more then again else None) with
        | Some e => Some e
        | None => k st
        end
      else
        match k st with
        | Some e => Some e
        | None => if more then again else None
        end
  end.

(** [m r st k]: match [r] at [st], then continue with [k]; the first
    success in the matcher's order of preference, [None] when every
    alternative fails. *)
Fixpoint m (r : re) (st : mstate) (k : mstate -> option mstate)
    {struct r} : option mstate :=
  match r with
  | Eps => k st
  | Lit p => one (lit_test p) st k
  | Any => one (fun c => negb (c =? 10)) st k
  | Cls neg items => one (cls_test neg items) st k
  | Esc c => one (cat_test c) st k
  | Seq r1 r2 => m r1 st (fun st' => m r2 st' k)
  | Alt r1 r2 =>
      match m r1 st k with
      | Some e => Some e
      | None => m r2 st k
      end
  | Rep lo hi greedy r' =>
      rep_loop (m r') lo hi greedy k (lo + S (length (m_suf st)))%nat O st
  | Grp n r' =>
      m r' st (fun st' =>
        k (MState (m_pre st') (m_suf st') ((n, consumed st st') :: m_caps st')))
  | Backref n =>
      match cap_lookup n (m_caps st) with
      | None => None
      | Some g =>
          match strip_prefix g (m_suf st) (m_pre st) with
          | None => None
          | Some (pre, suf) => k (MState pre suf (m_caps st))
          end
      end
  | WordB => if at_word_boundary st then k st else None
  | EndA =>
      match m_suf st with
      | [] => k st
      | [c] => if c =? 10 then k st else None
      | _ => None
      end
  | Look back r' =>
      match rewind back (m_pre st) (m_suf st) with
      | None => None
      | Some (pre, suf) =>
          match m r' (MState pre suf (m_caps st)) Some with
          | None => None
          | Some e => k (MState (m_pre st) (m_suf st) (m_caps e))
          end
      end
  end.
End Matcher.

(** ** re.search, re.match, re.sub, re.split *)

Section Re.
Variable U : runtime.

(** A compiled pattern: the expression and its IGNORECASE flag. *)
Record pattern := Pattern { p_ic : bool; p_re : re }.

(** A match object: the position where it starts and where it ends. *)
Record rmatch := RMatch { mt_start : mstate; mt_end : mstate }.

(** After an empty match the next one at the same place must consume
    something ([must_advance] of the matcher's state). *)
Definition accept (ma : bool) (st e : mstate) : option mstate :=
  if ma && (length (m_suf e) =? length (m_suf st))%nat then None else Some e.

(** The leftmost match from a position on. *)
Fixpoint scan (p : pattern) (ma : bool) (pre suf : str) : option rmatch :=
  let st := MState pre suf [] in
  match m U (p_ic p) (p_re p) st (accept ma st) with
  | Some e => Some (RMatch st e)
  | None =>
      match suf with
      | [] => None
      | c :: rest => scan p false (c :: pre) rest
      end
  end.

Definition search (p : pattern) (s : str) : option rmatch := scan p false [] s.

(** re.match: at the start of the string only. *)
Definition rmatch_at_start (p : pattern) (s : str) : option rmatch :=
  let st := MState [] s [] in
  match m U (p_ic p) (p_re p) st Some with
  | Some e => Some (RMatch st e)
  | None => None
  end.

(** [mt.group(n)]; group 0 is the whole match. *)
Definition group (mt : rmatch) (n : nat) : option str :=
  match n with
  | O => Some (consumed (mt_start mt) (mt_end mt))
  | _ => cap_lookup n (m_caps (mt_end mt))
  end.

(** A replacement template: literal text and group references. *)
Inductive titem := TLit (s : str) | TRef (n : nat).

Definition expand (tpl : list titem) (mt : rmatch) : str :=
  flat_map (fun it => match it with
                      | TLit s => s
                      | TRef n => default [] (group mt n)
                      end) tpl.

Definition skipped (suf : str) (mt : rmatch) : str :=
  firstn (length suf - length (m_suf (mt_start mt))) suf.

Definition was_empty (mt : rmatch) : bool :=
  (length (m_suf (mt_end mt)) =? length (m_suf (mt_start mt)))%nat.

(** The loop of [re.sub]: [n] replacements made so far, [count = 0] for
    no limit, [repl] the replacement for a match.  Two rounds always advance, so the fuel given by [sub]
    is never used up. *)
Fixpoint sub_loop (fuel : nat) (p : pattern) (repl : rmatch -> str)
    (count n : nat) (ma : bool) (pre suf : str) : str :=
  match fuel with
  | O => suf
  | S fuel' =>
      if negb (count =? 0)%nat && negb (n <? count)%nat then suf
      else
        match scan p ma pre suf with
        | None => suf
        | Some mt =>
            skipped suf mt ++ repl mt ++
            sub_loop fuel' p repl count (S n) (was_empty mt)
              (m_pre (mt_end mt)) (m_suf (mt_end mt))
        end
  end.

(** [re.sub] with a function for the replacement. *)
Definition sub_with (p : pattern) (repl : rmatch -> str) (s : str) (count : nat) : str :=
  sub_loop (2 * length s + 2) p repl count 0 false [] s.

(** [re.sub] with a function that may raise: the function is called at
    each match in turn, and its exception ends the substitution ([None]). *)
Fixpoint sub_loop_raising (fuel : nat) (p : pattern) (repl : rmatch -> option str)
    (count n : nat) (ma : bool) (pre suf : str) : option str :=
  match fuel with
  | O => Some suf
  | S fuel' =>
      if negb (count =? 0)%nat && negb (n <? count)%nat then Some suf
      else
        match scan p ma pre suf with
        | None => Some suf
        | Some mt =>
            match repl mt with
            | None => None
            | Some r =>
                match sub_loop_raising fuel' p repl count (S n) (was_empty mt)
                        (m_pre (mt_end mt)) (m_suf (mt_end mt)) with
                | None => None
                | Some rest => Some (skipped suf mt ++ r ++ rest)
                end
            end
        end
  end.

Definition sub_with_raising (p : pattern) (repl : rmatch -> option str) (s : str)
    (count : nat) : option str :=
  sub_loop_raising (2 * length s + 2) p repl count 0 false [] s.

Definition sub_count (p : pattern) (tpl : list titem) (s : str) (count : nat) : str :=
  sub_with p (expand tpl) s count.

Definition sub (p : pattern) (tpl : list titem) (s : str) : str :=
  sub_count p tpl s 0.

(** The loop of [re.split], for a pattern without groups. *)
Fixpoint split_loop (fuel : nat) (p : pattern) (ma : bool) (pre suf : str)
    : list str :=
  match fuel with
  | O => [suf]
  | S fuel' =>
      match scan p ma pre suf with
      | None => [suf]
      | Some mt =>
          skipped suf mt ::
          split_loop fuel' p (was_empty mt) (m_pre (mt_end mt)) (m_suf (mt_end mt))
      end
  end.

Definition split (p : pattern) (s : str) : list str :=
  split_loop (2 * length s + 2) p false [] s.

(** ** String methods *)

Fixpoint lstrip_by (drop : N -> bool) (s : str) : str :=
  match s with
  | [] => []
  | c :: s' => if drop c then lstrip_by drop s' else s
  end.

Definition rstrip_by (drop : N -> bool) (s : str) : str :=
  rev (lstrip_by drop (rev s)).

(** [s.strip()] *)
Definition strip (s : str) : str :=
  rstrip_by (isspace U) (lstrip_by (isspace U) s).

(** [s.rstrip(chars)] *)
Definition rstrip_chars (chars : str) (s : str) : str :=
  rstrip_by (fun c => existsb (N.eqb c) chars) s.

(** [sep.join(parts)] *)
Fixpoint join (sep : str) (parts : list str) : str :=
  match parts with
  | [] => []
  | [x] => x
  | x :: rest => x ++ sep ++ join sep rest
  end.

(** [s.translate(table)] for a table from characters to strings. *)
Definition translate (table : list (N * str)) (s : str) : str :=
  flat_map (fun c =>
    match List.find (fun kv => fst kv =? c) table with
    | Some kv => snd kv
    | None => [c]
    end) s.
End Re.

(** ** html.unescape *)

Section Html.
Variable U : runtime.

Fixpoint assoc {A : Type} (eqb : A -> A -> bool) {B : Type} (key : A) (l : list (A * B)) : option B :=
  match l with
  | [] => None
  | (a, b) :: l' => if eqb a key then Some b else assoc eqb key l'
  end.

Fixpoint str_eqb (a b : str) : bool :=
  match a, b with
  | [], [] => true
  | x :: a', y :: b' => (x =? y) && str_eqb a' b'
  | _, _ => false
  end.

(** The value of a digit in base 16 (and so in base 10). *)
Definition digit_val (c : N) : N :=
  if between 48 57 c then c - 48
  else if between 97 102 c then c - 87
  else c - 55.

(** The value of a run of digits in a base. *)
Definition parse_int (base : N) (s : str) : N :=
  fold_left (fun acc c => acc * base + digit_val c) s 0.

(** [int(s, 16)] for a run of hexadecimal digits: no limit on a base
    that is a power of two. *)
Definition int_hex (s : str) : N := parse_int 16 s.

(** [int(s)] for a run of decimal digits: ValueError ([None]) on more
    digits than the limit of the runtime, leading zeros counted. *)
Definition int_dec (s : str) : option N :=
  let limit := int_max_str_digits U in
  if (0 <? limit)%nat && (limit <? length s)%nat then None
  else Some (parse_int 10 s).

Definition ascii_digit : citem := CRange 48 57.
Definition hex_digit : list citem := [CRange 48 57; CRange 97 102; CRange 65 70].

(** [&(#[0-9]+;?|#[xX][0-9a-fA-F]+;?|[^\t\n\f <&#;]{1,32};?)] *)
Definition _charref : pattern :=
  Pattern false
    (Seq (Lit 38)
       (Grp 1
          (Alt (seq [Lit 35; plus (Cls false [ascii_digit]); opt (Lit 59)])
          (Alt (seq [Lit 35; Cls false [CChar 120; CChar 88];
                     plus (Cls false hex_digit); opt (Lit 59)])
               (seq [Rep 1 (Some 32%nat) true
                       (Cls true [CChar 9; CChar 10; CChar 12; CChar 32;
                                  CChar 60; CChar 38; CChar 35; CChar 59]);
                     opt (Lit 59)]))))).

(** The longest proper prefix of a name, of two characters at least,
    that is an entity: [for x in range(len(s)-1, 1, -1)]. *)
Fixpoint longest_entity (x : nat) (s : str) : option str :=
  match x with
  | S (S _ as x') =>
      match assoc str_eqb (firstn x s) (html5 U) with
      | Some v => Some (v ++ skipn x s)
      | None => longest_entity x' s
      end
  | _ => None
  end.

(** The character of a numeric reference. *)
Definition charref_of (num : N) : str :=
  match assoc N.eqb num (invalid_charrefs U) with
  | Some v => v
  | None =>
      if between 55296 57343 num || (1114111 <? num) then [65533]
      else if existsb (N.eqb num) (invalid_codepoints U) then []
      else [num]
  end.

(** [None] when the function raises: the ValueError of [int] on an
    over-long decimal numeral. *)
Definition _replace_charref (mt : rmatch) : option str :=
  let s := default [] (group mt 1) in
  match s with
  | 35 :: digits =>
      match digits with
      | c :: hex =>
          if (c =? 120) || (c =? 88)
          then Some (charref_of (int_hex (rstrip_chars [59] hex)))
          else match int_dec (rstrip_chars [59] digits) with
               | Some num => Some (charref_of num)
               | None => None
               end
      | [] => None    (* [s[1]] on the text [#] alone, which the pattern never matches *)
      end
  | _ =>
      match assoc str_eqb s (html5 U) with
      | Some v => Some v
      | None =>
          match longest_entity (length s - 1) s with
          | Some v => Some v
          | None => Some (38 :: s)
          end
      end
  end.

(** [html.unescape]; [None] when it raises. *)
Definition unescape (s : str) : option str :=
  if existsb (N.eqb 38) s then sub_with_raising U _charref _replace_charref s 0
  else Some s.
End Html.

(** ** The program: normalize_listing and its helpers *)

(** The dictionary returned by [normalize_listing]. *)
Record listing := Listing {
  title : str;
  description : str;
  creative : option str;
  features : list str;
  dimensions : gmap string str
}.

(** Truth value of [d.get(key)]: present and not the empty string. *)
Definition truthy (v : option str) : bool :=
  match v with
  | Some (_ :: _) => true
  | _ => false
  end.

(** [d[key]] where the key is known to be present. *)
Definition item (d : gmap string str) (key : string) : str := default [] (d !! key).

Section Normalize.
Variable U : runtime.

Definition ws : re := Esc CatSpace.
Definition digit : re := Esc CatDigit.
(** [\d+(?:\.\d+)?] *)
Definition number : re := Seq (plus digit) (opt (Seq (Lit 46) (plus digit))).
Definition chars (s : string) : list citem := List.map CChar (lit s).

Definition _RE_MULTI_SPACE : pattern :=
  Pattern false (Rep 2 None true (Cls false [CChar 32; CChar 9; CChar c_nbsp])).
Definition _RE_WS : pattern := Pattern false (plus ws).
Definition _RE_CONTROL : pattern := Pattern false (Cls false [CRange 0 31; CChar 127]).
Definition seps : re := Cls false (chars ",;/|-").
Definition _RE_TRAIL_SEPS : pattern :=
  Pattern false (seq [Grp 1 seps; star ws; plus (Grp 2 seps)]).
Definition quote : re := Cls false [CChar c_dquote; CChar c_rdquote].
Definition cross : re := Cls false [CChar 120; CChar c_times].
(** Groups [w] and [l] are groups 1 and 2; [t] is group 1. *)
Definition _RE_DIM_INCH : pattern :=
  Pattern true
    (seq [Grp 1 number; star ws; opt quote; star ws; opt (word "(w)"); star ws;
          cross; star ws;
          Grp 2 number; star ws; opt quote; star ws; opt (word "(l)")]).
Definition _RE_DIM_CM : pattern :=
  Pattern true
    (seq [Grp 1 number; star ws; word "cm"; star ws; cross; star ws;
          Grp 2 number; star ws; word "cm"]).
Definition _RE_THICK : pattern :=
  Pattern true
    (seq [opt (Seq (word "thickness") (star (Cls false [CChar 58; CCat CatSpace])));
          Grp 1 number; star ws;
          Alt (word "inch") (Alt (word "in") (Lit c_dquote))]).

Definition _RE_BAD_TOKS : list (N * str) :=
  [ (8220, [c_dquote]); (8221, [c_dquote]); (8222, [c_dquote]); (8223, [c_dquote]);
    (8217, [c_squote]); (8216, [c_squote]); (8218, [c_squote]); (8219, [c_squote]);
    (c_times, lit "x"); (8211, lit "-"); (8212, lit "-"); (8210, lit "-");
    (c_bullet, lit " "); (c_star_b, lit " "); (c_star_w, lit " ");
    (12304, lit " "); (12305, lit " "); (12289, lit ", ") ].

Definition _DROP : list re :=
  [ word "customer service";
    seq [Lit 48; star ws; word "risk purchase"];
    word "perfect shopping experience";
    seq [word "contact us"; Rep 0 None false Any; word "purchase"];
    seq [word "we will do our best"; Rep 0 None false Any; word "satisfied"] ].

(** [None] when [html.unescape] raises. *)
Definition _strip_controls (s : str) : option str :=
  let s := sub U _RE_CONTROL [TLit (lit " ")] s in
  let s := translate _RE_BAD_TOKS s in
  match unescape U s with
  | None => None
  | Some s =>
      let s := sub U _RE_TRAIL_SEPS [TRef 1; TLit (lit " ")] s in
      let s := sub U _RE_MULTI_SPACE [TLit (lit " ")] s in
      let s := sub U _RE_WS [TLit (lit " ")] s in
      Some (strip U s)
  end.

Definition _normalize_delims (s : str) : str :=
  let s := sub U (Pattern false (seq [star ws; Cls false (chars "|/"); star ws]))
             [TLit (lit ", ")] s in
  let s := sub U (Pattern false (seq [star ws; Lit 44; star ws; plus (Lit 44); star ws]))
             [TLit (lit ", ")] s in
  s.

Definition _drop_boiler (s : str) : str :=
  fold_left (fun s p => sub U (Pattern true p) [TLit (lit " ")] s) _DROP s.

Definition upper_digit : list citem := [CRange 65 90; CRange 48 57].

(** White space after a full stop, exclamation mark, question mark or
    double quote and before an upper-case letter or digit. *)
Definition sentence_break : pattern :=
  Pattern false
    (Alt (seq [Look 1 (Cls false (chars ".!?")); plus ws; Look 0 (Cls false upper_digit)])
         (seq [Look 1 (Lit c_dquote); plus ws; Look 0 (Cls false upper_digit)])).

Definition sentence_part (p : str) : option str :=
  let p := strip U p in
  match p with
  | [] => None
  | c :: rest =>
      let p :=
        match rmatch_at_start U (Pattern false (Cls false (upper_digit ++ [CChar c_dquote]))) p with
        | Some _ => p
        | None => upper_full U c ++ rest
        end in
      Some (rstrip_chars (lit ",;") p)
  end.

Definition _sentenceize (s : str) : str :=
  let parts := split U sentence_break (strip U s) in
  let out := omap sentence_part parts in
  join (lit " ") out.

(** The replacement texts for an inch pair and a centimetre pair (quote
    marks after the inch numbers, the multiplication sign between the
    two).  The captured numbers hold digits and a full stop only, so
    the templates have no escapes to expand. *)
Definition inch_text (w l : str) : str :=
  w ++ [c_dquote] ++ lit " " ++ [c_times] ++ lit " " ++ l ++ [c_dquote].
Definition cm_text (w l : str) : str :=
  w ++ lit " " ++ [c_times] ++ lit " " ++ l ++ lit " cm".

Definition _normalize_dimensions (text : str) : str * gmap string str :=
  let dims : gmap string str := empty in
  let out := text in
  let '(out, dims) :=
    match search U _RE_DIM_INCH out with
    | Some mt =>
        let w := default [] (group mt 1) in
        let l := default [] (group mt 2) in
        (sub_count U _RE_DIM_INCH [TLit (inch_text w l)] out 1,
         <["length_in" := l]> (<["width_in" := w]> dims))
    | None => (out, dims)
    end in
  let '(out, dims) :=
    match search U _RE_DIM_CM out with
    | Some m2 =>
        let wcm := default [] (group m2 1) in
        let lcm := default [] (group m2 2) in
        (sub_count U _RE_DIM_CM [TLit (cm_text wcm lcm)] out 1,
         <["length_cm" := lcm]> (<["width_cm" := wcm]> dims))
    | None => (out, dims)
    end in
  match search U _RE_THICK out with
  | Some mt =>
      let t := default [] (group mt 1) in
      (sub_count U _RE_THICK [TLit (t ++ [c_dquote] ++ lit " thickness")] out 1,
       <["thickness_in" := t]> dims)
  | None => (out, dims)
  end.

(** re.search(..., re.I) used as a condition. *)
Definition found (r : re) (s : str) : bool :=
  match search U (Pattern true r) s with Some _ => true | None => false end.

Definition hyphen_or_space : re := Cls false (chars "- ").
Definition kw_backing : re :=
  Alt (seq [WordB; word "anti"; opt hyphen_or_space; word "slip"])
      (seq [word "non"; opt hyphen_or_space; word "slip"; WordB]).
Definition kw_surface : re := seq [WordB; word "polyester"; WordB].
Definition kw_care : re :=
  seq [WordB; Grp 1 (Alt (word "machine washable") (word "washable")); WordB].
Definition kw_floor : re :=
  seq [WordB; Grp 1 (Alt (word "hardwood") (word "wood floor")); WordB].

(** The loop that drops repeated bullets: [seen] is the set of the
    bullets kept so far, [dedup] the list being built. *)
Fixpoint dedup_loop (bullets : list str) (seen : gset str) (dedup : list str)
    : list str :=
  match bullets with
  | [] => dedup
  | b :: rest =>
      if decide (b ∈ seen) then dedup_loop rest seen dedup
      else dedup_loop rest ({[ b ]} ∪ seen) (dedup ++ [b])
  end.

(** The bullets before the repeated ones are dropped. *)
Definition bullets_of (clean_text : str) (dims : gmap string str) : list str :=
  let size :=
    if truthy (dims !! "width_in") && truthy (dims !! "length_in") then
      let inch := inch_text (item dims "width_in") (item dims "length_in") in
      if truthy (dims !! "width_cm") && truthy (dims !! "length_cm") then
        let cm := cm_text (item dims "width_cm") (item dims "length_cm") in
        [lit "Size: " ++ inch ++ lit " (" ++ cm ++ lit ")"]
      else [lit "Size: " ++ inch]
    else if truthy (dims !! "width_cm") && truthy (dims !! "length_cm") then
      [lit "Size: " ++ cm_text (item dims "width_cm") (item dims "length_cm")]
    else [] in
  let thickness :=
    if truthy (dims !! "thickness_in")
    then [lit "Thickness: " ++ item dims "thickness_in" ++ [c_dquote] ++ lit " (low profile)"]
    else [] in
  size ++ thickness
  ++ (if found kw_backing clean_text then [lit "Backing: Anti-slip rubber"] else [])
  ++ (if found kw_surface clean_text then [lit "Surface: Non-woven polyester"] else [])
  ++ (if found kw_care clean_text then [lit "Care: Machine washable"] else [])
  ++ (if found kw_floor clean_text then [lit "Floor Safety: Suitable for hardwood"] else []).

Definition _synthesize_bullets (clean_text : str) (dims : gmap string str) : list str :=
  dedup_loop (bullets_of clean_text dims) empty [].

(** [\b(\w+)(?:\s+\1\b)+] with re.I, replaced by group 1. *)
Definition repeated_word : pattern :=
  Pattern true (seq [WordB; Grp 1 (plus (Esc CatWord));
                     plus (seq [plus ws; Backref 1; WordB])]).
Definition collapse_repeated (s : str) : str := sub U repeated_word [TRef 1] s.

Definition fallback_title : str := lit "Doormat, Low-Profile, Anti-Slip".

Definition _clean_title (t : option str) : option str :=
  match t with
  | None => Some fallback_title
  | Some [] => Some fallback_title
  | Some t =>
      match _strip_controls (_normalize_delims t) with
      | None => None
      | Some t =>
          let t := collapse_repeated t in
          Some (_sentenceize t)
      end
  end.

(** The description before the bullets are appended, with the
    dimensions found in it. *)
Definition clean_description (raw_description : str)
    : option (str * gmap string str) :=
  let s := raw_description in
  let s := _drop_boiler s in
  let s := _normalize_delims s in
  match _strip_controls s with
  | None => None
  | Some s =>
      let '(s, dims) := _normalize_dimensions s in
      let s := collapse_repeated s in
      let s := sub U (Pattern false (seq [star ws; plus (Cls false [CChar c_star_b; CChar c_star_w])]))
                 [TLit (lit " ")] s in
      let s := sub U (Pattern false (seq [star ws; Lit 44; star ws; Lit 46])) [TLit (lit ".")] s in
      let s := sub U (Pattern false (seq [star ws; Lit 44; star ws; Lit 44])) [TLit (lit ", ")] s in
      Some (_sentenceize s, dims)
  end.

(** [\s*(?:[^\w\s]|_){2,}\s*$] *)
Definition trailing_punct : pattern :=
  Pattern false
    (seq [star ws;
          Rep 2 None true (Alt (Cls true [CCat CatWord; CCat CatSpace]) (Lit 95));
          star ws; EndA]).

Definition clean_creative (raw_creative : option str) : option str :=
  let creative := strip U (default [] raw_creative) in
  match _strip_controls creative with
  | None => None
  | Some creative =>
      let creative := sub U trailing_punct [] creative in
      Some (_sentenceize creative)
  end.

(** [" ".join(f"(bullet) {b}." for b in features)] *)
Definition bullet_line (b : str) : str := [c_bullet] ++ lit " " ++ b ++ lit ".".

(** [None] when a scrubbing step raises; the description is cleaned
    first, then the creative text, then the title. *)
Definition normalize_listing (title : option str) (raw_description : str)
    (raw_creative : option str) : option listing :=
  match clean_description raw_description with
  | None => None
  | Some (clean_desc, dims) =>
      let features := _synthesize_bullets clean_desc dims in
      match clean_creative raw_creative with
      | None => None
      | Some creative =>
          match _clean_title title with
          | None => None
          | Some nice_title =>
              let clean_desc :=
                match features with
                | [] => clean_desc
                | _ => rstrip_chars (lit ".") clean_desc ++ lit ". "
                       ++ join (lit " ") (List.map bullet_line features)
                end in
              Some (Listing nice_title clean_desc
                      (match creative with [] => None | _ => Some creative end)
                      features dims)
          end
      end
  end.
End Normalize.

(** ** A concrete runtime for the worked examples

    The Unicode fields are those of CPython on Latin-1 (code points below
    256), with the complete list of white space; further code points are
    taken as uncased symbols, which is what the ones named by the program
    are.  The entity table is an excerpt of [html.entities.html5], and the
    tables of invalid references are excerpts of those of [html].  The
    examples below consult the tables on ASCII and on the characters of
    the program's own texts only. *)
Definition latin1_alnum (c : N) : bool :=
  (c =? 170) || (c =? 178) || (c =? 179) || (c =? 181) || (c =? 185) || (c =? 186)
  || between 188 190 c || between 192 214 c || between 216 246 c || between 248 255 c.

Definition unicode_space (c : N) : bool :=
  (c =? 133) || (c =? 160) || (c =? 5760) || between 8192 8202 c
  || (c =? 8232) || (c =? 8233) || (c =? 8239) || (c =? 8287) || (c =? 12288).

Definition latin1_lower (c : N) : N :=
  if between 192 214 c || between 216 222 c then c + 32 else c.

Definition latin1_upper (c : N) : N :=
  if between 224 246 c || between 248 254 c then c - 32
  else if c =? 255 then 376
  else if c =? 181 then 924
  else c.

Definition py_runtime : runtime := {|
  u_space := unicode_space;
  u_decimal := fun _ => false;
  u_alnum := latin1_alnum;
  u_lower := latin1_lower;
  u_upper := latin1_upper;
  u_casefix := fun c => if c =? 181 then [956]
                        else if c =? 305 then [105]
                        else if c =? 383 then [115] else [];
  u_upper_full := fun c => if c =? 223 then lit "SS" else [latin1_upper c];
  html5 := [ (lit "amp", lit "&"); (lit "amp;", lit "&");
             (lit "lt", lit "<"); (lit "lt;", lit "<");
             (lit "gt", lit ">"); (lit "gt;", lit ">");
             (lit "quot", [c_dquote]); (lit "quot;", [c_dquote]);
             (lit "apos;", [c_squote]);
             (lit "nbsp", [c_nbsp]); (lit "nbsp;", [c_nbsp]);
             (lit "times", [c_times]); (lit "times;", [c_times]) ];
  invalid_charrefs := [ (0, [65533]); (13, [13]); (128, [8364]); (133, [8230]);
                        (145, [8216]); (146, [8217]); (147, [8220]); (148, [8221]);
                        (149, [8226]); (150, [8211]); (151, [8212]) ];
  invalid_codepoints := [1; 2; 3; 4; 5; 6; 7; 8; 11; 14; 15; 16; 17; 18; 19; 20;
                         21; 22; 23; 24; 25; 26; 27; 28; 29; 30; 31; 127];
  int_max_str_digits := 4300
|}.

(** ** Notions used to state the properties *)

(** The elements of a list in the order of their first occurrence. *)
Fixpoint first_occurrences (l : list str) : list str :=
  match l with
  | [] => []
  | x :: l' => x :: filter (fun y => y <> x) (first_occurrences l')
  end.

Fixpoint is_prefix (p s : str) : bool :=
  match p, s with
  | [], _ => true
  | a :: p', b :: s' => (a =? b) && is_prefix p' s'
  | _ :: _, [] => false
  end.

(** The rule a bullet comes from, in the order of the rules: 0 for Size,
    1 for Thickness, 2 to 5 for the four keyword bullets, 6 for any
    other text. *)
Definition rule_rank (b : str) : nat :=
  if is_prefix (lit "Size: ") b then 0
  else if is_prefix (lit "Thickness: ") b then 1
  else if str_eqb b (lit "Backing: Anti-slip rubber") then 2
  else if str_eqb b (lit "Surface: Non-woven polyester") then 3
  else if str_eqb b (lit "Care: Machine washable") then 4
  else if str_eqb b (lit "Floor Safety: Suitable for hardwood") then 5
  else 6.

(** Strictly increasing. *)
Fixpoint increasing (l : list nat) : Prop :=
  match l with
  | [] => True
  | x :: l' => match l' with [] => True | y :: _ => (x < y)%nat end /\ increasing l'
  end.


(** The text holds an ampersand: only then can [html.unescape] find a
    character reference in it, and raise. *)
Definition has_amp (s : str) : bool := existsb (N.eqb 38) s.

(** The only inputs on which [normalize_listing] can raise: one of them
    holds an ampersand. *)
Definition may_raise (t : option str) (d : str) (c : option str) : bool :=
  has_amp (default [] t) || has_amp d || has_amp (default [] c).

(** A decimal character reference of [n] nines. *)
Definition long_reference (n : nat) : str := lit "&#" ++ repeat 57 n ++ lit ";".

(** The description of the worked example of dimension extraction. *)
Definition size_example : str :=
  lit "Size 24" ++ [c_dquote] ++ lit " x 36" ++ [c_dquote]
  ++ lit " (60cm x 90cm), thickness 0.2 inch".

(** ** Notions used in the proofs about the matcher and the scrubber *)

(** [st'] is [st] after the characters [mid]. *)
Definition reaches (st st' : mstate) : Prop :=
  exists mid, m_suf st = mid ++ m_suf st' /\ m_pre st' = rev mid ++ m_pre st.

(** A matcher calls its continuation, when it succeeds, at a position
    reached from its own. *)
Definition forward (f : mstate -> (mstate -> option mstate) -> option mstate) : Prop :=
  forall st k e, f st k = Some e -> exists st', reaches st st' /\ k st' = Some e.

(** What the loop computes on a run of characters that pass the test:
    the longest repeat first, then shorter ones down to [lo] rounds. *)
Fixpoint greedy_run (lo : nat) (k : mstate -> option mstate) (n : nat)
    (st : mstate) (run rest : str) : option mstate :=
  match run with
  | [] => if (n <? lo)%nat then None else k st
  | c :: run' =>
      let r := greedy_run lo k (S n) (step st c (run' ++ rest)) run' rest in
      if (n <? lo)%nat then r
      else match r with Some e => Some e | None => k st end
  end.

(** [rest] does not start with a character that passes the test. *)
Definition stops (test : N -> bool) (rest : str) : Prop :=
  match rest with [] => True | c :: _ => test c = false end.

(** The position after a run. *)
Definition after (st : mstate) (run rest : str) : mstate :=
  MState (rev run ++ m_pre st) rest (m_caps st).

(** The test of an expression that matches one character. *)
Definition atom_test (U : runtime) (ic : bool) (r : re) : option (N -> bool) :=
  match r with
  | Lit p => Some (lit_test U ic p)
  | Any => Some (fun c => negb (c =? 10))
  | Cls neg items => Some (cls_test U ic neg items)
  | Esc c => Some (cat_test U c)
  | _ => None
  end.

(** The pattern tried at one position, as re.search tries it. *)
Definition try_at (U : runtime) (p : pattern) (ma : bool) (pre suf : str) : option mstate :=
  m U (p_ic p) (p_re p) (MState pre suf []) (accept ma (MState pre suf [])).

(** Every run of characters that pass the test replaced by one space. *)
Fixpoint squeeze (test : N -> bool) (inrun : bool) (s : str) : str :=
  match s with
  | [] => []
  | c :: s' =>
      if test c then (if inrun then squeeze test true s' else 32 :: squeeze test true s')
      else c :: squeeze test false s'
  end.

(** Every character that passes the test is a space and is not followed
    by another one that passes. *)
Fixpoint tidy (test : N -> bool) (s : str) : bool :=
  match s with
  | [] => true
  | c :: s' =>
      (if test c
       then (c =? 32) && match s' with [] => true | d :: _ => negb (test d) end
       else true)
      && tidy test s'
  end.

Definition is_control (c : N) : bool := between 0 31 c || (c =? 127).
Definition is_separator (c : N) : bool := existsb (N.eqb c) (lit ",;/|-").
Definition is_bad_tok (c : N) : bool := existsb (fun kv => fst kv =? c) _RE_BAD_TOKS.

(** A character that the first three steps of the scrubber leave alone:
    no control character, no key of the translation table, no ampersand. *)
Definition settled (c : N) : bool :=
  negb (c =? 38) && negb (is_control c) && negb (is_bad_tok c).

(** No separator follows another with nothing or only white space between
    them; [prev] tells whether the last character before the text that is
    not white space is a separator. *)
Fixpoint sep_pair_free (U : runtime) (prev : bool) (x : str) : bool :=
  match x with
  | [] => true
  | c :: x' =>
      if isspace U c then sep_pair_free U prev x'
      else if is_separator c then negb prev && sep_pair_free U true x'
      else sep_pair_free U false x'
  end.

(** The text after the first two steps of the scrubber: control
    characters blanked, punctuation translated. *)
Definition canonical (U : runtime) (s : str) : str :=
  translate _RE_BAD_TOKS (sub U _RE_CONTROL [TLit (lit " ")] s).

(** No control character, or white space. *)
Definition blank_or_plain (U : runtime) (c : N) : bool :=
  negb (is_control c) || isspace U c.

(** The control characters. *)
Definition control_points : list N := 127 :: List.map N.of_nat (List.seq 0 32).

(** What html.unescape writes for a reference holds no control character
    other than white space: the values of the two tables do not, and a
    control character that is not white space has an entry in
    [invalid_charrefs] or is one of [invalid_codepoints]. *)
Definition plain_references (U : runtime) : bool :=
  forallb (fun kv => forallb (blank_or_plain U) (snd kv)) (html5 U)
  && forallb (fun kv => forallb (blank_or_plain U) (snd kv)) (invalid_charrefs U)
  && forallb (fun n => isspace U n
                       || existsb (N.eqb n) (invalid_codepoints U)
                       || match assoc N.eqb n (invalid_charrefs U) with
                          | Some _ => true
                          | None => false
                          end)
       control_points.

(** Every character before and after the position, and of the groups
    captured so far, has the property. *)
Definition all_chars (P : N -> Prop) (st : mstate) : Prop :=
  Forall P (m_pre st) /\ Forall P (m_suf st)
  /\ Forall (fun g => Forall P (snd g)) (m_caps st).

(** A matcher calls its continuation, when it succeeds, at a position
    that has kept the property. *)
Definition keeps (P : N -> Prop)
    (f : mstate -> (mstate -> option mstate) -> option mstate) : Prop :=
  forall st k e, all_chars P st -> f st k = Some e ->
    exists st', all_chars P st' /\ k st' = Some e.

(** ** Notions for the proof that delimiters do not matter to dimensions *)

(** The characters the delimiter normalizer rewrites. *)
Definition is_barrier (c : N) : bool := existsb (N.eqb c) (lit "|/,").

(** A character of a gap between two pieces of text: white space or a
    barrier. *)
Definition gapchar (U : runtime) (c : N) : bool := isspace U c || is_barrier c.

Definition rejects_gap (U : runtime) (test : N -> bool) : Prop :=
  forall c, gapchar U c = true -> test c = false.

(** An expression that consumes no character of a gap. *)
Fixpoint ws_free (U : runtime) (ic : bool) (r : re) : Prop :=
  match r with
  | Eps => True
  | Lit _ | Any | Cls _ _ | Esc _ =>
      match atom_test U ic r with
      | Some test => rejects_gap U test
      | None => False
      end
  | Seq a b | Alt a b => ws_free U ic a /\ ws_free U ic b
  | Rep _ _ _ a => ws_free U ic a
  | Grp _ a => ws_free U ic a
  | _ => False
  end.

(** An expression that cannot match the empty string. *)
Fixpoint nonnull (r : re) : bool :=
  match r with
  | Lit _ | Any | Cls _ _ | Esc _ => true
  | Seq a b => nonnull a || nonnull b
  | Alt a b => nonnull a && nonnull b
  | Rep lo _ _ a => (0 <? lo)%nat && nonnull a
  | Grp _ a => nonnull a
  | _ => false
  end.

(** What is asked of a relation [TL] between the two texts from a gap on:
    each starts with a character of the gap or is empty, and stays
    related when white space at the start of either is consumed. *)
Record tails_ok (U : runtime) (TL : str -> str -> Prop) : Prop := {
  tl_head_l : forall t1 t2, TL t1 t2 ->
    match t1 with [] => True | c :: _ => gapchar U c = true end;
  tl_head_r : forall t1 t2, TL t1 t2 ->
    match t2 with [] => True | c :: _ => gapchar U c = true end;
  tl_ws_l : forall c t1 t2, TL (c :: t1) t2 -> isspace U c = true -> TL t1 t2;
  tl_ws_r : forall c t1 t2, TL t1 (c :: t2) -> isspace U c = true -> TL t1 t2
}.

(** Two positions, in two texts, with the same text up to related tails
    and the same groups. *)
Definition corr (TL : str -> str -> Prop) (s1 s2 : mstate) : Prop :=
  m_caps s1 = m_caps s2
  /\ exists u t1 t2, m_suf s1 = u ++ t1 /\ m_suf s2 = u ++ t2 /\ TL t1 t2.

Definition rel_res (TL : str -> str -> Prop) (o1 o2 : option mstate) : Prop :=
  match o1, o2 with
  | None, None => True
  | Some e1, Some e2 => corr TL e1 e2
  | _, _ => False
  end.

(** The matcher [f] runs alike from corresponding positions, calling its
    continuation after the same characters [mid] on both sides (not
    empty when [nn] is set). *)
Definition sim_strict (TL : str -> str -> Prop) (nn : bool)
    (f : mstate -> (mstate -> option mstate) -> option mstate) : Prop :=
  forall st1 st2 k1 k2, corr TL st1 st2 ->
    (forall mid s1 s2,
       m_suf st1 = mid ++ m_suf s1 -> m_suf st2 = mid ++ m_suf s2 ->
       (nn = true -> mid <> []) -> corr TL s1 s2 -> rel_res TL (k1 s1) (k2 s2)) ->
    rel_res TL (f st1 k1) (f st2 k2).

(** The matcher [f] runs alike from corresponding positions; it may
    consume different white space on the two sides. *)
Definition sim (TL : str -> str -> Prop)
    (f : mstate -> (mstate -> option mstate) -> option mstate) : Prop :=
  forall st1 st2 k1 k2, corr TL st1 st2 ->
    (forall s1 s2, corr TL s1 s2 ->
       (length (m_suf s1) <= length (m_suf st1))%nat ->
       (length (m_suf s2) <= length (m_suf st2))%nat ->
       rel_res TL (k1 s1) (k2 s2)) ->
    rel_res TL (f st1 k1) (f st2 k2).

(** The expressions of the dimension patterns: pieces that consume no
    gap, stars of one character test that never accepts a barrier, and
    an optional piece that starts with characters outside gaps. *)
Fixpoint dim_safe (U : runtime) (ic : bool) (r : re) : Prop :=
  ws_free U ic r \/
  match r with
  | Seq a b | Alt a b => dim_safe U ic a /\ dim_safe U ic b
  | Rep O None true a =>
      match atom_test U ic a with
      | Some test => forall c, is_barrier c = true -> test c = false
      | None => False
      end
  | Rep O (Some 1%nat) true (Seq h t) =>
      ws_free U ic h /\ nonnull h = true /\ dim_safe U ic t
  | _ => False
  end.

(** The longest prefix of characters that pass the test. *)
Fixpoint run_of (test : N -> bool) (s : str) : str :=
  match s with
  | c :: s' => if test c then c :: run_of test s' else []
  | [] => []
  end.

(** The text is at its end or starts with a character of a gap. *)
Definition at_gap (U : runtime) (s : str) : Prop :=
  match s with [] => True | c :: _ => gapchar U c = true end.

(** Facts of the Unicode database the argument relies on. *)
Record unicode_facts (U : runtime) : Prop := {
  uf_space_not_decimal : forall c, isspace U c = true -> isdecimal U c = false;
  uf_space_uncased : forall c, isspace U c = true -> tolower U c = c;
  uf_dotless_i : isspace U 305 = false;
  uf_long_s : isspace U 383 = false;
  uf_rdquote_uncased : iscased U c_rdquote = false;
  uf_rdquote_not_space : isspace U c_rdquote = false;
  uf_times_lower : tolower U c_times = c_times;
  uf_times_casefix : casefix U c_times = [];
  uf_times_not_space : isspace U c_times = false
}.

(** A gap: characters of a gap, one at least a barrier. *)
Definition gap (U : runtime) (g : str) : Prop :=
  Forall (fun c => gapchar U c = true) g /\ Exists (fun c => is_barrier c = true) g.

(** The same text but for one gap. *)
Definition edit (U : runtime) (x y : str) : Prop :=
  exists a h1 h2 b, x = a ++ h1 ++ b /\ y = a ++ h2 ++ b /\ gap U h1 /\ gap U h2.

(** Tails that are a gap each, before the same text [b]. *)
Definition TLgap (U : runtime) (b t1 t2 : str) : Prop :=
  exists h1 h2, t1 = h1 ++ b /\ t2 = h2 ++ b /\ gap U h1 /\ gap U h2.

(** No tails: the same text on both sides. *)
Definition TLnil (t1 t2 : str) : Prop := t1 = [] /\ t2 = [].

(** What the search finds in two texts is the same up to gaps: the same
    groups, and texts after a replacement that differ in one gap. *)
Definition same_match (U : runtime) (x y : str) (o1 o2 : option rmatch) : Prop :=
  match o1, o2 with
  | None, None => True
  | Some m1, Some m2 =>
      m_caps (mt_end m1) = m_caps (mt_end m2)
      /\ forall v, edit U (skipped x m1 ++ v ++ m_suf (mt_end m1))
                          (skipped y m2 ++ v ++ m_suf (mt_end m2))
  | _, _ => False
  end.

(** Every character the expression can consume is a character of a gap. *)
Fixpoint all_gap (U : runtime) (ic : bool) (r : re) : Prop :=
  match r with
  | Eps => True
  | Lit _ | Any | Cls _ _ | Esc _ =>
      match atom_test U ic r with
      | Some test => forall c, test c = true -> gapchar U c = true
      | None => False
      end
  | Seq a b | Alt a b => all_gap U ic a /\ all_gap U ic b
  | Rep _ _ _ a | Grp _ a => all_gap U ic a
  | _ => False
  end.

(** The expression consumes a gap: a barrier at least, and characters of
    a gap around it. *)
Fixpoint barred (U : runtime) (ic : bool) (r : re) : Prop :=
  match r with
  | Lit _ | Any | Cls _ _ | Esc _ =>
      match atom_test U ic r with
      | Some test => forall c, test c = true -> is_barrier c = true
      | None => False
      end
  | Seq a b => (barred U ic a /\ all_gap U ic b) \/ (all_gap U ic a /\ barred U ic b)
  | _ => False
  end.

(** Characters of a gap only. *)
Definition gaps (U : runtime) : str -> Prop := Forall (fun c => gapchar U c = true).

(** [st'] is [st] after characters that satisfy [P]. *)
Definition through (P : str -> Prop) (st st' : mstate) : Prop :=
  exists mid, m_suf st = mid ++ m_suf st' /\ P mid.

Definition forward_through (P : str -> Prop)
    (f : mstate -> (mstate -> option mstate) -> option mstate) : Prop :=
  forall st k e, f st k = Some e -> exists st', through P st st' /\ k st' = Some e.

(** Texts equal up to their gaps. *)
Inductive related (U : runtime) : str -> str -> Prop :=
| related_refl x : related U x x
| related_edit x y : edit U x y -> related U x y
| related_trans x y z : related U x y -> related U y z -> related U x z.

(** One step of dimension extraction finds the same numbers in both
    texts and leaves related texts. *)
Definition same_step (U : runtime) (Q : pattern) (x y : str) : Prop :=
  match search U Q x, search U Q y with
  | None, None => True
  | Some m1, Some m2 =>
      m_caps (mt_end m1) = m_caps (mt_end m2)
      /\ forall v, related U (sub_count U Q [TLit v] x 1) (sub_count U Q [TLit v] y 1)
  | _, _ => False
  end.

(** The literal an expression starts with, when it starts with one. *)
Fixpoint leading (r : re) : option N :=
  match r with
  | Lit a => Some a
  | Seq x _ | Grp _ x => leading x
  | _ => None
  end.

(** ** Notions for the further properties *)

(** The pattern is tried in vain at every position of [sk], before
    [rest]. *)
Definition misses (U : runtime) (p : pattern) (sk rest : str) : Prop :=
  forall sk1 c sk2, sk = sk1 ++ c :: sk2 ->
    exists ma pre, try_at U p ma pre (c :: sk2 ++ rest) = None.

(** A numeral as the dimension patterns read it: decimal digits, then
    possibly a full stop and more decimal digits. *)
Definition is_numeral (U : runtime) (g : str) : bool :=
  negb (match run_of (isdecimal U) g with [] => true | _ => false end)
  && match lstrip_by (isdecimal U) g with
     | [] => true
     | c :: f => (c =? 46) && negb (match f with [] => true | _ => false end)
                 && forallb (isdecimal U) f
     end.

(** [mid] is [j] pieces, each with the property [P]. *)
Fixpoint pieces (P : str -> Prop) (j : nat) (mid : str) : Prop :=
  match j with
  | O => mid = []
  | S j' => exists x y, mid = x ++ y /\ P x /\ pieces P j' y
  end.

(** A matcher without groups: it calls its continuation after
    characters with the property [P], the groups unchanged. *)
Definition consumes (P : str -> Prop)
    (f : mstate -> (mstate -> option mstate) -> option mstate) : Prop :=
  forall st k e, f st k = Some e ->
    exists mid rest, m_suf st = mid ++ rest /\ P mid
      /\ k (MState (rev mid ++ m_pre st) rest (m_caps st)) = Some e.

(** Every group of the expression records a text with the property
    [P]. *)
Fixpoint groups_ok (U : runtime) (ic : bool) (P : str -> Prop) (r : re) : Prop :=
  match r with
  | Grp _ a => consumes P (m U ic a)
  | Seq a b | Alt a b => groups_ok U ic P a /\ groups_ok U ic P b
  | Rep _ _ _ a | Look _ a => groups_ok U ic P a
  | _ => True
  end.

(** Group [n] is recorded by every match of the expression. *)
Fixpoint binds (n : nat) (r : re) : bool :=
  match r with
  | Grp i _ => Nat.eqb i n
  | Seq a b => binds n a || binds n b
  | Alt a b => binds n a && binds n b
  | _ => false
  end.

(** The groups after a step of the matcher: new ones before the old,
    each with the property [P], and among them every group that the
    expression binds. *)
Definition grown (P : str -> Prop) (r : re) (st st' : mstate) : Prop :=
  exists new, m_caps st' = new ++ m_caps st
    /\ Forall (fun ng => P (snd ng)) new
    /\ forall n, binds n r = true -> In n (List.map fst new).

(** The continuation is called no earlier in the text, and later when
    [nn] holds. *)
Definition advances (nn : bool)
    (f : mstate -> (mstate -> option mstate) -> option mstate) : Prop :=
  forall st k e, f st k = Some e ->
    exists st', k st' = Some e
      /\ (length (m_suf st') <= length (m_suf st))%nat
      /\ (nn = true -> (length (m_suf st') < length (m_suf st))%nat).

(** * Properties *)

(** ** The fields of the result *)

Section Fields.
Variable U : runtime.
Variables (t : option str) (d : str) (c : option str).

(** What a returned listing is made of. *)
Lemma normalize_listing_inv (r : listing) :
  normalize_listing U t d c = Some r ->
  exists (clean : str) (dims : gmap string str) (cr : str),
    clean_description U d = Some (clean, dims)
    /\ clean_creative U c = Some cr
    /\ _clean_title U t = Some (title r)
    /\ features r = _synthesize_bullets U clean dims
    /\ dimensions r = dims
    /\ creative r = match cr with [] => None | _ :: _ => Some cr end
    /\ description r
       = match features r with
         | [] => clean
         | _ :: _ => rstrip_chars (lit ".") clean ++ lit ". "
                     ++ join (lit " ") (List.map bullet_line (features r))
         end.
Proof.
  unfold normalize_listing.
  destruct (clean_description U d) as [[clean dims]|]; [|discriminate].
  destruct (clean_creative U c) as [cr|]; [|discriminate].
  destruct (_clean_title U t) as [ti|]; [|discriminate].
  intros [= <-]. exists clean, dims, cr.
  cbn [title features dimensions creative description].
  repeat split; reflexivity.
Qed.

(** The listing is returned when its three parts are. *)
Lemma normalize_listing_some :
  is_Some (clean_description U d) -> is_Some (clean_creative U c) ->
  is_Some (_clean_title U t) -> is_Some (normalize_listing U t d c).
Proof.
  intros [[clean dims] Hd] [cr Hc] [ti Ht]. unfold normalize_listing.
  rewrite Hd, Hc, Ht. eexists. reflexivity.
Qed.
End Fields.

Lemma dims_of_description U d (clean : str) (dims : gmap string str) :
  clean_description U d = Some (clean, dims) ->
  exists s, dims = snd (_normalize_dimensions U s).
Proof.
  unfold clean_description. cbv zeta.
  destruct (_strip_controls U (_normalize_delims U (_drop_boiler U d))) as [x|];
    [|discriminate].
  destruct (_normalize_dimensions U x) as [out found] eqn:E. intros [= _ <-].
  exists x. now rewrite E.
Qed.

Lemma pairs_together U (s : str) :
  let dims := snd (_normalize_dimensions U s) in
  (is_Some (dims !! "width_in") <-> is_Some (dims !! "length_in"))
  /\ (is_Some (dims !! "width_cm") <-> is_Some (dims !! "length_cm")).
Proof.
  unfold _normalize_dimensions.
  destruct (search U (_RE_DIM_INCH) s) as [mi|];
    [ destruct (search U _RE_DIM_CM (sub_count U _RE_DIM_INCH _ s 1)) as [mc|];
      [ destruct (search U _RE_THICK (sub_count U _RE_DIM_CM _ _ 1)) as [mt|]
      | destruct (search U _RE_THICK (sub_count U _RE_DIM_INCH _ s 1)) as [mt|] ]
    | destruct (search U _RE_DIM_CM s) as [mc|];
      [ destruct (search U _RE_THICK (sub_count U _RE_DIM_CM _ s 1)) as [mt|]
      | destruct (search U _RE_THICK s) as [mt|] ] ];
    cbn [snd]; simplify_map_eq; split; split; intros [? ?]; simplify_eq; eauto.
Qed.

(** ** Dropping repeated bullets *)

Lemma filter_first_occurrences (P : str -> Prop) `{!forall x, Decision (P x)} (l : list str) :
  filter P (first_occurrences l) = first_occurrences (filter P l).
Proof.
  induction l as [|x l IH]; [reflexivity|].
  cbn [first_occurrences]. rewrite !filter_cons.
  destruct (decide (P x)) as [Hx|Hx].
  - cbn [first_occurrences]. f_equal. rewrite <- IH.
    rewrite !list_filter_filter. apply list_filter_iff. tauto.
  - rewrite <- IH. rewrite list_filter_filter. apply list_filter_iff.
    intros y. split; [tauto|]. intros Hy. split; [exact Hy|]. intros ->. tauto.
Qed.

Lemma filter_all (P : str -> Prop) `{!forall x, Decision (P x)} (l : list str) :
  Forall P l -> filter P l = l.
Proof.
  induction 1 as [|x l Hx _ IH]; [reflexivity|].
  now rewrite filter_cons_True, IH.
Qed.

Lemma dedup_loop_spec (bs : list str) : forall (seen : gset str) (acc : list str),
  dedup_loop bs seen acc = acc ++ first_occurrences (filter (fun b => b ∉ seen) bs).
Proof.
  induction bs as [|b bs IH]; intros seen acc; cbn [dedup_loop].
  - rewrite filter_nil. cbn. now rewrite app_nil_r.
  - rewrite filter_cons. destruct (decide (b ∈ seen)) as [Hin|Hin].
    + rewrite decide_False by tauto. apply IH.
    + rewrite decide_True by tauto. rewrite IH, <- app_assoc. cbn [app first_occurrences].
      do 2 f_equal. rewrite filter_first_occurrences, list_filter_filter.
      f_equal. apply list_filter_iff. intros y.
      rewrite not_elem_of_union, not_elem_of_singleton. tauto.
Qed.

Lemma synthesize_first_occurrences U (s : str) (dims : gmap string str) :
  _synthesize_bullets U s dims = first_occurrences (bullets_of U s dims).
Proof.
  unfold _synthesize_bullets. rewrite dedup_loop_spec. cbn [app]. f_equal.
  apply filter_all, Forall_forall. intros b _. apply not_elem_of_empty.
Qed.

Lemma first_occurrences_subset (l : list str) x : x ∈ first_occurrences l -> x ∈ l.
Proof.
  induction l as [|y l IH]; cbn [first_occurrences]; [easy|].
  rewrite !elem_of_cons, list_elem_of_filter. tauto.
Qed.

Lemma NoDup_first_occurrences (l : list str) : NoDup (first_occurrences l).
Proof.
  induction l as [|x l IH]; cbn [first_occurrences]; constructor.
  - rewrite list_elem_of_filter. tauto.
  - now apply NoDup_filter.
Qed.

Lemma length_first_occurrences (l : list str) :
  (length (first_occurrences l) <= length l)%nat.
Proof.
  induction l as [|x l IH]; cbn [first_occurrences length]; [lia|].
  pose proof (length_filter (fun y => y <> x) (first_occurrences l)). lia.
Qed.

Lemma first_occurrences_NoDup (l : list str) : NoDup l -> first_occurrences l = l.
Proof.
  induction 1 as [|x l Hx Hl IH]; cbn [first_occurrences]; [reflexivity|].
  rewrite IH. f_equal. apply filter_all, Forall_forall.
  intros y Hy ->. tauto.
Qed.

(** ** The order of the bullets *)

Lemma rank_size (x : str) : rule_rank (lit "Size: " ++ x) = 0%nat.
Proof. reflexivity. Qed.

Lemma rank_thickness (x : str) : rule_rank (lit "Thickness: " ++ x) = 1%nat.
Proof. reflexivity. Qed.

Lemma bullets_of_shape U (s : str) (dims : gmap string str) :
  exists (sz th : list str) (b1 b2 b3 b4 : bool),
    bullets_of U s dims
    = sz ++ th
      ++ (if b1 then [lit "Backing: Anti-slip rubber"] else [])
      ++ (if b2 then [lit "Surface: Non-woven polyester"] else [])
      ++ (if b3 then [lit "Care: Machine washable"] else [])
      ++ (if b4 then [lit "Floor Safety: Suitable for hardwood"] else [])
    /\ (sz = [] \/ exists x, sz = [lit "Size: " ++ x])
    /\ (th = [] \/ exists x, th = [lit "Thickness: " ++ x]).
Proof.
  unfold bullets_of.
  eexists _, _, (found U kw_backing s), (found U kw_surface s),
    (found U kw_care s), (found U kw_floor s).
  split; [reflexivity|]. split.
  - destruct (truthy (dims !! "width_in") && truthy (dims !! "length_in"));
      [destruct (truthy (dims !! "width_cm") && truthy (dims !! "length_cm"))
      |destruct (truthy (dims !! "width_cm") && truthy (dims !! "length_cm"))];
      eauto.
  - destruct (truthy (dims !! "thickness_in")); eauto.
Qed.

Lemma bullets_of_ranked U (s : str) (dims : gmap string str) :
  increasing (List.map rule_rank (bullets_of U s dims))
  /\ Forall (fun b => (rule_rank b < 6)%nat) (bullets_of U s dims).
Proof.
  destruct (bullets_of_shape U s dims)
    as (sz & th & b1 & b2 & b3 & b4 & -> & [->|[x ->]] & [->|[y ->]]);
    destruct b1, b2, b3, b4; cbn [app List.map];
    rewrite ?rank_size, ?rank_thickness;
    (split; [vm_compute; repeat split; lia
            | repeat (apply Forall_cons; split;
                      [rewrite ?rank_size, ?rank_thickness; vm_compute; lia|]);
              apply Forall_nil_2]).
Qed.

Lemma increasing_lower_bound (l : list nat) x y :
  increasing (x :: l) -> y ∈ l -> (x < y)%nat.
Proof.
  revert x. induction l as [|z l IH]; intros x [Hx Hl] Hy; [inversion Hy|].
  apply elem_of_cons in Hy as [->|Hy]; [exact Hx|].
  specialize (IH z Hl Hy). lia.
Qed.

Lemma increasing_NoDup {A} (f : A -> nat) (l : list A) :
  increasing (List.map f l) -> NoDup l.
Proof.
  induction l as [|x l IH]; intros H; constructor.
  - intros Hx. apply (list_elem_of_fmap_2 f) in Hx.
    pose proof (increasing_lower_bound _ _ _ H Hx). lia.
  - apply IH. destruct H as [_ H]. exact H.
Qed.

Lemma features_are_bullets U (s : str) (dims : gmap string str) :
  _synthesize_bullets U s dims = bullets_of U s dims.
Proof.
  rewrite synthesize_first_occurrences. apply first_occurrences_NoDup.
  apply (increasing_NoDup rule_rank), bullets_of_ranked.
Qed.

Lemma length_bullets_of U (s : str) (dims : gmap string str) :
  (length (bullets_of U s dims) <= 6)%nat.
Proof.
  destruct (bullets_of_shape U s dims)
    as (sz & th & b1 & b2 & b3 & b4 & -> & [->|[x ->]] & [->|[y ->]]);
    destruct b1, b2, b3, b4; cbn [app length]; lia.
Qed.

(** ** Trimming *)

Lemma lstrip_by_all (drop : N -> bool) (s : str) :
  Forall (fun c => drop c = true) s -> lstrip_by drop s = [].
Proof.
  induction 1 as [|c s Hc _ IH]; cbn [lstrip_by]; [reflexivity|].
  now rewrite Hc.
Qed.

Lemma strip_blank U (s : str) :
  Forall (fun c => isspace U c = true) s -> strip U s = [].
Proof. intros H. unfold strip. now rewrite (lstrip_by_all _ _ H). Qed.

(** [s.rstrip(chars)] removes a run of [chars] from the end and leaves a
    text that does not end in one of them. *)
Lemma lstrip_by_split (drop : N -> bool) (s : str) :
  exists run, s = run ++ lstrip_by drop s
    /\ Forall (fun c => drop c = true) run
    /\ match lstrip_by drop s with [] => True | c :: _ => drop c = false end.
Proof.
  induction s as [|c s (run & Hs & Hrun & Hhd)]; cbn [lstrip_by].
  - exists []. repeat split; constructor.
  - destruct (drop c) eqn:Hc.
    + exists (c :: run). cbn [app]. rewrite <- Hs. repeat split; [|exact Hhd].
      now constructor.
    + exists []. repeat split; [constructor | exact Hc].
Qed.


(** ** The matcher moves forward in one subject *)

Lemma reaches_refl st : reaches st st.
Proof. now exists []. Qed.

Lemma reaches_trans st1 st2 st3 : reaches st1 st2 -> reaches st2 st3 -> reaches st1 st3.
Proof.
  intros (m1 & Hs1 & Hp1) (m2 & Hs2 & Hp2). exists (m1 ++ m2). split.
  - now rewrite Hs1, Hs2, app_assoc.
  - now rewrite Hp2, Hp1, rev_app_distr, app_assoc.
Qed.

Lemma reaches_length st st' : reaches st st' -> (length (m_suf st') <= length (m_suf st))%nat.
Proof. intros (mid & -> & _). rewrite length_app. lia. Qed.

Lemma one_forward test : forward (one test).
Proof.
  intros st k e. unfold one. destruct (m_suf st) as [|c rest] eqn:E; [discriminate|].
  destruct (test c); [|discriminate]. intros H. eexists. split; [|exact H].
  exists [c]. now rewrite E.
Qed.

Lemma rep_loop_forward body lo hi greedy k :
  forward body ->
  forall fuel n st e, rep_loop body lo hi greedy k fuel n st = Some e ->
    exists st', reaches st st' /\ k st' = Some e.
Proof.
  intros Hb. induction fuel as [|fuel IH]; intros n st e; cbn [rep_loop]; [discriminate|].
  set (again := body st _).
  assert (forall e, again = Some e -> exists st', reaches st st' /\ k st' = Some e) as Hagain.
  { intros e' He. apply Hb in He as (st1 & Hr1 & Hk).
    destruct ((n <? lo)%nat || (length (m_suf st1) <? length (m_suf st))%nat); [|discriminate].
    apply IH in Hk as (st2 & Hr2 & Hk). exists st2. split; [|exact Hk].
    eapply reaches_trans; eassumption. }
  assert (forall e, k st = Some e -> exists st', reaches st st' /\ k st' = Some e) as Hstop.
  { intros e' He. exists st. split; [apply reaches_refl|exact He]. }
  destruct (n <? lo)%nat; [apply Hagain|].
  destruct greedy.
  - destruct (match hi with Some h => (n <? h)%nat | None => true end).
    + destruct again as [e'|]; [intros [= <-]; now apply Hagain | apply Hstop].
    + apply Hstop.
  - destruct (k st) as [e'|] eqn:Ek; [intros [= <-]; now apply Hstop|].
    destruct (match hi with Some h => (n <? h)%nat | None => true end); [apply Hagain|discriminate].
Qed.

Lemma strip_prefix_reaches U ic g : forall s pre pre' suf',
  strip_prefix U ic g s pre = Some (pre', suf') ->
  exists mid, s = mid ++ suf' /\ pre' = rev mid ++ pre.
Proof.
  induction g as [|a g IH]; intros s pre pre' suf'; cbn [strip_prefix].
  - intros [= <- <-]. now exists [].
  - destruct s as [|c s]; [discriminate|]. destruct (chr_eq U ic c a); [|discriminate].
    intros H. apply IH in H as (mid & -> & ->). exists (c :: mid). split; [reflexivity|].
    cbn [rev]. now rewrite <- app_assoc.
Qed.

Lemma m_forward U ic (r : re) : forward (m U ic r).
Proof.
  induction r as [| p | | neg items | c | r1 IH1 r2 IH2 | r1 IH1 r2 IH2
                 | lo hi greedy r IH | n r IH | n | | | back r IH];
    intros st k e; cbn [m].
  - intros H. exists st. split; [apply reaches_refl|exact H].
  - apply one_forward.
  - apply one_forward.
  - apply one_forward.
  - apply one_forward.
  - intros H. apply IH1 in H as (st1 & Hr1 & H). apply IH2 in H as (st2 & Hr2 & H).
    exists st2. split; [eapply reaches_trans; eassumption|exact H].
  - destruct (m U ic r1 st k) as [e'|] eqn:E1.
    + intros [= <-]. now apply IH1.
    + apply IH2.
  - now apply rep_loop_forward.
  - intros H. apply IH in H as (st1 & Hr1 & H). eexists. split; [|exact H]. exact Hr1.
  - destruct (cap_lookup n (m_caps st)) as [g|]; [|discriminate].
    destruct (strip_prefix U ic g (m_suf st) (m_pre st)) as [[pre suf]|] eqn:E; [|discriminate].
    intros H. eexists. split; [|exact H].
    apply strip_prefix_reaches in E as (mid & E1 & E2). exists mid. now split.
  - destruct (at_word_boundary U st); [|discriminate].
    intros H. exists st. split; [apply reaches_refl|exact H].
  - assert (k st = Some e -> exists st', reaches st st' /\ k st' = Some e) as Hk.
    { intros H. exists st. split; [apply reaches_refl|exact H]. }
    destruct (m_suf st) as [|c [|? ?]]; [exact Hk| |discriminate].
    destruct (c =? 10); [exact Hk|discriminate].
  - destruct (rewind back (m_pre st) (m_suf st)) as [[pre suf]|]; [|discriminate].
    destruct (m U ic r (MState pre suf (m_caps st)) Some) as [e'|]; [|discriminate].
    intros H. eexists. split; [|exact H]. now exists [].
Qed.

(** ** A greedy repeat of one character test *)

Lemma rep_loop_one test lo k : forall run st rest fuel n,
  m_suf st = run ++ rest -> Forall (fun c => test c = true) run -> stops test rest ->
  (length run < fuel)%nat ->
  rep_loop (one test) lo None true k fuel n st = greedy_run lo k n st run rest.
Proof.
  induction run as [|c run IH]; intros st rest fuel n Hsuf Hrun Hstop Hfuel;
    (destruct fuel as [|fuel]; [cbn in Hfuel; lia|]); cbn [rep_loop greedy_run].
  - assert (one test st (fun st' =>
              if (n <? lo)%nat || (length (m_suf st') <? length (m_suf st))%nat
              then rep_loop (one test) lo None true k fuel (S n) st' else None) = None) as ->.
    { unfold one. rewrite Hsuf. cbn [app]. destruct rest as [|d rest]; [reflexivity|].
      cbn in Hstop. now rewrite Hstop. }
    reflexivity.
  - inversion Hrun as [|? ? Hc Hrun']; subst.
    assert (one test st (fun st' =>
              if (n <? lo)%nat || (length (m_suf st') <? length (m_suf st))%nat
              then rep_loop (one test) lo None true k fuel (S n) st' else None)
            = greedy_run lo k (S n) (step st c (run ++ rest)) run rest) as ->.
    { unfold one. rewrite Hsuf. cbn [app]. rewrite Hc.
      assert ((length (m_suf (step st c (run ++ rest))) <? length (c :: run ++ rest))%nat = true) as ->.
      { apply Nat.ltb_lt. cbn. lia. }
      rewrite orb_true_r. apply IH; [reflexivity|assumption|assumption|cbn in Hfuel; lia]. }
    reflexivity.
Qed.

Lemma greedy_run_longest lo k : forall run st rest n e,
  m_suf st = run ++ rest ->
  (lo <= n + length run)%nat -> k (after st run rest) = Some e ->
  greedy_run lo k n st run rest = Some e.
Proof.
  induction run as [|c run IH]; intros st rest n e Hsuf Hlo Hk; cbn [greedy_run].
  - cbn [length] in Hlo. assert ((n <? lo)%nat = false) as -> by (apply Nat.ltb_ge; lia).
    destruct st as [p s cs]. cbn in Hsuf. subst s. exact Hk.
  - rewrite (IH (step st c (run ++ rest)) rest (S n) e).
    + now destruct (n <? lo)%nat.
    + reflexivity.
    + cbn [length] in Hlo. lia.
    + unfold after, step in *. cbn [m_pre m_caps rev] in *. now rewrite <- app_assoc in Hk.
Qed.

Lemma greedy_run_short lo k : forall run st rest n,
  (n + length run < lo)%nat -> greedy_run lo k n st run rest = None.
Proof.
  induction run as [|c run IH]; intros st rest n Hlo; cbn [greedy_run length] in *.
  - now assert ((n <? lo)%nat = true) as -> by (apply Nat.ltb_lt; lia).
  - assert ((n <? lo)%nat = true) as -> by (apply Nat.ltb_lt; lia).
    apply IH. lia.
Qed.

(** ** Single-character expressions *)

Lemma m_atom U ic r test : atom_test U ic r = Some test -> m U ic r = one test.
Proof. destruct r; intros [= <-]; reflexivity. Qed.

(** ** The loops of re.search and re.sub *)

Section Loops.
Variable U : runtime.
Variable p : pattern.

Lemma scan_eq ma pre suf :
  scan U p ma pre suf
  = match try_at U p ma pre suf with
    | Some e => Some (RMatch (MState pre suf []) e)
    | None => match suf with
              | [] => None
              | c :: rest => scan U p false (c :: pre) rest
              end
    end.
Proof. destruct suf; reflexivity. Qed.

Lemma try_at_reaches ma pre suf e :
  try_at U p ma pre suf = Some e -> reaches (MState pre suf []) e.
Proof.
  unfold try_at. intros H. apply m_forward in H as (st' & Hr & Hk).
  unfold accept in Hk. destruct (_ && _); [discriminate|]. now injection Hk as <-.
Qed.

(** A match found by the scan starts after a skipped prefix of the text
    and ends at or after its start. *)
Lemma scan_start suf : forall ma pre mt,
  scan U p ma pre suf = Some mt ->
  exists sk, suf = sk ++ m_suf (mt_start mt)
    /\ mt_start mt = MState (rev sk ++ pre) (m_suf (mt_start mt)) []
    /\ try_at U p (ma && (length sk =? 0)%nat) (rev sk ++ pre) (m_suf (mt_start mt))
       = Some (mt_end mt).
Proof.
  induction suf as [|c rest IH]; intros ma pre mt; rewrite scan_eq.
  - destruct (try_at U p ma pre []) as [e|] eqn:E; [|discriminate].
    intros [= <-]. exists []. cbn. rewrite andb_true_r. auto.
  - destruct (try_at U p ma pre (c :: rest)) as [e|] eqn:E.
    + intros [= <-]. exists []. cbn. rewrite andb_true_r. auto.
    + intros H. apply IH in H as (sk & Hs & Hst & Ht). exists (c :: sk).
      cbn [app rev length]. rewrite <- app_assoc. cbn [app]. rewrite Hs at 1.
      split; [reflexivity|]. split; [exact Hst|].
      rewrite andb_false_r. rewrite andb_false_l in Ht. exact Ht.
Qed.

Lemma scan_miss ma pre c rest :
  try_at U p ma pre (c :: rest) = None ->
  scan U p ma pre (c :: rest) = scan U p false (c :: pre) rest.
Proof. intros H. now rewrite scan_eq, H. Qed.

Lemma scan_hit ma pre suf e :
  try_at U p ma pre suf = Some e ->
  scan U p ma pre suf = Some (RMatch (MState pre suf []) e).
Proof. intros H. now rewrite scan_eq, H. Qed.

Lemma skipped_cons c rest mt sk :
  rest = sk ++ m_suf (mt_start mt) -> skipped (c :: rest) mt = c :: skipped rest mt.
Proof.
  intros H. unfold skipped. rewrite H at 1 3. cbn [length]. rewrite length_app.
  replace (S (length sk + length (m_suf (mt_start mt))) - length (m_suf (mt_start mt)))%nat
    with (S (length sk)) by lia.
  replace (length sk + length (m_suf (mt_start mt)) - length (m_suf (mt_start mt)))%nat
    with (length sk) by lia.
  now rewrite H.
Qed.

(** Where the pattern does not match, re.sub copies the character. *)
Lemma sub_loop_miss repl fuel n ma pre c rest :
  try_at U p ma pre (c :: rest) = None ->
  sub_loop U (S fuel) p repl 0 n ma pre (c :: rest)
  = c :: sub_loop U (S fuel) p repl 0 n false (c :: pre) rest.
Proof.
  intros H. cbn [sub_loop]. cbn [Nat.eqb negb andb]. rewrite (scan_miss _ _ _ _ H).
  destruct (scan U p false (c :: pre) rest) as [mt|] eqn:E; [|reflexivity].
  apply scan_start in E as (sk & Hs & _). now rewrite (skipped_cons c rest mt sk Hs).
Qed.

(** Where it matches, re.sub writes the replacement and goes on after
    the match. *)
Lemma sub_loop_hit repl fuel n ma pre suf e :
  try_at U p ma pre suf = Some e ->
  sub_loop U (S fuel) p repl 0 n ma pre suf
  = repl (RMatch (MState pre suf []) e)
    ++ sub_loop U fuel p repl 0 (S n) (was_empty (RMatch (MState pre suf []) e))
         (m_pre e) (m_suf e).
Proof.
  intros H. cbn [sub_loop]. cbn [Nat.eqb negb andb]. rewrite (scan_hit _ _ _ _ H).
  unfold skipped. cbn [mt_start mt_end m_suf]. now rewrite Nat.sub_diag.
Qed.

Lemma sub_loop_end repl fuel n ma pre :
  try_at U p ma pre [] = None -> sub_loop U (S fuel) p repl 0 n ma pre [] = [].
Proof. intros H. cbn [sub_loop]. cbn [Nat.eqb negb andb]. now rewrite scan_eq, H. Qed.
End Loops.

(** ** re.sub with a constant replacement *)

Lemma expand_lit (r : str) mt : expand [TLit r] mt = r.
Proof. cbn. apply app_nil_r. Qed.

Lemma skipped_prefix suf mt sk :
  suf = sk ++ m_suf (mt_start mt) -> skipped suf mt = sk.
Proof.
  intros H. unfold skipped. rewrite H at 1. rewrite length_app.
  replace (length sk + length (m_suf (mt_start mt)) - length (m_suf (mt_start mt)))%nat
    with (length sk) by lia.
  rewrite H. now rewrite firstn_app, Nat.sub_diag, firstn_all, firstn_O, app_nil_r.
Qed.

(** The characters of the result are characters of the text or of the
    replacement. *)
Lemma sub_loop_Forall U p (P : N -> Prop) (r : str) :
  Forall P r ->
  forall fuel count n ma pre suf, Forall P suf ->
    Forall P (sub_loop U fuel p (expand [TLit r]) count n ma pre suf).
Proof.
  intros Hr. induction fuel as [|fuel IH]; intros count n ma pre suf Hs; cbn [sub_loop];
    [exact Hs|].
  destruct (negb (count =? 0)%nat && negb (n <? count)%nat); [exact Hs|].
  destruct (scan U p ma pre suf) as [mt|] eqn:E; [|exact Hs].
  apply scan_start in E as (sk & Hsk & Hst & Ht).
  apply try_at_reaches in Ht as (mid & Hmid & _). cbn [m_suf] in Hmid.
  rewrite (skipped_prefix suf mt sk Hsk), expand_lit.
  rewrite Hsk, Hmid in Hs. apply Forall_app in Hs as [Hs1 Hs2].
  apply Forall_app in Hs2 as [_ Hs2].
  apply Forall_app. split; [exact Hs1|]. apply Forall_app. split; [exact Hr|].
  now apply IH.
Qed.

(** Where the pattern matches nowhere, re.sub returns the text. *)
Lemma sub_loop_no_match U p repl suf : forall fuel n ma pre,
  (forall ma' pre' sk suf', suf = sk ++ suf' -> try_at U p ma' pre' suf' = None) ->
  sub_loop U fuel p repl 0 n ma pre suf = suf.
Proof.
  intros fuel n ma pre H. destruct fuel as [|fuel]; [reflexivity|]. cbn [sub_loop].
  cbn [Nat.eqb negb andb].
  destruct (scan U p ma pre suf) as [mt|] eqn:E; [|reflexivity].
  apply scan_start in E as (sk & Hsk & _ & Ht).
  rewrite (H _ _ sk _ Hsk) in Ht. discriminate.
Qed.

(** *** One character test *)

Section SubAtom.
Variable U : runtime.
Variables (ic : bool) (r : re) (test : N -> bool).
Hypothesis Hatom : atom_test U ic r = Some test.

Lemma try_at_atom ma pre suf :
  try_at U (Pattern ic r) ma pre suf
  = match suf with
    | c :: rest => if test c then Some (MState (c :: pre) rest []) else None
    | [] => None
    end.
Proof.
  unfold try_at. cbn [p_ic p_re]. rewrite (m_atom U ic r test Hatom). unfold one.
  cbn [m_suf]. destruct suf as [|c rest]; [reflexivity|].
  destruct (test c); [|reflexivity]. unfold accept, step. cbn [m_suf m_pre m_caps length].
  assert ((length rest =? S (length rest))%nat = false) as -> by (apply Nat.eqb_neq; lia).
  now rewrite andb_false_r.
Qed.

Lemma sub_loop_atom (v : str) suf : forall fuel n ma pre,
  (length suf < fuel)%nat ->
  sub_loop U fuel (Pattern ic r) (expand [TLit v]) 0 n ma pre suf
  = flat_map (fun c => if test c then v else [c]) suf.
Proof.
  induction suf as [|c rest IH]; intros fuel n ma pre Hfuel;
    (destruct fuel as [|fuel]; [cbn in Hfuel; lia|]).
  - apply sub_loop_end. now rewrite try_at_atom.
  - cbn [flat_map]. destruct (test c) eqn:Hc.
    + rewrite (sub_loop_hit U _ _ _ _ _ _ _ (MState (c :: pre) rest []))
        by (now rewrite try_at_atom, Hc).
      rewrite expand_lit. f_equal. apply IH. cbn in Hfuel. lia.
    + rewrite sub_loop_miss by (now rewrite try_at_atom, Hc).
      cbn [app]. f_equal. apply IH. cbn in Hfuel. lia.
Qed.

Lemma sub_atom (v : str) (s : str) :
  sub U (Pattern ic r) [TLit v] s = flat_map (fun c => if test c then v else [c]) s.
Proof. unfold sub, sub_count, sub_with. apply sub_loop_atom. lia. Qed.
End SubAtom.

(** *** A greedy repeat of one character test *)

Lemma squeeze_run test run rest :
  Forall (fun c => test c = true) run -> stops test rest ->
  squeeze test true (run ++ rest) = squeeze test false rest.
Proof.
  induction 1 as [|c run Hc _ IH]; intros Hstop; cbn [app squeeze].
  - destruct rest as [|d rest]; [reflexivity|]. cbn in Hstop. cbn [squeeze]. now rewrite Hstop.
  - rewrite Hc. now apply IH.
Qed.

Lemma span_run (test : N -> bool) (s : str) :
  exists run rest, s = run ++ rest /\ Forall (fun c => test c = true) run /\ stops test rest.
Proof.
  destruct (lstrip_by_split test s) as (run & Hs & Hrun & Hstop).
  exists run, (lstrip_by test s). repeat split; [exact Hs|exact Hrun|].
  unfold stops. destruct (lstrip_by test s); assumption.
Qed.

Section SubRun.
Variable U : runtime.
Variables (ic : bool) (r : re) (test : N -> bool) (lo : nat).
Hypothesis Hatom : atom_test U ic r = Some test.

Lemma try_at_rep ma pre run rest :
  Forall (fun c => test c = true) run -> stops test rest ->
  try_at U (Pattern ic (Rep lo None true r)) ma pre (run ++ rest)
  = greedy_run lo (accept ma (MState pre (run ++ rest) [])) 0
      (MState pre (run ++ rest) []) run rest.
Proof.
  intros Hrun Hstop. unfold try_at. cbn [p_ic p_re m].
  rewrite (m_atom U ic r test Hatom).
  apply rep_loop_one; [reflexivity|assumption|assumption|].
  cbn [m_suf]. rewrite length_app. lia.
Qed.

Lemma try_at_run ma pre run rest :
  Forall (fun c => test c = true) run -> stops test rest ->
  (lo <= length run)%nat -> (0 < length run)%nat ->
  try_at U (Pattern ic (Rep lo None true r)) ma pre (run ++ rest)
  = Some (MState (rev run ++ pre) rest []).
Proof.
  intros Hrun Hstop Hlo Hpos. rewrite try_at_rep by assumption.
  apply greedy_run_longest; [reflexivity|lia|].
  unfold accept, after. cbn [m_suf m_pre m_caps]. rewrite length_app.
  assert ((length rest =? length run + length rest)%nat = false) as ->
    by (apply Nat.eqb_neq; lia).
  now rewrite andb_false_r.
Qed.

Lemma try_at_run_short ma pre run rest :
  Forall (fun c => test c = true) run -> stops test rest ->
  (length run < lo)%nat ->
  try_at U (Pattern ic (Rep lo None true r)) ma pre (run ++ rest) = None.
Proof.
  intros Hrun Hstop Hlo. rewrite try_at_rep by assumption.
  apply greedy_run_short. lia.
Qed.
End SubRun.

Section SubPlus.
Variable U : runtime.
Variables (ic : bool) (r : re) (test : N -> bool).
Hypothesis Hatom : atom_test U ic r = Some test.

Lemma sub_loop_plus : forall bound suf fuel n ma pre,
  (length suf <= bound)%nat -> (length suf < fuel)%nat ->
  sub_loop U fuel (Pattern ic (Rep 1 None true r)) (expand [TLit [32]]) 0 n ma pre suf
  = squeeze test false suf.
Proof.
  induction bound as [|bound IH]; intros suf fuel n ma pre Hb Hfuel;
    (destruct fuel as [|fuel]; [lia|]).
  - destruct suf; [|cbn in Hb; lia]. apply sub_loop_end.
    apply (try_at_run_short U ic r test 1 Hatom ma pre [] []); [constructor|exact I|cbn; lia].
  - destruct suf as [|c rest].
    { apply sub_loop_end.
      apply (try_at_run_short U ic r test 1 Hatom ma pre [] []); [constructor|exact I|cbn; lia]. }
    cbn [length] in Hb, Hfuel. cbn [squeeze]. destruct (test c) eqn:Hc.
    + destruct (span_run test rest) as (run & rest' & -> & Hrun & Hstop).
      rewrite (sub_loop_hit U _ _ _ _ _ _ _ (MState (rev (c :: run) ++ pre) rest' [])).
      2:{ apply (try_at_run U ic r test 1 Hatom ma pre (c :: run) rest');
            [now constructor|assumption|cbn; lia|cbn; lia]. }
      rewrite expand_lit. cbn [app m_pre m_suf]. f_equal.
      rewrite (squeeze_run test run rest' Hrun Hstop).
      rewrite length_app in Hb, Hfuel. apply IH; lia.
    + rewrite sub_loop_miss.
      2:{ apply (try_at_run_short U ic r test 1 Hatom ma pre [] (c :: rest));
            [constructor|exact Hc|cbn; lia]. }
      f_equal. apply IH; lia.
Qed.

Lemma sub_plus (s : str) :
  sub U (Pattern ic (Rep 1 None true r)) [TLit [32]] s = squeeze test false s.
Proof. unfold sub, sub_count, sub_with. apply (sub_loop_plus (length s)); lia. Qed.
End SubPlus.

(** ** Tidy white space *)

Lemma stops_head test (s : str) :
  stops test s <-> match s with [] => true | d :: _ => negb (test d) end = true.
Proof. destruct s as [|d s]; cbn; [tauto|]. destruct (test d); cbn; split; congruence. Qed.

Lemma squeeze_tidy test (s : str) :
  tidy test (squeeze test false s) = true
  /\ tidy test (squeeze test true s) = true
  /\ stops test (squeeze test true s).
Proof.
  induction s as [|c s (IH1 & IH2 & IH3)]; cbn [squeeze]; [now repeat split|].
  destruct (test c) eqn:Hc.
  - repeat split; [|assumption|assumption]. cbn [tidy]. rewrite IH2, andb_true_r.
    destruct (test 32); [|reflexivity]. apply stops_head in IH3. now rewrite IH3.
  - cbn [tidy stops]. rewrite Hc, IH1. now repeat split.
Qed.

Lemma tidy_squeeze test (s : str) :
  tidy test s = true ->
  squeeze test false s = s /\ (stops test s -> squeeze test true s = s).
Proof.
  induction s as [|c s IH]; [now split|]. cbn [tidy squeeze].
  intros H. apply andb_true_iff in H as [Hc Hs]. destruct (IH Hs) as [IH1 IH2].
  destruct (test c) eqn:Ec.
  - apply andb_true_iff in Hc as [Hc Hnext]. apply N.eqb_eq in Hc as ->.
    apply stops_head in Hnext. split.
    + now rewrite (IH2 Hnext).
    + cbn [stops]. congruence.
  - rewrite IH1. now split.
Qed.

Lemma tidy_tail test c (s : str) : tidy test (c :: s) = true -> tidy test s = true.
Proof. cbn [tidy]. intros H. now apply andb_true_iff in H as [_ H]. Qed.

Lemma tidy_app_l test (s t : str) : tidy test (s ++ t) = true -> tidy test s = true.
Proof.
  induction s as [|c s IH]; [reflexivity|]. cbn [app tidy].
  intros H. apply andb_true_iff in H as [Hc Hs]. rewrite (IH Hs), andb_true_r.
  destruct (test c); [|reflexivity]. apply andb_true_iff in Hc as [-> Hn].
  destruct s; [reflexivity|exact Hn].
Qed.

Lemma tidy_app_r test (s t : str) : tidy test (s ++ t) = true -> tidy test t = true.
Proof. induction s as [|c s IH]; [easy|]. cbn [app]. intros H. eauto using tidy_tail. Qed.

(** ** str.strip *)

Lemma lstrip_by_suffix (drop : N -> bool) (s : str) : exists run, s = run ++ lstrip_by drop s.
Proof. destruct (lstrip_by_split drop s) as (run & H & _). now exists run. Qed.

Lemma rstrip_by_prefix (drop : N -> bool) (s : str) : exists run, s = rstrip_by drop s ++ run.
Proof.
  unfold rstrip_by. destruct (lstrip_by_suffix drop (rev s)) as (run & H).
  exists (rev run). rewrite <- rev_app_distr, <- H. now rewrite rev_involutive.
Qed.

Lemma lstrip_by_stops (drop : N -> bool) (s : str) : stops drop s -> lstrip_by drop s = s.
Proof. destruct s as [|c s]; [reflexivity|]. cbn. now intros ->. Qed.

Lemma lstrip_by_stopped (drop : N -> bool) (s : str) : stops drop (lstrip_by drop s).
Proof.
  destruct (lstrip_by_split drop s) as (_ & _ & _ & H). unfold stops.
  destruct (lstrip_by drop s); assumption.
Qed.

Lemma lstrip_by_idem (drop : N -> bool) (s : str) :
  lstrip_by drop (lstrip_by drop s) = lstrip_by drop s.
Proof. apply lstrip_by_stops, lstrip_by_stopped. Qed.

Lemma lstrip_by_snoc (drop : N -> bool) (s : str) d :
  drop d = false -> lstrip_by drop (s ++ [d]) = lstrip_by drop s ++ [d].
Proof.
  intros Hd. induction s as [|c s IH]; cbn [app lstrip_by]; [now rewrite Hd|].
  now destruct (drop c).
Qed.

Lemma rstrip_by_cons (drop : N -> bool) d (s : str) :
  drop d = false -> rstrip_by drop (d :: s) = d :: rstrip_by drop s.
Proof.
  intros Hd. unfold rstrip_by. cbn [rev]. rewrite (lstrip_by_snoc drop _ d Hd).
  now rewrite rev_app_distr.
Qed.

Lemma rstrip_by_idem (drop : N -> bool) (s : str) :
  rstrip_by drop (rstrip_by drop s) = rstrip_by drop s.
Proof. unfold rstrip_by. now rewrite rev_involutive, lstrip_by_idem. Qed.

Lemma strip_idem U (s : str) : strip U (strip U s) = strip U s.
Proof.
  unfold strip.
  assert (lstrip_by (isspace U) (rstrip_by (isspace U) (lstrip_by (isspace U) s))
          = rstrip_by (isspace U) (lstrip_by (isspace U) s)) as ->;
    [|apply rstrip_by_idem].
  pose proof (lstrip_by_stopped (isspace U) s) as H.
  destruct (lstrip_by (isspace U) s) as [|d t]; [reflexivity|]. cbn in H.
  rewrite (rstrip_by_cons _ d t H). cbn [lstrip_by]. now rewrite H.
Qed.

Lemma strip_sub U (s : str) : exists a b, s = a ++ strip U s ++ b.
Proof.
  unfold strip. destruct (lstrip_by_suffix (isspace U) s) as (a & Ha).
  destruct (rstrip_by_prefix (isspace U) (lstrip_by (isspace U) s)) as (b & Hb).
  exists a, b. now rewrite <- Hb.
Qed.

Lemma strip_Forall U (P : N -> Prop) (s : str) : Forall P s -> Forall P (strip U s).
Proof.
  destruct (strip_sub U s) as (a & b & H). intros Hs. rewrite H in Hs.
  apply Forall_app in Hs as [_ Hs]. now apply Forall_app in Hs as [Hs _].
Qed.

Lemma strip_tidy U test (s : str) : tidy test s = true -> tidy test (strip U s) = true.
Proof.
  destruct (strip_sub U s) as (a & b & H). intros Hs. rewrite H in Hs.
  apply tidy_app_r in Hs. now apply tidy_app_l in Hs.
Qed.

Lemma squeeze_Forall test (P : N -> Prop) (s : str) :
  P 32 -> Forall P s -> forall b, Forall P (squeeze test b s).
Proof.
  intros H32. induction 1 as [|c s Hc _ IH]; intros b; cbn [squeeze]; [constructor|].
  destruct (test c); [destruct b|]; repeat constructor; auto.
Qed.

(** ** Runs of a greedy repeat, continued *)

Lemma greedy_run_some lo k : forall run st rest n e,
  m_suf st = run ++ rest ->
  greedy_run lo k n st run rest = Some e ->
  exists run1 run2, run = run1 ++ run2 /\ k (after st run1 (run2 ++ rest)) = Some e.
Proof.
  induction run as [|c run IH]; intros st rest n e Hsuf; cbn [greedy_run].
  - destruct (n <? lo)%nat; [discriminate|]. intros H. exists [], [].
    split; [reflexivity|]. destruct st as [p s cs]. cbn in Hsuf. subst s. exact H.
  - assert (forall e, greedy_run lo k (S n) (step st c (run ++ rest)) run rest = Some e ->
              exists run1 run2, c :: run = run1 ++ run2
                /\ k (after st run1 (run2 ++ rest)) = Some e) as Hmore.
    { intros e' H. apply IH in H as (run1 & run2 & -> & H); [|reflexivity].
      exists (c :: run1), run2. split; [reflexivity|].
      unfold after, step in *. cbn [m_pre m_caps rev] in *. now rewrite <- app_assoc. }
    destruct (n <? lo)%nat; [apply Hmore|].
    destruct (greedy_run lo k (S n) (step st c (run ++ rest)) run rest) as [e'|] eqn:E.
    + intros [= <-]. now apply Hmore.
    + intros H. exists [], (c :: run). split; [reflexivity|].
      destruct st as [p s cs]. cbn in Hsuf. subst s. exact H.
Qed.

Lemma greedy_run_none lo k : forall run st rest n,
  m_suf st = run ++ rest ->
  (forall run1 run2, run = run1 ++ run2 -> k (after st run1 (run2 ++ rest)) = None) ->
  greedy_run lo k n st run rest = None.
Proof.
  intros run st rest n Hsuf Hk.
  destruct (greedy_run lo k n st run rest) as [e|] eqn:E; [|reflexivity].
  apply greedy_run_some in E as (run1 & run2 & H1 & H2); [|exact Hsuf].
  now rewrite (Hk run1 run2 H1) in H2.
Qed.

(** ** The scrubber *)

Lemma flat_map_same {A} (f : A -> list A) (l : list A) :
  Forall (fun x => f x = [x]) l -> flat_map f l = l.
Proof. induction 1 as [|x l Hx _ IH]; cbn [flat_map]; [reflexivity|]. now rewrite Hx, IH. Qed.

Lemma flat_map_Forall {A} (P : A -> Prop) (f : A -> list A) (l : list A) :
  Forall (fun x => Forall P (f x)) l -> Forall P (flat_map f l).
Proof.
  induction 1 as [|x l Hx _ IH]; cbn [flat_map]; [constructor|].
  apply Forall_app. now split.
Qed.

Lemma sub_control U (s : str) :
  sub U _RE_CONTROL [TLit [32]] s
  = flat_map (fun c => if is_control c then [32] else [c]) s.
Proof.
  unfold _RE_CONTROL. erewrite sub_atom by reflexivity.
  apply flat_map_ext. intros c. unfold cls_test, is_control. cbn.
  now rewrite orb_false_r.
Qed.

Lemma translate_char (c : N) :
  (c =? 38) = false -> is_control c = false ->
  Forall (fun d => settled d = true)
    (match List.find (fun kv => fst kv =? c) _RE_BAD_TOKS with
     | Some kv => snd kv
     | None => [c]
     end).
Proof.
  intros Hp Hc.
  destruct (List.find (fun kv => fst kv =? c) _RE_BAD_TOKS) as [kv|] eqn:E.
  - apply find_some in E as [Hin _].
    unfold _RE_BAD_TOKS in Hin. cbn [In] in Hin.
    repeat (destruct Hin as [<-|Hin]; [vm_compute; repeat constructor|]).
    destruct Hin.
  - repeat constructor. unfold settled. rewrite Hp, Hc. cbn [andb negb].
    unfold is_bad_tok. destruct (existsb _ _) eqn:Ex; [|reflexivity].
    apply existsb_exists in Ex as (kv & Hin & Hk).
    now rewrite (find_none _ _ E kv Hin) in Hk.
Qed.

Lemma translate_fixed (s : str) :
  Forall (fun c => settled c = true) s -> translate _RE_BAD_TOKS s = s.
Proof.
  intros H. unfold translate. apply flat_map_same.
  eapply Forall_impl; [exact H|]. cbn beta. intros c Hc.
  destruct (List.find _ _) as [kv|] eqn:E; [|reflexivity].
  apply find_some in E as [Hin Hk]. unfold settled in Hc.
  assert (is_bad_tok c = true) as Hb.
  { unfold is_bad_tok. apply existsb_exists. now exists kv. }
  rewrite Hb in Hc. now rewrite andb_false_r in Hc.
Qed.

Lemma settled_no_amp (s : str) :
  Forall (fun c => settled c = true) s -> existsb (N.eqb 38) s = false.
Proof.
  induction 1 as [|c s Hc _ IH]; cbn [existsb]; [reflexivity|]. rewrite IH, orb_false_r.
  unfold settled in Hc. destruct (N.eqb_spec 38 c) as [<-|]; [discriminate|reflexivity].
Qed.

Lemma no_amp_Forall (s : str) :
  existsb (N.eqb 38) s = false -> Forall (fun c => (c =? 38) = false) s.
Proof.
  induction s as [|c s IH]; cbn [existsb]; [constructor|].
  intros H. apply orb_false_iff in H as [Hc Hs]. constructor; [|now apply IH].
  now rewrite N.eqb_sym.
Qed.

Lemma lit_separators : lit ",;/|-" = [44; 59; 47; 124; 45].
Proof. reflexivity. Qed.

Lemma seps_test U (c : N) : cls_test U false false (chars ",;/|-") c = is_separator c.
Proof.
  unfold is_separator, cls_test, chars. rewrite lit_separators. reflexivity.
Qed.

Lemma separator_not_space U (c : N) : is_separator c = true -> isspace U c = false.
Proof.
  unfold is_separator. rewrite lit_separators. cbn [existsb]. intros H.
  repeat (apply orb_true_iff in H as [H|H]); try discriminate;
    apply N.eqb_eq in H; subst c; reflexivity.
Qed.

(** *** Separator pairs *)

Section SepPairs.
Variable U : runtime.

Lemma spf_ws_run (run t : str) prev :
  Forall (fun c => isspace U c = true) run ->
  sep_pair_free U prev (run ++ t) = sep_pair_free U prev t.
Proof. induction 1 as [|c run Hc _ IH]; cbn [app sep_pair_free]; [reflexivity|]. now rewrite Hc. Qed.

Lemma spf_app_ext (a t t' : str) :
  (forall prev, sep_pair_free U prev t = sep_pair_free U prev t') ->
  forall prev, sep_pair_free U prev (a ++ t) = sep_pair_free U prev (a ++ t').
Proof.
  intros H. induction a as [|c a IH]; intros prev; cbn [app sep_pair_free]; [apply H|].
  now rewrite !IH.
Qed.

Lemma spf_app_tail (a t : str) : forall prev,
  sep_pair_free U prev (a ++ t) = true -> exists prev', sep_pair_free U prev' t = true.
Proof.
  induction a as [|c a IH]; intros prev; cbn [app sep_pair_free]; [eauto|].
  destruct (isspace U c); [apply IH|].
  destruct (is_separator c); [|apply IH].
  intros H. apply andb_true_iff in H as [_ H]. eapply IH, H.
Qed.

Lemma spf_squeeze (x : str) : forall b prev,
  sep_pair_free U prev (squeeze (isspace U) b x) = sep_pair_free U prev x.
Proof.
  induction x as [|c x IH]; intros b prev; cbn [squeeze sep_pair_free]; [reflexivity|].
  destruct (isspace U c) eqn:Hc.
  - destruct b; [apply IH|]. cbn [sep_pair_free].
    change (isspace U 32) with true. cbn iota. apply IH.
  - cbn [sep_pair_free]. rewrite Hc. now rewrite !IH.
Qed.

Lemma rstrip_by_split (drop : N -> bool) (s : str) :
  exists run, s = rstrip_by drop s ++ run /\ Forall (fun c => drop c = true) run.
Proof.
  unfold rstrip_by. destruct (lstrip_by_split drop (rev s)) as (run & H & Hrun & _).
  exists (rev run). split.
  - rewrite <- rev_app_distr, <- H. now rewrite rev_involutive.
  - now apply List.Forall_rev.
Qed.

Lemma spf_strip (x : str) prev :
  sep_pair_free U prev (strip U x) = sep_pair_free U prev x.
Proof.
  unfold strip.
  destruct (lstrip_by_split (isspace U) x) as (run & Hx & Hrun & _).
  destruct (rstrip_by_split (isspace U) (lstrip_by (isspace U) x)) as (run' & Hy & Hrun').
  rewrite Hx at 2. rewrite (spf_ws_run _ _ _ Hrun). rewrite Hy at 2.
  rewrite <- (app_nil_r (rstrip_by _ _)) at 1. apply spf_app_ext.
  intros prev'. rewrite <- (app_nil_r run'). now rewrite (spf_ws_run _ _ _ Hrun').
Qed.

(** After a separator, with no pair to come, the pattern of runs of
    separators finds nothing. *)
Lemma trail_seps_miss ma pre (suf : str) prev :
  sep_pair_free U prev suf = true ->
  match suf with c :: _ => is_separator c = true -> prev = false | [] => True end ->
  try_at U _RE_TRAIL_SEPS ma pre suf = None.
Proof.
  intros Hfree Hprev. unfold try_at, _RE_TRAIL_SEPS, seps. cbn [p_ic p_re seq m].
  unfold one at 1. cbn [m_suf]. destruct suf as [|c rest]; [reflexivity|].
  rewrite seps_test. destruct (is_separator c) eqn:Hc; [|reflexivity].
  cbn [sep_pair_free] in Hfree. rewrite (separator_not_space U c Hc), Hc in Hfree.
  apply andb_true_iff in Hfree as [_ Hfree].
  destruct (span_run (isspace U) rest) as (run & rest' & -> & Hrun & Hstop).
  unfold star, plus, ws. cbn [step m_pre m_suf m_caps m].
  change (m U false (Esc CatSpace)) with (one (cat_test U CatSpace)).
  erewrite rep_loop_one; [|reflexivity|exact Hrun|exact Hstop|cbn; rewrite length_app; lia].
  apply greedy_run_none; [reflexivity|].
  intros run1 run2 -> . cbn [rep_loop Nat.ltb Nat.leb plus Nat.add]. unfold one.
  unfold after. cbn [m_suf step m_pre m_caps].
  rewrite <- app_assoc in Hfree. rewrite spf_ws_run in Hfree
    by (now apply Forall_app in Hrun as [Hrun _]).
  destruct run2 as [|d run2]; cbn [app].
  - rewrite spf_ws_run in Hfree by constructor.
    destruct rest' as [|d rest']; [reflexivity|]. cbn in Hstop.
    rewrite seps_test. destruct (is_separator d) eqn:Hd; [|reflexivity].
    cbn [app sep_pair_free] in Hfree. rewrite Hstop, Hd in Hfree. discriminate Hfree.
  - apply Forall_app in Hrun as [_ Hrun]. inversion Hrun as [|? ? Hd _]; subst.
    rewrite seps_test. destruct (is_separator d) eqn:Ed; [|reflexivity].
    rewrite (separator_not_space U d Ed) in Hd. discriminate Hd.
Qed.

Lemma sub_trail_seps_fixed tpl (s : str) :
  sep_pair_free U false s = true -> sub U _RE_TRAIL_SEPS tpl s = s.
Proof.
  intros H. unfold sub, sub_count, sub_with. apply sub_loop_no_match.
  intros ma pre sk suf ->. destruct suf as [|c rest].
  - now apply (trail_seps_miss ma pre [] false).
  - destruct (is_separator c) eqn:Hc.
    + apply spf_app_tail in H as [prev H]. pose proof H as H'.
      cbn [sep_pair_free] in H'. rewrite (separator_not_space U c Hc), Hc in H'.
      apply andb_true_iff in H' as [Hp _]. apply negb_true_iff in Hp. subst prev.
      now apply (trail_seps_miss ma pre (c :: rest) false).
    + apply spf_app_tail in H as [prev H].
      apply (trail_seps_miss ma pre (c :: rest) prev H). intros Hc'. congruence.
Qed.
End SepPairs.

Section SubRunPairs.
Variable U : runtime.
Variables (ic : bool) (r : re) (test : N -> bool) (lo : nat).
Hypothesis Hatom : atom_test U ic r = Some test.
Hypothesis Hspace : forall c, test c = true -> isspace U c = true.

(** Replacing runs of white space by a space makes no separator pair and
    removes none. *)
Lemma spf_sub_run : forall fuel n ma pre suf prev,
  sep_pair_free U prev
    (sub_loop U fuel (Pattern ic (Rep lo None true r)) (expand [TLit [32]]) 0 n ma pre suf)
  = sep_pair_free U prev suf.
Proof.
  induction fuel as [|fuel IH]; intros n ma pre suf prev; cbn [sub_loop]; [reflexivity|].
  cbn [Nat.eqb negb andb].
  destruct (scan U _ ma pre suf) as [mt|] eqn:E; [|reflexivity].
  apply scan_start in E as (sk & Hsk & Hst & Ht).
  rewrite (skipped_prefix suf mt sk Hsk), expand_lit.
  destruct (span_run test (m_suf (mt_start mt))) as (run & rest & Hsuf & Hrun & Hstop).
  rewrite Hsuf in Ht. rewrite (try_at_rep U ic r test lo Hatom) in Ht by assumption.
  apply greedy_run_some in Ht as (run1 & run2 & -> & Hk); [|reflexivity].
  unfold accept in Hk. destruct (_ && _); [discriminate|]. injection Hk as Hk.
  rewrite <- Hk. unfold after. cbn [m_pre m_suf].
  rewrite Hsk, Hsuf. apply spf_app_ext. intros prev'.
  cbn [app sep_pair_free]. change (isspace U 32) with true. cbn iota.
  rewrite IH, <- app_assoc. symmetry. apply spf_ws_run.
  apply Forall_app in Hrun as [Hrun _].
  eapply Forall_impl; [exact Hrun|]. exact Hspace.
Qed.
End SubRunPairs.

(** ** The scrubber is idempotent where it has no separator pair to
    collapse and no entity to decode *)

Section Scrub.
Variable U : runtime.
Hypothesis Hnbsp : isspace U c_nbsp = true.

(** The characters of the set of _RE_MULTI_SPACE are white space. *)
Lemma multi_space_is_space (c : N) :
  cls_test U false false [CChar 32; CChar 9; CChar c_nbsp] c = true -> isspace U c = true.
Proof.
  unfold cls_test. cbn [andb hascased existsb item_test xorb].
  intros H. repeat (apply orb_true_iff in H as [H|H]); try discriminate;
    apply N.eqb_eq in H; subst c; [reflexivity|reflexivity|exact Hnbsp].
Qed.

Lemma multi_space_miss ma pre (suf : str) :
  tidy (isspace U) suf = true -> try_at U _RE_MULTI_SPACE ma pre suf = None.
Proof.
  intros Ht. unfold _RE_MULTI_SPACE.
  destruct (span_run (cls_test U false false [CChar 32; CChar 9; CChar c_nbsp]) suf)
    as (run & rest & -> & Hrun & Hstop).
  eapply try_at_run_short; [reflexivity|exact Hrun|exact Hstop|].
  destruct run as [|c [|d run]]; [cbn; lia|cbn; lia|exfalso].
  inversion Hrun as [|? ? Hc Hrun']; subst. inversion Hrun' as [|? ? Hd _]; subst.
  apply multi_space_is_space in Hc, Hd.
  cbn [app tidy] in Ht. rewrite Hc, Hd in Ht. cbn in Ht.
  now rewrite andb_false_r in Ht.
Qed.

Lemma sub_multi_space_fixed (s : str) :
  tidy (isspace U) s = true -> sub U _RE_MULTI_SPACE [TLit [32]] s = s.
Proof.
  intros H. unfold sub, sub_count, sub_with. apply sub_loop_no_match.
  intros ma pre sk suf ->. apply multi_space_miss. now apply tidy_app_r in H.
Qed.

Lemma spf_sub_multi_space (s : str) prev :
  sep_pair_free U prev (sub U _RE_MULTI_SPACE [TLit [32]] s) = sep_pair_free U prev s.
Proof.
  unfold sub, sub_count, sub_with, _RE_MULTI_SPACE.
  eapply spf_sub_run; [reflexivity|]. exact multi_space_is_space.
Qed.

Lemma sub_ws (s : str) : sub U _RE_WS [TLit [32]] s = squeeze (isspace U) false s.
Proof. unfold _RE_WS, plus, ws. now apply sub_plus. Qed.

Lemma canonical_settled (s : str) :
  existsb (N.eqb 38) s = false -> Forall (fun c => settled c = true) (canonical U s).
Proof.
  intros H. unfold canonical, translate. change (lit " ") with [32]. rewrite sub_control.
  apply flat_map_Forall, flat_map_Forall.
  eapply Forall_impl; [exact (no_amp_Forall s H)|]. cbn beta. intros c Hc.
  destruct (is_control c) eqn:E; (constructor; [|constructor]).
  - vm_compute. repeat constructor.
  - now apply translate_char.
Qed.

Lemma sub_control_fixed (s : str) :
  Forall (fun c => settled c = true) s -> sub U _RE_CONTROL [TLit [32]] s = s.
Proof.
  intros H. rewrite sub_control. apply flat_map_same.
  eapply Forall_impl; [exact H|]. cbn beta. intros c Hc. unfold settled in Hc.
  destruct (is_control c); [|reflexivity]. now rewrite andb_false_r in Hc.
Qed.

Lemma unescape_fixed (s : str) :
  Forall (fun c => settled c = true) s -> unescape U s = Some s.
Proof. intros H. unfold unescape. now rewrite (settled_no_amp s H). Qed.

Lemma no_control_fixed (s : str) :
  Forall (fun c => is_control c = false) s -> sub U _RE_CONTROL [TLit [32]] s = s.
Proof.
  intros H. rewrite sub_control. apply flat_map_same.
  eapply Forall_impl; [exact H|]. cbn beta. now intros c ->.
Qed.

Lemma no_bad_tok_fixed (s : str) :
  Forall (fun c => is_bad_tok c = false) s -> translate _RE_BAD_TOKS s = s.
Proof.
  intros H. unfold translate. apply flat_map_same.
  eapply Forall_impl; [exact H|]. cbn beta. intros c Hc.
  destruct (List.find _ _) as [kv|] eqn:E; [|reflexivity].
  apply find_some in E as [Hin Hk]. unfold is_bad_tok in Hc.
  assert (existsb (fun kv => fst kv =? c) _RE_BAD_TOKS = true) as Hx
    by (apply existsb_exists; now exists kv).
  rewrite Hx in Hc. discriminate.
Qed.

(** The scrubbed text: tidy white space, trimmed. *)
Lemma scrub_shape (s x : str) :
  _strip_controls U s = Some x -> tidy (isspace U) x = true /\ strip U x = x.
Proof.
  unfold _strip_controls. destruct (unescape U _) as [z|]; [|discriminate].
  intros [= <-]. change (lit " ") with [32]. rewrite sub_ws.
  split; [apply strip_tidy, (proj1 (squeeze_tidy _ _))|apply strip_idem].
Qed.

(** A pass over a text without ampersand and without separator pair
    leaves settled characters, tidy white space, trimmed, and still no
    separator pair. *)
Lemma scrub_settles (s : str) :
  existsb (N.eqb 38) s = false ->
  sep_pair_free U false (canonical U s) = true ->
  exists x, _strip_controls U s = Some x
    /\ Forall (fun c => settled c = true) x /\ tidy (isspace U) x = true
    /\ strip U x = x /\ sep_pair_free U false x = true.
Proof.
  intros Hamp Hfree. unfold _strip_controls.
  fold (canonical U s). pose proof (canonical_settled s Hamp) as H2.
  rewrite (unescape_fixed _ H2), (sub_trail_seps_fixed U _ _ Hfree).
  change (lit " ") with [32]. rewrite sub_ws. eexists. split; [reflexivity|].
  split; [|split; [|split]].
  - apply strip_Forall, squeeze_Forall; [reflexivity|].
    apply sub_loop_Forall; [repeat constructor|exact H2].
  - apply strip_tidy, (proj1 (squeeze_tidy _ _)).
  - apply strip_idem.
  - now rewrite spf_strip, spf_squeeze, spf_sub_multi_space.
Qed.

(** A text in the shape the scrubber gives, with nothing left for its
    first four steps, is left as it is by a pass. *)
Lemma scrub_fixed (x : str) :
  Forall (fun c => is_control c = false) x ->
  Forall (fun c => is_bad_tok c = false) x ->
  unescape U x = Some x ->
  sep_pair_free U false x = true ->
  tidy (isspace U) x = true -> strip U x = x ->
  _strip_controls U x = Some x.
Proof.
  intros Hc Hb Hu Hfree Ht Hx. unfold _strip_controls. change (lit " ") with [32].
  rewrite (no_control_fixed x Hc), (no_bad_tok_fixed x Hb), Hu,
    (sub_trail_seps_fixed U _ x Hfree).
  rewrite (sub_multi_space_fixed x Ht), sub_ws.
  now rewrite (proj1 (tidy_squeeze _ x Ht)), Hx.
Qed.
End Scrub.

(** ** What the matcher keeps of the characters of a text *)

Section Keeps.
Variable P : N -> Prop.

Lemma one_keeps test : keeps P (one test).
Proof.
  intros st k e (Hp & Hs & Hc). unfold one.
  destruct (m_suf st) as [|c rest] eqn:E; [discriminate|].
  destruct (test c); [|discriminate]. intros H. eexists. split; [|exact H].
  inversion Hs; subst. unfold step, all_chars. cbn [m_pre m_suf m_caps].
  repeat split; [now constructor|assumption|assumption].
Qed.

Lemma rep_loop_keeps body lo hi greedy k :
  keeps P body ->
  forall fuel n st e, all_chars P st ->
    rep_loop body lo hi greedy k fuel n st = Some e ->
    exists st', all_chars P st' /\ k st' = Some e.
Proof.
  intros Hb. induction fuel as [|fuel IH]; intros n st e Hst; cbn [rep_loop]; [discriminate|].
  set (again := body st _).
  assert (forall e, again = Some e -> exists st', all_chars P st' /\ k st' = Some e) as Hagain.
  { intros e' He. apply Hb in He as (st1 & H1 & Hk); [|exact Hst].
    destruct ((n <? lo)%nat || (length (m_suf st1) <? length (m_suf st))%nat); [|discriminate].
    now apply IH in Hk. }
  assert (forall e, k st = Some e -> exists st', all_chars P st' /\ k st' = Some e) as Hstop.
  { intros e' He. now exists st. }
  destruct (n <? lo)%nat; [apply Hagain|].
  destruct greedy.
  - destruct (match hi with Some h => (n <? h)%nat | None => true end).
    + destruct again as [e'|]; [intros [= <-]; now apply Hagain | apply Hstop].
    + apply Hstop.
  - destruct (k st) as [e'|] eqn:Ek; [intros [= <-]; now apply Hstop|].
    destruct (match hi with Some h => (n <? h)%nat | None => true end); [apply Hagain|discriminate].
Qed.

Lemma rewind_keeps : forall w pre suf pre' suf',
  rewind w pre suf = Some (pre', suf') -> Forall P pre -> Forall P suf ->
  Forall P pre' /\ Forall P suf'.
Proof.
  induction w as [|w IH]; intros pre suf pre' suf'; cbn [rewind].
  - intros [= <- <-]. now split.
  - destruct pre as [|c pre]; [discriminate|]. intros H Hp Hs.
    inversion Hp; subst. apply (IH _ _ _ _ H); [assumption|now constructor].
Qed.

Lemma cap_lookup_keeps n : forall caps g,
  Forall (fun g => Forall P (snd g)) caps -> cap_lookup n caps = Some g -> Forall P g.
Proof.
  induction caps as [|[i s] caps IH]; intros g Hc; cbn [cap_lookup]; [discriminate|].
  inversion Hc; subst. destruct (Nat.eqb i n); [now intros [= <-]|now apply IH].
Qed.

Lemma m_keeps U ic (r : re) : keeps P (m U ic r).
Proof.
  induction r as [| p | | neg items | c | r1 IH1 r2 IH2 | r1 IH1 r2 IH2
                 | lo hi greedy r IH | n r IH | n | | | back r IH];
    intros st k e Hst; cbn [m].
  - intros H. now exists st.
  - now apply one_keeps.
  - now apply one_keeps.
  - now apply one_keeps.
  - now apply one_keeps.
  - intros H. apply IH1 in H as (st1 & H1 & H); [|exact Hst]. now apply IH2 in H.
  - destruct (m U ic r1 st k) as [e'|] eqn:E1.
    + intros [= <-]. now apply IH1 in E1.
    + now apply IH2.
  - now apply rep_loop_keeps.
  - intros H. apply IH in H as (st1 & (Hp1 & Hs1 & Hc1) & H); [|exact Hst].
    eexists. split; [|exact H]. unfold all_chars. cbn [m_pre m_suf m_caps].
    repeat split; [assumption|assumption|]. constructor; [|assumption].
    cbn [snd]. unfold consumed. apply Forall_take. apply Hst.
  - destruct (cap_lookup n (m_caps st)) as [g|]; [|discriminate].
    destruct (strip_prefix U ic g (m_suf st) (m_pre st)) as [[pre suf]|] eqn:E; [|discriminate].
    intros H. eexists. split; [|exact H].
    apply strip_prefix_reaches in E as (mid & E1 & E2).
    destruct Hst as (Hp & Hs & Hc). rewrite E1 in Hs. apply Forall_app in Hs as [Hm Hs].
    unfold all_chars. cbn [m_pre m_suf m_caps]. repeat split; [|assumption|assumption].
    rewrite E2. apply Forall_app. split; [|assumption]. now apply Forall_rev.
  - destruct (at_word_boundary U st); [|discriminate]. intros H. now exists st.
  - assert (k st = Some e -> exists st', all_chars P st' /\ k st' = Some e) as Hk.
    { intros H. now exists st. }
    destruct (m_suf st) as [|c [|? ?]]; [exact Hk| |discriminate].
    destruct (c =? 10); [exact Hk|discriminate].
  - destruct (rewind back (m_pre st) (m_suf st)) as [[pre suf]|] eqn:Er; [|discriminate].
    destruct (m U ic r (MState pre suf (m_caps st)) Some) as [e'|] eqn:Em; [|discriminate].
    intros H. eexists. split; [|exact H].
    destruct Hst as (Hp & Hs & Hc).
    destruct (rewind_keeps _ _ _ _ _ Er Hp Hs) as [Hp' Hs'].
    apply IH in Em as (st1 & (_ & _ & Hc1) & [= <-]); [|now repeat split].
    now repeat split.
Qed.

(** The match found by a scan of a text with the property. *)
Lemma scan_keeps U p ma pre suf mt :
  Forall P pre -> Forall P suf -> scan U p ma pre suf = Some mt ->
  all_chars P (mt_end mt).
Proof.
  intros Hp Hs E. apply scan_start in E as (sk & Hsk & Hst & Ht).
  unfold try_at in Ht. rewrite Hsk in Hs. apply Forall_app in Hs as [Hs1 Hs2].
  apply m_keeps in Ht as (st' & Hst' & Hk).
  - unfold accept in Hk. destruct (_ && _); [discriminate|]. now injection Hk as <-.
  - repeat split; cbn [m_pre m_suf m_caps]; [|assumption|constructor].
    apply Forall_app. split; [now apply Forall_rev|assumption].
Qed.

Lemma skipped_keeps U p ma pre suf mt :
  Forall P suf -> scan U p ma pre suf = Some mt -> Forall P (skipped suf mt).
Proof. intros Hs _. unfold skipped. now apply Forall_take. Qed.

(** re.sub keeps a property of the characters that its replacements
    have. *)
Lemma sub_loop_keeps U p (repl : rmatch -> str) :
  (forall mt, all_chars P (mt_end mt) -> Forall P (repl mt)) ->
  forall fuel count n ma pre suf, Forall P pre -> Forall P suf ->
    Forall P (sub_loop U fuel p repl count n ma pre suf).
Proof.
  intros Hr. induction fuel as [|fuel IH]; intros count n ma pre suf Hp Hs; cbn [sub_loop];
    [exact Hs|].
  destruct (negb (count =? 0)%nat && negb (n <? count)%nat); [exact Hs|].
  destruct (scan U p ma pre suf) as [mt|] eqn:E; [|exact Hs].
  pose proof (scan_keeps _ _ _ _ _ _ Hp Hs E) as He.
  apply Forall_app. split; [now apply (skipped_keeps U p ma pre)|].
  apply Forall_app. split; [now apply Hr|]. apply IH; apply He.
Qed.

Lemma sub_loop_raising_keeps U p (repl : rmatch -> option str) :
  (forall mt r, all_chars P (mt_end mt) -> repl mt = Some r -> Forall P r) ->
  forall fuel count n ma pre suf out, Forall P pre -> Forall P suf ->
    sub_loop_raising U fuel p repl count n ma pre suf = Some out -> Forall P out.
Proof.
  intros Hr. induction fuel as [|fuel IH]; intros count n ma pre suf out Hp Hs;
    cbn [sub_loop_raising]; [now intros [= <-]|].
  destruct (negb (count =? 0)%nat && negb (n <? count)%nat); [now intros [= <-]|].
  destruct (scan U p ma pre suf) as [mt|] eqn:E; [|now intros [= <-]].
  pose proof (scan_keeps _ _ _ _ _ _ Hp Hs E) as He.
  destruct (repl mt) as [r|] eqn:Er; [|discriminate].
  destruct (sub_loop_raising U fuel p repl count (S n) (was_empty mt) _ _) as [rest|] eqn:E2;
    [|discriminate].
  intros [= <-].
  apply Forall_app. split; [now apply (skipped_keeps U p ma pre)|].
  apply Forall_app. split; [now apply (Hr mt)|].
  apply IH in E2; [exact E2|apply He|apply He].
Qed.

(** A template writes text of its own and captured groups. *)
Lemma expand_keeps tpl mt :
  Forall (fun it => match it with TLit s => Forall P s | TRef n => (0 < n)%nat end) tpl ->
  all_chars P (mt_end mt) -> Forall P (expand tpl mt).
Proof.
  intros Ht (_ & _ & Hc). unfold expand. induction Ht as [|it tpl Hit _ IH];
    cbn [flat_map]; [constructor|].
  apply Forall_app. split; [|exact IH].
  destruct it as [s|n]; [exact Hit|].
  unfold group. destruct n as [|n]; [lia|].
  destruct (cap_lookup (S n) (m_caps (mt_end mt))) as [g|] eqn:E; [|constructor].
  now apply (cap_lookup_keeps (S n) _ g Hc).
Qed.
End Keeps.

(** ** The scrubbed text holds no control character *)

Lemma assoc_In {A B : Type} (eqb : A -> A -> bool) (key : A) (l : list (A * B)) (v : B) :
  assoc eqb key l = Some v -> exists k, In (k, v) l.
Proof.
  induction l as [|[a b] l IH]; cbn [assoc]; [discriminate|].
  destruct (eqb a key).
  - intros [= <-]. exists a. now left.
  - intros H. destruct (IH H) as [k Hk]. exists k. now right.
Qed.

Lemma control_point (n : N) : is_control n = true -> In n control_points.
Proof.
  unfold is_control, between, control_points. intros H.
  apply orb_true_iff in H as [H|H].
  - right. apply andb_true_iff in H as [_ H]. apply N.leb_le in H.
    apply in_map_iff. exists (N.to_nat n). split; [apply N2Nat.id|].
    apply in_seq. lia.
  - left. apply N.eqb_eq in H. now subst.
Qed.

Lemma tidy_spaces test (s : str) :
  tidy test s = true -> Forall (fun c => test c = true -> c = 32) s.
Proof.
  induction s as [|c s IH]; [constructor|]. cbn [tidy]. intros H.
  apply andb_true_iff in H as [Hc Hs]. constructor; [|now apply IH].
  intros Ht. rewrite Ht in Hc. apply andb_true_iff in Hc as [Hc _].
  now apply N.eqb_eq in Hc.
Qed.

Section NoControl.
Variable U : runtime.
Hypothesis HU : plain_references U = true.

Lemma plain_html5 k v : In (k, v) (html5 U) -> Forall (fun c => blank_or_plain U c = true) v.
Proof.
  intros Hin. unfold plain_references in HU.
  apply andb_true_iff in HU as [H _]. apply andb_true_iff in H as [H _].
  rewrite forallb_forall in H. specialize (H _ Hin). cbn [snd] in H.
  apply List.Forall_forall. now rewrite forallb_forall in H.
Qed.

Lemma plain_invalid_charrefs k v :
  In (k, v) (invalid_charrefs U) -> Forall (fun c => blank_or_plain U c = true) v.
Proof.
  intros Hin. unfold plain_references in HU.
  apply andb_true_iff in HU as [H _]. apply andb_true_iff in H as [_ H].
  rewrite forallb_forall in H. specialize (H _ Hin). cbn [snd] in H.
  apply List.Forall_forall. now rewrite forallb_forall in H.
Qed.

Lemma plain_charref (num : N) : Forall (fun c => blank_or_plain U c = true) (charref_of U num).
Proof.
  unfold charref_of.
  destruct (assoc N.eqb num (invalid_charrefs U)) as [v|] eqn:Ea.
  - apply assoc_In in Ea as [k Hk]. now apply (plain_invalid_charrefs k).
  - destruct (between 55296 57343 num || (1114111 <? num)); [now repeat constructor|].
    destruct (existsb (N.eqb num) (invalid_codepoints U)) eqn:Ei; [constructor|].
    repeat constructor. unfold blank_or_plain.
    destruct (is_control num) eqn:Ec; [|reflexivity]. cbn [negb orb].
    apply control_point in Ec. unfold plain_references in HU.
    apply andb_true_iff in HU as [_ H]. rewrite forallb_forall in H.
    specialize (H _ Ec). cbv beta in H. rewrite Ei, Ea in H.
    now rewrite !orb_false_r in H.
Qed.

Lemma plain_longest_entity (s : str) :
  Forall (fun c => blank_or_plain U c = true) s ->
  forall x v, longest_entity U x s = Some v -> Forall (fun c => blank_or_plain U c = true) v.
Proof.
  intros Hs. induction x as [|x IH]; intros v; cbn [longest_entity]; [discriminate|].
  destruct x as [|x']; [discriminate|].
  destruct (assoc str_eqb (firstn (S (S x')) s) (html5 U)) as [w|] eqn:Ea.
  - intros [= <-]. apply assoc_In in Ea as [k Hk]. apply Forall_app. split.
    + now apply (plain_html5 k).
    + now apply Forall_drop.
  - apply IH.
Qed.

Lemma plain_replace_charref (mt : rmatch) (r : str) :
  all_chars (fun c => blank_or_plain U c = true) (mt_end mt) ->
  _replace_charref U mt = Some r -> Forall (fun c => blank_or_plain U c = true) r.
Proof.
  intros (_ & _ & Hc). unfold _replace_charref.
  assert (Forall (fun c => blank_or_plain U c = true) (default [] (group mt 1))) as Hg.
  { unfold group. destruct (cap_lookup 1 (m_caps (mt_end mt))) as [g|] eqn:E; [|constructor].
    exact (cap_lookup_keeps _ 1 _ g Hc E). }
  destruct (default [] (group mt 1)) as [|a s] eqn:Es.
  - cbn [assoc]. destruct (assoc str_eqb [] (html5 U)) as [v|] eqn:Ea.
    + intros [= <-]. apply assoc_In in Ea as [k Hk]. now apply (plain_html5 k).
    + cbn [length Nat.sub longest_entity]. intros [= <-]. now repeat constructor.
  - assert (forall r, match assoc str_eqb (a :: s) (html5 U) with
                      | Some v => Some v
                      | None =>
                          match longest_entity U (length (a :: s) - 1) (a :: s) with
                          | Some v => Some v
                          | None => Some (38 :: a :: s)
                          end
                      end = Some r -> Forall (fun c => blank_or_plain U c = true) r) as Hname.
    { intros r'. destruct (assoc str_eqb (a :: s) (html5 U)) as [v|] eqn:Ea.
      - intros [= <-]. apply assoc_In in Ea as [k Hk]. now apply (plain_html5 k).
      - destruct (longest_entity U (length (a :: s) - 1) (a :: s)) as [v|] eqn:El.
        + intros [= <-]. now apply (plain_longest_entity (a :: s) Hg _ _ El).
        + intros [= <-]. constructor; [reflexivity|exact Hg]. }
    destruct (N.eqb_spec a 35) as [->|Hne].
    + destruct s as [|c hex]; [discriminate|].
      destruct ((c =? 120) || (c =? 88)).
      * intros [= <-]. apply plain_charref.
      * destruct (int_dec U _) as [num|]; [|discriminate].
        intros [= <-]. apply plain_charref.
    + intros H. apply Hname. revert H.
      destruct a as [|a]; [exact (fun H => H)|].
      repeat (destruct a as [a|a|]; try exact (fun H => H)); try (now contradiction Hne).
Qed.

Lemma plain_unescape (s z : str) :
  Forall (fun c => blank_or_plain U c = true) s -> unescape U s = Some z ->
  Forall (fun c => blank_or_plain U c = true) z.
Proof.
  intros Hs. unfold unescape. destruct (existsb (N.eqb 38) s); [|now intros [= <-]].
  unfold sub_with_raising. apply sub_loop_raising_keeps; [|constructor|exact Hs].
  intros mt r. apply plain_replace_charref.
Qed.

Lemma plain_canonical (s : str) :
  Forall (fun c => blank_or_plain U c = true) (canonical U s).
Proof.
  unfold canonical, translate. change (lit " ") with [32]. rewrite sub_control.
  apply flat_map_Forall, flat_map_Forall.
  apply List.Forall_forall. intros c _.
  assert (forall d, is_control d = false ->
            Forall (fun c => blank_or_plain U c = true)
              (match List.find (fun kv => fst kv =? d) _RE_BAD_TOKS with
               | Some kv => snd kv
               | None => [d]
               end)) as Hd.
  { intros d Hc. destruct (List.find _ _) as [kv|] eqn:E.
    - apply find_some in E as [Hin _]. unfold _RE_BAD_TOKS in Hin. cbn [In] in Hin.
      repeat (destruct Hin as [<-|Hin]; [now repeat constructor|]). destruct Hin.
    - repeat constructor. unfold blank_or_plain. now rewrite Hc. }
  destruct (is_control c) eqn:Ec; (constructor; [|constructor]).
  - now apply Hd.
  - now apply Hd.
Qed.

(** The scrubbed text holds no control character: the pattern removes
    those of the text, and white space is all that a reference can bring
    back. *)
Lemma scrub_no_control (s x : str) :
  _strip_controls U s = Some x -> Forall (fun c => is_control c = false) x.
Proof.
  intros Hs. destruct (scrub_shape U s x Hs) as [Ht _].
  assert (Forall (fun c => blank_or_plain U c = true) x) as Hq.
  { revert Hs. unfold _strip_controls. fold (canonical U s).
    destruct (unescape U (canonical U s)) as [z|] eqn:Ez; [|discriminate].
    intros [= <-]. apply strip_Forall.
    pose proof (plain_unescape _ _ (plain_canonical s) Ez) as Hz.
    assert (forall p tpl t,
              Forall (fun it => match it with
                                | TLit s => Forall (fun c => blank_or_plain U c = true) s
                                | TRef n => (0 < n)%nat
                                end) tpl ->
              Forall (fun c => blank_or_plain U c = true) t ->
              Forall (fun c => blank_or_plain U c = true) (sub U p tpl t)) as Hsub.
    { intros p tpl t Htpl Ht'. unfold sub, sub_count, sub_with.
      apply sub_loop_keeps; [|constructor|exact Ht'].
      intros mt. now apply expand_keeps. }
    apply Hsub; [now repeat constructor|].
    apply Hsub; [now repeat constructor|].
    apply Hsub; [repeat constructor; lia|exact Hz]. }
  apply tidy_spaces in Ht.
  apply List.Forall_forall. intros c Hin.
  rewrite List.Forall_forall in Hq, Ht. specialize (Hq c Hin). specialize (Ht c Hin).
  unfold blank_or_plain in Hq. destruct (is_control c) eqn:Ec; [|reflexivity].
  cbn [negb orb] in Hq. rewrite (Ht Hq) in Ec. discriminate.
Qed.
End NoControl.

Lemma py_plain_references : plain_references py_runtime = true.
Proof. vm_compute. reflexivity. Qed.

(** ** Delimiters and dimensions *)

Lemma rel_res_first TL a1 a2 b1 b2 :
  rel_res TL a1 a2 -> rel_res TL b1 b2 ->
  rel_res TL (match a1 with Some e => Some e | None => b1 end)
             (match a2 with Some e => Some e | None => b2 end).
Proof. destruct a1, a2; cbn; tauto. Qed.

Lemma suf_progress (st s : mstate) (mid : str) :
  m_suf st = mid ++ m_suf s ->
  (length (m_suf s) <? length (m_suf st))%nat = negb (match mid with [] => true | _ => false end).
Proof.
  intros H. rewrite H, length_app. destruct mid; cbn [length negb].
  - apply Nat.ltb_irrefl.
  - apply Nat.ltb_lt. lia.
Qed.

Lemma consumed_mid (st s : mstate) (mid : str) :
  m_suf st = mid ++ m_suf s -> consumed st s = mid.
Proof.
  intros H. unfold consumed. rewrite H, length_app.
  replace (length mid + length (m_suf s) - length (m_suf s))%nat with (length mid) by lia.
  now rewrite firstn_app, Nat.sub_diag, firstn_all, firstn_O, app_nil_r.
Qed.

Section Strict.
Variable U : runtime.
Variable ic : bool.
Variable TL : str -> str -> Prop.
Hypothesis Htl : tails_ok U TL.

Lemma one_sim_strict test : rejects_gap U test -> sim_strict TL true (one test).
Proof.
  intros Hrej st1 st2 k1 k2 (Hcaps & u & t1 & t2 & H1 & H2 & Ht) Hk. unfold one.
  rewrite H1, H2. destruct u as [|c u]; cbn [app].
  - pose proof (tl_head_l U TL Htl t1 t2 Ht) as Hl.
    pose proof (tl_head_r U TL Htl t1 t2 Ht) as Hr.
    destruct t1 as [|c1 t1], t2 as [|c2 t2]; cbn [rel_res];
      rewrite ?(Hrej _ Hl), ?(Hrej _ Hr); exact I.
  - destruct (test c); [|exact I]. apply (Hk [c]).
    + now rewrite H1.
    + now rewrite H2.
    + discriminate.
    + split; [exact Hcaps|]. now exists u, t1, t2.
Qed.

Lemma rep_loop_sim_strict body lo hi greedy nb :
  sim_strict TL nb body ->
  forall fx fy n st1 st2 k1 k2, corr TL st1 st2 ->
    ((lo - n) + length (m_suf st1) < fx)%nat ->
    ((lo - n) + length (m_suf st2) < fy)%nat ->
    (forall mid s1 s2,
       m_suf st1 = mid ++ m_suf s1 -> m_suf st2 = mid ++ m_suf s2 ->
       ((n < lo)%nat -> nb = true -> mid <> []) -> corr TL s1 s2 ->
       rel_res TL (k1 s1) (k2 s2)) ->
    rel_res TL (rep_loop body lo hi greedy k1 fx n st1)
               (rep_loop body lo hi greedy k2 fy n st2).
Proof.
  intros Hb. induction fx as [|fx IH]; intros fy n st1 st2 k1 k2 Hc Hfx Hfy Hk; [lia|].
  destruct fy as [|fy]; [lia|]. cbn [rep_loop].
  set (again1 := body st1 _). set (again2 := body st2 _).
  assert (rel_res TL again1 again2) as Hagain.
  { apply Hb; [exact Hc|]. intros mid s1 s2 E1 E2 Hnn Hc'.
    rewrite (suf_progress st1 s1 mid E1), (suf_progress st2 s2 mid E2).
    destruct ((n <? lo)%nat || negb match mid with [] => true | _ => false end) eqn:E;
      [|exact I].
    assert (length (m_suf st1) = length mid + length (m_suf s1))%nat as L1
      by (now rewrite E1, length_app).
    assert (length (m_suf st2) = length mid + length (m_suf s2))%nat as L2
      by (now rewrite E2, length_app).
    assert ((n < lo)%nat \/ (0 < length mid)%nat) as Hprog.
    { apply orb_true_iff in E as [E|E]; [left; now apply Nat.ltb_lt|right].
      destruct mid; [discriminate|cbn; lia]. }
    apply IH; [exact Hc'|lia|lia|].
    intros mid' s1' s2' E1' E2' Hnn' Hc''. apply (Hk (mid ++ mid')).
    - now rewrite E1, E1', app_assoc.
    - now rewrite E2, E2', app_assoc.
    - intros Hlt Hnb Hnil. apply app_eq_nil in Hnil as [Hnil _]. now apply Hnn.
    - exact Hc''. }
  assert (((n <? lo)%nat = false) -> rel_res TL (k1 st1) (k2 st2)) as Hstop.
  { intros Hge. apply (Hk []); [reflexivity|reflexivity| |exact Hc].
    intros Hlt. apply Nat.ltb_ge in Hge. lia. }
  destruct (n <? lo)%nat; [exact Hagain|]. specialize (Hstop eq_refl).
  destruct greedy.
  - apply rel_res_first; [|exact Hstop].
    destruct (match hi with Some h => (n <? h)%nat | None => true end); [exact Hagain|exact I].
  - apply rel_res_first; [exact Hstop|].
    destruct (match hi with Some h => (n <? h)%nat | None => true end); [exact Hagain|exact I].
Qed.

Lemma sim_strict_weaken nn nn' f :
  (nn' = true -> nn = true) -> sim_strict TL nn f -> sim_strict TL nn' f.
Proof.
  intros Hnn Hf st1 st2 k1 k2 Hc Hk. apply Hf; [exact Hc|].
  intros mid s1 s2 E1 E2 Hm. apply (Hk mid); auto.
Qed.

Lemma ws_free_sim (r : re) : ws_free U ic r -> sim_strict TL (nonnull r) (m U ic r).
Proof.
  induction r as [| p | | neg items | c | r1 IH1 r2 IH2 | r1 IH1 r2 IH2
                 | lo hi greedy r IH | n r IH | n | | | back r IH];
    cbn [ws_free nonnull atom_test]; intros Hws; try contradiction.
  - intros st1 st2 k1 k2 Hc Hk. cbn [m]. apply (Hk []); auto; discriminate.
  - now apply one_sim_strict.
  - apply (one_sim_strict (fun c => negb (c =? 10))). exact Hws.
  - now apply one_sim_strict.
  - now apply one_sim_strict.
  - destruct Hws as [H1 H2]. specialize (IH1 H1). specialize (IH2 H2).
    intros st1 st2 k1 k2 Hc Hk. cbn [m]. apply IH1; [exact Hc|].
    intros mid s1 s2 E1 E2 Hn1 Hc1. apply IH2; [exact Hc1|].
    intros mid' s1' s2' E1' E2' Hn2 Hc2. apply (Hk (mid ++ mid')).
    + now rewrite E1, E1', app_assoc.
    + now rewrite E2, E2', app_assoc.
    + intros Hnn Hnil. apply app_eq_nil in Hnil as [Ha Hb].
      apply orb_true_iff in Hnn as [Hnn|Hnn]; [exact (Hn1 Hnn Ha)|exact (Hn2 Hnn Hb)].
    + exact Hc2.
  - destruct Hws as [H1 H2]. specialize (IH1 H1). specialize (IH2 H2).
    intros st1 st2 k1 k2 Hc Hk. cbn [m]. apply rel_res_first.
    + apply (sim_strict_weaken (nonnull r1) (nonnull r1 && nonnull r2)); auto.
      intros H. now apply andb_true_iff in H as [H _].
    + apply (sim_strict_weaken (nonnull r2) (nonnull r1 && nonnull r2)); auto.
      intros H. now apply andb_true_iff in H as [_ H].
  - specialize (IH Hws). intros st1 st2 k1 k2 Hc Hk. cbn [m].
    apply (rep_loop_sim_strict _ lo hi greedy (nonnull r) IH); [exact Hc|lia|lia|].
    intros mid s1 s2 E1 E2 Hnn Hc'. apply (Hk mid); auto.
    intros H. apply andb_true_iff in H as [Hlo Hnb]. apply Nat.ltb_lt in Hlo. auto.
  - specialize (IH Hws). intros st1 st2 k1 k2 Hc Hk. cbn [m]. apply IH; [exact Hc|].
    intros mid s1 s2 E1 E2 Hnn (Hcaps & Hsuf). apply (Hk mid); auto.
    split; [|exact Hsuf]. cbn [m_caps].
    now rewrite (consumed_mid st1 s1 mid E1), (consumed_mid st2 s2 mid E2), Hcaps.
Qed.
End Strict.

(** *** Expressions that may consume white space *)

Lemma run_of_split test (s : str) :
  s = run_of test s ++ lstrip_by test s
  /\ Forall (fun c => test c = true) (run_of test s)
  /\ stops test (lstrip_by test s).
Proof.
  induction s as [|c s (IH1 & IH2 & IH3)]; cbn [run_of lstrip_by]; [now repeat split|].
  destruct (test c) eqn:Hc.
  - cbn [app]. rewrite <- IH1. repeat split; [now constructor|exact IH3].
  - repeat split; [constructor|exact Hc].
Qed.

Lemma length_run_split test (s : str) :
  length s = (length (run_of test s) + length (lstrip_by test s))%nat.
Proof. rewrite <- length_app. now rewrite <- (proj1 (run_of_split test s)). Qed.

Lemma star_run test k fuel n st :
  (length (m_suf st) < fuel)%nat ->
  rep_loop (one test) 0 None true k fuel n st
  = greedy_run 0 k n st (run_of test (m_suf st)) (lstrip_by test (m_suf st)).
Proof.
  intros Hf. destruct (run_of_split test (m_suf st)) as (H1 & H2 & H3).
  apply rep_loop_one; auto.
  rewrite H1 in Hf. rewrite length_app in Hf. lia.
Qed.

Lemma after_nil st rest : m_suf st = rest -> after st [] rest = st.
Proof. destruct st as [p s c]. cbn. now intros ->. Qed.

Lemma sim_of_strict TL nn f : sim_strict TL nn f -> sim TL f.
Proof.
  intros Hf st1 st2 k1 k2 Hc Hk. apply Hf; [exact Hc|].
  intros mid s1 s2 E1 E2 _ Hc'. apply Hk; [exact Hc'| |].
  - rewrite E1, length_app. lia.
  - rewrite E2, length_app. lia.
Qed.

Section General.
Variable U : runtime.
Variable ic : bool.
Variable TL : str -> str -> Prop.
Hypothesis Htl : tails_ok U TL.
Variable test : N -> bool.
Hypothesis Hbar : forall c, is_barrier c = true -> test c = false.

(** A gap character that passes the test is white space. *)
Lemma passes_space c : gapchar U c = true -> test c = true -> isspace U c = true.
Proof.
  unfold gapchar. intros Hg Ht. destruct (isspace U c); [reflexivity|].
  cbn in Hg. rewrite (Hbar c Hg) in Ht. discriminate.
Qed.

(** Consuming a passing prefix of a tail leaves related tails. *)
Lemma TL_run_l (run1 : str) : forall t1 t2 run2,
  TL t1 t2 -> run_of test t1 = run1 ++ run2 ->
  TL (run2 ++ lstrip_by test t1) t2.
Proof.
  induction run1 as [|c run1 IH]; intros t1 t2 run2 Ht Hrun.
  - cbn [app] in Hrun. rewrite <- Hrun. now rewrite <- (proj1 (run_of_split test t1)).
  - destruct t1 as [|d t1]; [discriminate|]. cbn [run_of lstrip_by] in *.
    destruct (test d) eqn:Hd; [|discriminate]. injection Hrun as -> Hrun.
    apply (IH t1 t2 run2); [|exact Hrun].
    apply (tl_ws_l U TL Htl c t1 t2 Ht).
    apply passes_space; [exact (tl_head_l U TL Htl _ _ Ht)|exact Hd].
Qed.

Lemma TL_run_r (run1 : str) : forall t1 t2 run2,
  TL t1 t2 -> run_of test t2 = run1 ++ run2 ->
  TL t1 (run2 ++ lstrip_by test t2).
Proof.
  induction run1 as [|c run1 IH]; intros t1 t2 run2 Ht Hrun.
  - cbn [app] in Hrun. rewrite <- Hrun. now rewrite <- (proj1 (run_of_split test t2)).
  - destruct t2 as [|d t2]; [discriminate|]. cbn [run_of lstrip_by] in *.
    destruct (test d) eqn:Hd; [|discriminate]. injection Hrun as -> Hrun.
    apply (IH t1 t2 run2); [|exact Hrun].
    apply (tl_ws_r U TL Htl c t1 t2 Ht).
    apply passes_space; [exact (tl_head_r U TL Htl _ _ Ht)|exact Hd].
Qed.

(** In the gap, whatever the star consumes on either side, the
    continuations meet at corresponding positions. *)
Lemma star_gap_sim st1 st2 k1 k2 n1 n2 t1 t2 :
  m_caps st1 = m_caps st2 -> m_suf st1 = t1 -> m_suf st2 = t2 -> TL t1 t2 ->
  (forall s1 s2, corr TL s1 s2 ->
     (length (m_suf s1) <= length (m_suf st1))%nat ->
     (length (m_suf s2) <= length (m_suf st2))%nat ->
     rel_res TL (k1 s1) (k2 s2)) ->
  rel_res TL (greedy_run 0 k1 n1 st1 (run_of test t1) (lstrip_by test t1))
             (greedy_run 0 k2 n2 st2 (run_of test t2) (lstrip_by test t2)).
Proof.
  intros Hcaps H1 H2 Ht Hk.
  pose proof (run_of_split test t1) as (E1 & _ & _).
  pose proof (run_of_split test t2) as (E2 & _ & _).
  assert (forall ra rb rc rd, run_of test t1 = ra ++ rb -> run_of test t2 = rc ++ rd ->
            rel_res TL (k1 (after st1 ra (rb ++ lstrip_by test t1)))
                       (k2 (after st2 rc (rd ++ lstrip_by test t2)))) as Hall.
  { intros ra rb rc rd Ha Hc. apply Hk.
    - split; [exact Hcaps|]. exists [], (rb ++ lstrip_by test t1), (rd ++ lstrip_by test t2).
      repeat split. apply (TL_run_r rc); [|exact Hc]. now apply (TL_run_l ra).
    - cbn [after m_suf]. rewrite H1, (length_run_split test t1), Ha, !length_app. lia.
    - cbn [after m_suf]. rewrite H2, (length_run_split test t2), Hc, !length_app. lia. }
  destruct (k2 st2) as [e2|] eqn:K2.
  - pose proof (Hall (run_of test t1) [] [] (run_of test t2)
                  (eq_sym (app_nil_r _)) eq_refl) as Htop.
    cbn [app] in Htop. rewrite <- E2 in Htop. rewrite (after_nil st2 t2 H2), K2 in Htop.
    destruct (k1 (after st1 (run_of test t1) (lstrip_by test t1))) as [e1|] eqn:K1;
      [|exfalso; exact Htop].
    rewrite (greedy_run_longest 0 k1 _ st1 _ n1 e1); [|now rewrite H1|lia|exact K1].
    pose proof (Hall (run_of test t1) [] (run_of test t2) []
                  (eq_sym (app_nil_r _)) (eq_sym (app_nil_r _))) as Htop2.
    cbn [app] in Htop2. rewrite K1 in Htop2.
    destruct (k2 (after st2 (run_of test t2) (lstrip_by test t2))) as [e2'|] eqn:K2';
      [|exfalso; exact Htop2].
    rewrite (greedy_run_longest 0 k2 _ st2 _ n2 e2'); [|now rewrite H2|lia|exact K2'].
    exact Htop2.
  - rewrite (greedy_run_none 0 k1 _ st1 _ n1); [|now rewrite H1|].
    2:{ intros ra rb Ha.
        pose proof (Hall ra rb [] (run_of test t2) Ha eq_refl) as H.
        cbn [app] in H. rewrite <- E2 in H. rewrite (after_nil st2 t2 H2), K2 in H.
        destruct (k1 (after st1 ra (rb ++ lstrip_by test t1)));
          [exfalso; exact H|reflexivity]. }
    rewrite (greedy_run_none 0 k2 _ st2 _ n2); [exact I|now rewrite H2|].
    intros rc rd Hc.
    assert (k1 st1 = None) as K1.
    { pose proof (Hall [] (run_of test t1) [] (run_of test t2) eq_refl eq_refl) as H.
      cbn [app] in H. rewrite <- E1, <- E2 in H.
      rewrite (after_nil st1 t1 H1), (after_nil st2 t2 H2), K2 in H.
      destruct (k1 st1); [exfalso; exact H|reflexivity]. }
    pose proof (Hall [] (run_of test t1) rc rd eq_refl Hc) as H.
    cbn [app] in H. rewrite <- E1 in H. rewrite (after_nil st1 t1 H1), K1 in H.
    destruct (k2 (after st2 rc (rd ++ lstrip_by test t2)));
      [exfalso; exact H|reflexivity].
Qed.

(** Before the gap the two stars run over the same characters. *)
Lemma star_run_sim (u : str) : forall t1 t2 st1 st2 k1 k2 n1 n2,
  m_caps st1 = m_caps st2 -> m_suf st1 = u ++ t1 -> m_suf st2 = u ++ t2 -> TL t1 t2 ->
  (forall s1 s2, corr TL s1 s2 ->
     (length (m_suf s1) <= length (m_suf st1))%nat ->
     (length (m_suf s2) <= length (m_suf st2))%nat ->
     rel_res TL (k1 s1) (k2 s2)) ->
  rel_res TL
    (greedy_run 0 k1 n1 st1 (run_of test (u ++ t1)) (lstrip_by test (u ++ t1)))
    (greedy_run 0 k2 n2 st2 (run_of test (u ++ t2)) (lstrip_by test (u ++ t2))).
Proof.
  induction u as [|c u IH]; intros t1 t2 st1 st2 k1 k2 n1 n2 Hcaps H1 H2 Ht Hk.
  - cbn [app] in *. now apply star_gap_sim.
  - assert (rel_res TL (k1 st1) (k2 st2)) as Hstop.
    { apply Hk; [|lia|lia]. split; [exact Hcaps|]. now exists (c :: u), t1, t2. }
    cbn [app run_of lstrip_by]. destruct (test c) eqn:Hc; cbn [greedy_run]; [|exact Hstop].
    cbn [Nat.ltb Nat.leb]. apply rel_res_first; [|exact Hstop].
    rewrite <- !(proj1 (run_of_split test _)).
    apply IH; [exact Hcaps|reflexivity|reflexivity|exact Ht|].
    intros s1 s2 Hc' L1 L2. apply Hk; [exact Hc'| |].
    + cbn [step m_suf] in L1. rewrite H1. cbn [app length]. lia.
    + cbn [step m_suf] in L2. rewrite H2. cbn [app length]. lia.
Qed.

Lemma star_sim : sim TL (fun st k => rep_loop (one test) 0 None true k
                                      (0 + S (length (m_suf st))) 0 st).
Proof.
  intros st1 st2 k1 k2 (Hcaps & u & t1 & t2 & H1 & H2 & Ht) Hk. cbv beta.
  rewrite !star_run by lia. rewrite H1, H2. now apply star_run_sim.
Qed.
End General.

Section DimSafe.
Variable U : runtime.
Variable ic : bool.
Variable TL : str -> str -> Prop.
Hypothesis Htl : tails_ok U TL.

(** An optional piece that starts outside gaps. *)
Lemma opt_headed_sim (h t : re) :
  ws_free U ic h -> nonnull h = true -> sim TL (m U ic t) ->
  sim TL (m U ic (Rep 0 (Some 1%nat) true (Seq h t))).
Proof.
  intros Hh Hnn Ht st1 st2 k1 k2 Hc Hk. cbn [m rep_loop Nat.add].
  change (0 <? 0)%nat with false. change (0 <? 1)%nat with true. cbn [orb].
  apply rel_res_first; [|apply Hk; [exact Hc|lia|lia]].
  pose proof (ws_free_sim U ic TL Htl h Hh) as Hsim. rewrite Hnn in Hsim.
  apply Hsim; [exact Hc|]. intros mid s1 s2 E1 E2 Hmid Hc1.
  specialize (Hmid eq_refl).
  assert (length (m_suf st1) = length mid + length (m_suf s1))%nat as L1
    by (now rewrite E1, length_app).
  assert (length (m_suf st2) = length mid + length (m_suf s2))%nat as L2
    by (now rewrite E2, length_app).
  assert (0 < length mid)%nat as Lm by (destruct mid; [contradiction|cbn; lia]).
  apply Ht; [exact Hc1|]. intros s1' s2' Hc2 L1' L2'.
  assert ((length (m_suf s1') <? length (m_suf st1))%nat = true) as -> by (apply Nat.ltb_lt; lia).
  assert ((length (m_suf s2') <? length (m_suf st2))%nat = true) as -> by (apply Nat.ltb_lt; lia).
  destruct (length (m_suf st1)) as [|f1] eqn:F1; [lia|].
  destruct (length (m_suf st2)) as [|f2] eqn:F2; [lia|].
  cbn [rep_loop]. change (1 <? 0)%nat with false. change (1 <? 1)%nat with false.
  cbv iota. apply Hk; [exact Hc2|lia|lia].
Qed.

Lemma dim_safe_both (r : re) :
  (dim_safe U ic r -> sim TL (m U ic r))
  /\ (forall h t, r = Seq h t -> dim_safe U ic t -> sim TL (m U ic t)).
Proof.
  induction r as [| p | | neg items | c | r1 IH1 r2 IH2 | r1 IH1 r2 IH2
                 | lo hi greedy r IH | n r IH | n | | | back r IH];
    (split; [|try (intros h t Heq; discriminate Heq)]);
    try (intros [Hws|Hd]; [exact (sim_of_strict TL _ _ (ws_free_sim U ic TL Htl _ Hws))
                          |try contradiction]).
  - destruct Hd as [H1 H2]. destruct IH1 as [IH1 _], IH2 as [IH2 _].
    specialize (IH1 H1). specialize (IH2 H2).
    intros st1 st2 k1 k2 Hc Hk. cbn [m]. apply IH1; [exact Hc|].
    intros s1 s2 Hc1 L1 L2. apply IH2; [exact Hc1|].
    intros s1' s2' Hc2 L1' L2'. apply Hk; [exact Hc2|lia|lia].
  - intros h t [= -> ->]. apply IH2.
  - destruct Hd as [H1 H2]. destruct IH1 as [IH1 _], IH2 as [IH2 _].
    specialize (IH1 H1). specialize (IH2 H2).
    intros st1 st2 k1 k2 Hc Hk. cbn [m]. apply rel_res_first; auto.
  - cbn [dim_safe] in Hd. destruct lo as [|lo]; [|contradiction].
    destruct hi as [[|[|hi]]|]; try contradiction.
    + destruct greedy; [|contradiction]. destruct r; try contradiction.
      destruct Hd as (Hh & Hnn & Ht). apply opt_headed_sim; auto.
      destruct IH as [_ IH]. now apply (IH r1 r2).
    + destruct greedy; [|contradiction].
      destruct (atom_test U ic r) as [test|] eqn:Ea; [|contradiction].
      intros st1 st2 k1 k2 Hc Hk. cbn [m]. rewrite (m_atom U ic r test Ea).
      now apply (star_sim U TL Htl test Hd).
Qed.

Lemma dim_safe_sim (r : re) : dim_safe U ic r -> sim TL (m U ic r).
Proof. apply dim_safe_both. Qed.

(** *** At a gap, what must consume a character outside gaps fails *)

Lemma one_refuses test st k : rejects_gap U test -> at_gap U (m_suf st) -> one test st k = None.
Proof.
  intros Hrej Hg. unfold one. destruct (m_suf st) as [|c rest]; [reflexivity|].
  now rewrite (Hrej c Hg).
Qed.

Lemma rep_loop_refuses body lo hi greedy nb :
  (forall st k, at_gap U (m_suf st) ->
     nb = true \/ (forall s, m_suf s = m_suf st -> k s = None) -> body st k = None) ->
  forall fuel n st k, at_gap U (m_suf st) ->
    ((n < lo)%nat /\ nb = true) \/ (forall s, m_suf s = m_suf st -> k s = None) ->
    rep_loop body lo hi greedy k fuel n st = None.
Proof.
  intros Hb. induction fuel as [|fuel IH]; intros n st k Hg Hk; [reflexivity|].
  cbn [rep_loop]. set (again := body st _).
  assert (again = None) as ->.
  { apply Hb; [exact Hg|]. destruct Hk as [[_ Hnb]|Hk]; [now left|right].
    intros s Hs. rewrite Hs, Nat.ltb_irrefl, orb_false_r.
    destruct (n <? lo)%nat; [|reflexivity].
    apply IH; [now rewrite Hs|right]. intros s' Hs'. apply Hk. congruence. }
  destruct Hk as [[Hlt _]|Hk].
  - apply Nat.ltb_lt in Hlt. now rewrite Hlt.
  - rewrite (Hk st eq_refl). destruct (n <? lo)%nat; [reflexivity|].
    destruct greedy; [now destruct (match hi with Some _ => _ | None => _ end)|].
    now destruct (match hi with Some _ => _ | None => _ end).
Qed.

Lemma ws_free_refuses (r : re) : ws_free U ic r ->
  forall st k, at_gap U (m_suf st) ->
    nonnull r = true \/ (forall s, m_suf s = m_suf st -> k s = None) ->
    m U ic r st k = None.
Proof.
  induction r as [| p | | neg items | c | r1 IH1 r2 IH2 | r1 IH1 r2 IH2
                 | lo hi greedy r IH | n r IH | n | | | back r IH];
    cbn [ws_free nonnull atom_test]; intros Hws st k Hg Hk; try contradiction; cbn [m].
  - destruct Hk as [Hk|Hk]; [discriminate|]. now apply Hk.
  - now apply one_refuses.
  - now apply (one_refuses (fun c => negb (c =? 10))).
  - now apply one_refuses.
  - now apply one_refuses.
  - destruct Hws as [H1 H2]. apply (IH1 H1); [exact Hg|].
    destruct Hk as [Hk|Hk].
    + apply orb_true_iff in Hk as [Hk|Hk]; [now left|right].
      intros s Hs. apply (IH2 H2); [now rewrite Hs|now left].
    + right. intros s Hs. apply (IH2 H2); [now rewrite Hs|right].
      intros s' Hs'. apply Hk. congruence.
  - destruct Hws as [H1 H2].
    rewrite (IH1 H1 st k Hg), (IH2 H2 st k Hg); [reflexivity| |].
    + destruct Hk as [Hk|Hk]; [left|now right]. now apply andb_true_iff in Hk as [_ Hk].
    + destruct Hk as [Hk|Hk]; [left|now right]. now apply andb_true_iff in Hk as [Hk _].
  - apply (rep_loop_refuses _ lo hi greedy (nonnull r)); [|exact Hg|].
    + intros st' k' Hg' Hk'. now apply (IH Hws).
    + destruct Hk as [Hk|Hk]; [left|now right].
      apply andb_true_iff in Hk as [Hlo Hnb]. apply Nat.ltb_lt in Hlo. now split.
  - apply (IH Hws); [exact Hg|]. destruct Hk as [Hk|Hk]; [now left|right].
    intros s Hs. apply Hk. cbn [m_suf]. exact Hs.
Qed.
End DimSafe.

(** ** The dimension patterns *)

Lemma is_barrier_cases (c : N) : is_barrier c = true -> c = 124 \/ c = 47 \/ c = 44.
Proof.
  unfold is_barrier. change (lit "|/,") with [124; 47; 44]. cbn [existsb].
  intros H. repeat (apply orb_true_iff in H as [H|H]); try discriminate;
    apply N.eqb_eq in H; auto.
Qed.

Section Patterns.
Variable U : runtime.
Hypothesis HU : unicode_facts U.

Lemma gapchar_cases (c : N) :
  gapchar U c = true -> isspace U c = true \/ c = 124 \/ c = 47 \/ c = 44.
Proof.
  unfold gapchar. intros H. apply orb_true_iff in H as [H|H]; [now left|right].
  now apply is_barrier_cases.
Qed.

Lemma gap_tolower (c : N) : gapchar U c = true -> tolower U c = c.
Proof.
  intros H. apply gapchar_cases in H as [H|[->|[->| ->]]]; [|reflexivity..].
  now apply (uf_space_uncased U HU).
Qed.

(** A character that is not of a gap is not one that is. *)
Lemma not_gap_neq (p c : N) : gapchar U p = false -> gapchar U c = true -> (c =? p) = false.
Proof. intros Hp Hc. destruct (N.eqb_spec c p) as [->|]; [congruence|reflexivity]. Qed.

Lemma lit_rejects (p : N) :
  gapchar U p = false -> gapchar U (tolower U p) = false ->
  Forall (fun x => gapchar U x = false) (casefix U (tolower U p)) ->
  rejects_gap U (lit_test U true p).
Proof.
  intros Hp Hlo Hfix c Hc. unfold lit_test. cbn [andb].
  destruct (iscased U p); [|now apply not_gap_neq].
  cbv zeta. rewrite (gap_tolower c Hc), (not_gap_neq _ c Hlo Hc). cbn [orb].
  induction Hfix as [|x l Hx _ IH]; cbn [existsb]; [reflexivity|].
  now rewrite (not_gap_neq x c Hx Hc), IH.
Qed.

Lemma digit_rejects : rejects_gap U (cat_test U CatDigit).
Proof.
  intros c Hc. cbn [cat_test]. apply gapchar_cases in Hc as [H|[->|[->| ->]]]; [|reflexivity..].
  now apply (uf_space_not_decimal U HU).
Qed.

Lemma not_space_not_gap (c : N) : isspace U c = false -> is_barrier c = false -> gapchar U c = false.
Proof. unfold gapchar. now intros -> ->. Qed.

Lemma quote_rejects : rejects_gap U (cls_test U true false [CChar c_dquote; CChar c_rdquote]).
Proof.
  intros c Hc. unfold cls_test. cbn [hascased existsb andb].
  rewrite (uf_rdquote_uncased U HU). change (iscased U c_dquote) with false.
  cbn [orb item_test existsb xorb].
  rewrite (not_gap_neq c_dquote c eq_refl Hc).
  rewrite (not_gap_neq c_rdquote c
             (not_space_not_gap _ (uf_rdquote_not_space U HU) eq_refl) Hc).
  reflexivity.
Qed.

Lemma cross_rejects : rejects_gap U (cls_test U true false [CChar 120; CChar c_times]).
Proof.
  intros c Hc. unfold cls_test. cbn [hascased existsb andb].
  change (iscased U 120) with true. cbn [orb item_test existsb xorb].
  rewrite (gap_tolower c Hc), (uf_times_lower U HU), (uf_times_casefix U HU).
  change (tolower U 120) with 120. change (casefix U 120) with (@nil N). cbn [existsb].
  rewrite (not_gap_neq 120 c eq_refl Hc).
  rewrite (not_gap_neq c_times c
             (not_space_not_gap _ (uf_times_not_space U HU) eq_refl) Hc).
  reflexivity.
Qed.

Lemma space_rejects_barrier (c : N) : is_barrier c = true -> cat_test U CatSpace c = false.
Proof. intros H. apply is_barrier_cases in H as [->|[->| ->]]; reflexivity. Qed.

Lemma colon_space_rejects_barrier (c : N) :
  is_barrier c = true -> cls_test U true false [CChar 58; CCat CatSpace] c = false.
Proof. intros H. apply is_barrier_cases in H as [->|[->| ->]]; reflexivity. Qed.

(** A plain ASCII literal of the patterns: not cased or with no extra
    case, and not of a gap. *)
Lemma lit_rejects_plain (p : N) :
  gapchar U p = false -> gapchar U (tolower U p) = false -> casefix U (tolower U p) = [] ->
  rejects_gap U (lit_test U true p).
Proof. intros Hp Hlo Hfix. apply lit_rejects; auto. rewrite Hfix. constructor. Qed.

Lemma lit_rejects_i : rejects_gap U (lit_test U true 105).
Proof.
  apply lit_rejects; [reflexivity|reflexivity|]. repeat constructor.
  exact (not_space_not_gap _ (uf_dotless_i U HU) eq_refl).
Qed.

Lemma lit_rejects_s : rejects_gap U (lit_test U true 115).
Proof.
  apply lit_rejects; [reflexivity|reflexivity|]. repeat constructor.
  exact (not_space_not_gap _ (uf_long_s U HU) eq_refl).
Qed.

Lemma ws_free_number : ws_free U true number.
Proof.
  unfold number, plus, opt, digit. cbn [ws_free atom_test].
  repeat split; try exact digit_rejects. now apply lit_rejects_plain.
Qed.

Ltac lits :=
  repeat match goal with
         | |- _ /\ _ => split
         | |- rejects_gap U (lit_test U true 105) => exact lit_rejects_i
         | |- rejects_gap U (lit_test U true 115) => exact lit_rejects_s
         | |- rejects_gap U (lit_test U true _) => now apply lit_rejects_plain
         end.

Lemma ws_free_words :
  ws_free U true (word "(w)") /\ ws_free U true (word "(l)") /\ ws_free U true (word "cm")
  /\ ws_free U true (word "thickness") /\ ws_free U true (word "inch")
  /\ ws_free U true (word "in") /\ ws_free U true (Lit c_dquote).
Proof.
  repeat match goal with
         | |- context [word ?s] =>
             let r := eval vm_compute in (word s) in change (word s) with r
         end.
  repeat split; cbn [ws_free atom_test]; lits.
Qed.

Lemma dim_safe_seq ic a b : dim_safe U ic a -> dim_safe U ic b -> dim_safe U ic (Seq a b).
Proof. intros Ha Hb. cbn [dim_safe]. right. now split. Qed.

Lemma dim_safe_free ic r : ws_free U ic r -> dim_safe U ic r.
Proof. intros H. destruct r; cbn [dim_safe]; now left. Qed.

Lemma dim_safe_star_ws : dim_safe U true (star ws).
Proof. unfold star, ws. cbn [dim_safe atom_test]. right. exact space_rejects_barrier. Qed.

Lemma dim_safe_seqs ic (rs : list re) : Forall (dim_safe U ic) rs -> dim_safe U ic (seq rs).
Proof.
  induction 1 as [|r rs Hr Hrs IH]; [now left|].
  cbn [seq]. destruct rs as [|r' rs]; [exact Hr|]. now apply dim_safe_seq.
Qed.

Ltac seq_items :=
  apply dim_safe_seqs; repeat (first [apply Forall_nil_2 | apply Forall_cons_2]).

Lemma dim_safe_inch : dim_safe U true (p_re _RE_DIM_INCH).
Proof.
  destruct ws_free_words as (Hw & Hl & _).
  unfold _RE_DIM_INCH. cbn [p_re]. seq_items.
  all: try exact dim_safe_star_ws.
  all: apply dim_safe_free; cbn [ws_free atom_test opt quote cross].
  all: try exact ws_free_number.
  all: try exact quote_rejects.
  all: try exact cross_rejects.
  all: try exact Hw. all: exact Hl.
Qed.

Lemma dim_safe_cm : dim_safe U true (p_re _RE_DIM_CM).
Proof.
  destruct ws_free_words as (_ & _ & Hcm & _).
  unfold _RE_DIM_CM. cbn [p_re]. seq_items.
  all: try exact dim_safe_star_ws.
  all: apply dim_safe_free; cbn [ws_free atom_test cross].
  all: try exact ws_free_number.
  all: try exact cross_rejects.
  all: exact Hcm.
Qed.

Lemma dim_safe_thick : dim_safe U true (p_re _RE_THICK).
Proof.
  destruct ws_free_words as (_ & _ & _ & Hth & Hinch & Hin & Hq).
  unfold _RE_THICK. cbn [p_re]. seq_items.
  - unfold opt. cbn [dim_safe]. right. split; [exact Hth|]. split; [reflexivity|].
    unfold star. cbn [dim_safe atom_test]. right. exact colon_space_rejects_barrier.
  - apply dim_safe_free. exact ws_free_number.
  - exact dim_safe_star_ws.
  - apply dim_safe_free. cbn [ws_free]. auto.
Qed.
End Patterns.

(** ** Texts that differ in one gap *)

Section Gaps.
Variable U : runtime.

Lemma barrier_not_space (c : N) : is_barrier c = true -> isspace U c = false.
Proof. intros H. apply is_barrier_cases in H as [->|[->| ->]]; reflexivity. Qed.

Lemma gap_head (h b : str) :
  gap U h -> match h ++ b with [] => True | c :: _ => gapchar U c = true end.
Proof.
  intros [Hall Hex]. destruct h as [|c h]; [inversion Hex|]. cbn [app].
  now inversion Hall.
Qed.

Lemma gap_tail c (h : str) : gap U (c :: h) -> isspace U c = true -> gap U h.
Proof.
  intros [Hall Hex] Hc. split; [now inversion Hall|].
  inversion Hex as [? ? Hb|? ? Hex']; subst; [|exact Hex'].
  rewrite (barrier_not_space c Hb) in Hc. discriminate.
Qed.

Lemma TLgap_ok (b : str) : tails_ok U (TLgap U b).
Proof.
  split.
  - intros t1 t2 (h1 & h2 & -> & -> & G1 & G2). now apply gap_head.
  - intros t1 t2 (h1 & h2 & -> & -> & G1 & G2). now apply gap_head.
  - intros c t1 t2 (h1 & h2 & E1 & -> & G1 & G2) Hc.
    destruct h1 as [|d h1]; [destruct G1 as [_ G1]; inversion G1|].
    cbn [app] in E1. injection E1 as <- ->. exists h1, h2.
    repeat split; try apply G2. all: now apply (gap_tail c h1 G1).
  - intros c t1 t2 (h1 & h2 & -> & E2 & G1 & G2) Hc.
    destruct h2 as [|d h2]; [destruct G2 as [_ G2]; inversion G2|].
    cbn [app] in E2. injection E2 as <- ->. exists h1, h2.
    repeat split; try apply G1. all: now apply (gap_tail c h2 G2).
Qed.

Lemma TLnil_ok : tails_ok U TLnil.
Proof.
  split.
  - now intros t1 t2 [-> ->].
  - now intros t1 t2 [-> ->].
  - intros c t1 t2 [H _]. discriminate H.
  - intros c t1 t2 [_ H]. discriminate H.
Qed.

Lemma edit_cons c (x y : str) : edit U x y -> edit U (c :: x) (c :: y).
Proof. intros (a & h1 & h2 & b & -> & -> & G1 & G2). now exists (c :: a), h1, h2, b. Qed.

Lemma edit_app (p x y : str) : edit U x y -> edit U (p ++ x) (p ++ y).
Proof. induction p as [|c p IH]; [easy|]. intros H. cbn [app]. now apply edit_cons, IH. Qed.

Lemma edit_sym (x y : str) : edit U x y -> edit U y x.
Proof. intros (a & h1 & h2 & b & -> & -> & G1 & G2). now exists a, h2, h1, b. Qed.

Section Scan.
Variable Q : pattern.
Hypothesis Qic : p_ic Q = true.
Hypothesis Qsafe : dim_safe U true (p_re Q).
Hypothesis Qrefuses : forall st k,
  match m_suf st with [] => True | c :: _ => gapchar U c = true end ->
  m U true (p_re Q) st k = None.

Lemma try_at_sim TL pre1 pre2 (s1 s2 : str) :
  tails_ok U TL ->
  corr TL (MState pre1 s1 []) (MState pre2 s2 []) ->
  rel_res TL (try_at U Q false pre1 s1) (try_at U Q false pre2 s2).
Proof.
  intros Htl Hc. unfold try_at. rewrite Qic.
  apply (dim_safe_sim U true TL Htl _ Qsafe); [exact Hc|].
  intros e1 e2 He _ _. exact He.
Qed.

(** Through a gap the pattern matches nowhere. *)
Lemma scan_gap (h : str) : forall pre rest,
  Forall (fun c => gapchar U c = true) h ->
  scan U Q false pre (h ++ rest) = scan U Q false (rev h ++ pre) rest.
Proof.
  induction h as [|c h IH]; intros pre rest Hh; [reflexivity|].
  inversion Hh as [|? ? Hc Hh']; subst. cbn [app rev].
  rewrite scan_miss.
  - rewrite IH by assumption. now rewrite <- app_assoc.
  - unfold try_at. rewrite Qic. now apply Qrefuses.
Qed.

(** In the same text, from different starts, the same match. *)
Lemma scan_same (b : str) : forall pre1 pre2,
  match scan U Q false pre1 b, scan U Q false pre2 b with
  | None, None => True
  | Some m1, Some m2 =>
      m_caps (mt_end m1) = m_caps (mt_end m2)
      /\ m_suf (mt_end m1) = m_suf (mt_end m2)
      /\ m_suf (mt_start m1) = m_suf (mt_start m2)
  | _, _ => False
  end.
Proof.
  induction b as [|c b IH]; intros pre1 pre2.
  - rewrite !scan_eq.
    pose proof (try_at_sim TLnil pre1 pre2 [] [] TLnil_ok) as H.
    destruct (try_at U Q false pre1 []) as [e1|], (try_at U Q false pre2 []) as [e2|];
      cbn [rel_res] in H; try (now apply H; split; [|exists [], [], []]).
    destruct H as (Hc & u & t1 & t2 & E1 & E2 & -> & ->);
      [split; [reflexivity|now exists [], [], []]|].
    cbn [mt_end mt_start m_suf]. rewrite app_nil_r in E1, E2. split; [exact Hc|].
    split; congruence.
  - rewrite (scan_eq U Q false pre1), (scan_eq U Q false pre2).
    pose proof (try_at_sim TLnil pre1 pre2 (c :: b) (c :: b) TLnil_ok) as H.
    assert (corr TLnil (MState pre1 (c :: b) []) (MState pre2 (c :: b) [])) as Hc.
    { split; [reflexivity|]. exists (c :: b), [], []. cbn [m_suf].
      rewrite app_nil_r. now repeat split. }
    specialize (H Hc).
    destruct (try_at U Q false pre1 (c :: b)) as [e1|],
             (try_at U Q false pre2 (c :: b)) as [e2|]; cbn [rel_res] in H; try contradiction.
    + destruct H as (Hcaps & u & t1 & t2 & E1 & E2 & -> & ->).
      cbn [mt_end mt_start m_suf]. rewrite app_nil_r in E1, E2. split; [exact Hcaps|].
      split; congruence.
    + apply IH.
Qed.

Lemma skipped_app (p b : str) mt sk :
  b = sk ++ m_suf (mt_start mt) -> skipped (p ++ b) mt = p ++ sk.
Proof.
  intros H. apply skipped_prefix. rewrite H at 1. now rewrite app_assoc.
Qed.

(** From a gap on. *)
Lemma scan_edit_gap (h1 h2 b : str) pre1 pre2 :
  gap U h1 -> gap U h2 ->
  same_match U (h1 ++ b) (h2 ++ b)
    (scan U Q false pre1 (h1 ++ b)) (scan U Q false pre2 (h2 ++ b)).
Proof.
  intros G1 G2. rewrite !scan_gap by (apply G1 || apply G2).
  pose proof (scan_same b (rev h1 ++ pre1) (rev h2 ++ pre2)) as H.
  destruct (scan U Q false (rev h1 ++ pre1) b) as [m1|] eqn:S1,
           (scan U Q false (rev h2 ++ pre2) b) as [m2|] eqn:S2;
    cbn [same_match]; try exact H.
  destruct H as (Hcaps & Hend & Hstart). split; [exact Hcaps|]. intros v.
  apply scan_start in S1 as (sk1 & E1 & _). apply scan_start in S2 as (sk2 & E2 & _).
  assert (sk1 = sk2) as <-.
  { rewrite Hstart in E1. rewrite E2 in E1 at 1. now apply app_inv_tail in E1. }
  rewrite (skipped_app h1 b m1 sk1 E1), (skipped_app h2 b m2 sk1 E2), Hend.
  exists [], h1, h2, (sk1 ++ v ++ m_suf (mt_end m2)). cbn [app].
  rewrite <- !app_assoc. split; [reflexivity|split; [reflexivity|split; assumption]].
Qed.

(** In two texts that differ in one gap. *)
Lemma scan_edit (a : str) : forall h1 h2 b pre1 pre2,
  gap U h1 -> gap U h2 ->
  same_match U (a ++ h1 ++ b) (a ++ h2 ++ b)
    (scan U Q false pre1 (a ++ h1 ++ b)) (scan U Q false pre2 (a ++ h2 ++ b)).
Proof.
  induction a as [|c a IH]; intros h1 h2 b pre1 pre2 G1 G2;
    [cbn [app]; now apply scan_edit_gap|].
  cbn [app]. rewrite (scan_eq U Q false pre1), (scan_eq U Q false pre2).
  assert (corr (TLgap U b) (MState pre1 (c :: a ++ h1 ++ b) [])
            (MState pre2 (c :: a ++ h2 ++ b) [])) as Hc.
  { split; [reflexivity|]. exists (c :: a), (h1 ++ b), (h2 ++ b). cbn [m_suf app].
    repeat split. now exists h1, h2. }
  pose proof (try_at_sim (TLgap U b) pre1 pre2 _ _ (TLgap_ok b) Hc) as H.
  destruct (try_at U Q false pre1 (c :: a ++ h1 ++ b)) as [e1|],
           (try_at U Q false pre2 (c :: a ++ h2 ++ b)) as [e2|];
    cbn [rel_res] in H; try contradiction.
  - cbn [same_match mt_end mt_start].
    destruct H as (Hcaps & u & t1 & t2 & E1 & E2 & h1' & h2' & -> & -> & G1' & G2').
    split; [exact Hcaps|]. intros v.
    rewrite !(skipped_prefix _ _ []) by reflexivity. cbn [app]. rewrite E1, E2.
    exists (v ++ u), h1', h2', b. rewrite <- !app_assoc.
    split; [reflexivity|split; [reflexivity|split; assumption]].
  - specialize (IH h1 h2 b (c :: pre1) (c :: pre2) G1 G2).
    destruct (scan U Q false (c :: pre1) (a ++ h1 ++ b)) as [m1|] eqn:S1,
             (scan U Q false (c :: pre2) (a ++ h2 ++ b)) as [m2|] eqn:S2;
      cbn [same_match] in *; try exact IH.
    destruct IH as [Hcaps Hed]. split; [exact Hcaps|]. intros v.
    apply scan_start in S1 as (sk1 & E1 & _). apply scan_start in S2 as (sk2 & E2 & _).
    rewrite (skipped_cons c _ m1 sk1 E1), (skipped_cons c _ m2 sk2 E2).
    cbn [app]. apply edit_cons, Hed.
Qed.
End Scan.
End Gaps.

(** ** What delimiter normalization rewrites *)

Section Delims.
Variable U : runtime.

Lemma through_refl st : through (gaps U) st st.
Proof. exists []. split; [reflexivity|constructor]. Qed.

Lemma through_trans st1 st2 st3 :
  through (gaps U) st1 st2 -> through (gaps U) st2 st3 -> through (gaps U) st1 st3.
Proof.
  intros (m1 & E1 & H1) (m2 & E2 & H2). exists (m1 ++ m2).
  rewrite E1, E2, <- app_assoc. split; [reflexivity|]. now apply Forall_app.
Qed.

Lemma one_through test :
  (forall c, test c = true -> gapchar U c = true) -> forward_through (gaps U) (one test).
Proof.
  intros Ht st k e. unfold one. destruct (m_suf st) as [|c rest] eqn:E; [discriminate|].
  destruct (test c) eqn:Ec; [|discriminate]. intros H. eexists. split; [|exact H].
  exists [c]. rewrite E. split; [reflexivity|]. constructor; [now apply Ht|constructor].
Qed.

Lemma rep_loop_through body lo hi greedy k :
  forward_through (gaps U) body ->
  forall fuel n st e, rep_loop body lo hi greedy k fuel n st = Some e ->
    exists st', through (gaps U) st st' /\ k st' = Some e.
Proof.
  intros Hb. induction fuel as [|fuel IH]; intros n st e; cbn [rep_loop]; [discriminate|].
  set (again := body st _).
  assert (forall e, again = Some e -> exists st', through (gaps U) st st' /\ k st' = Some e)
    as Hagain.
  { intros e' He. apply Hb in He as (st1 & Hr1 & Hk).
    destruct ((n <? lo)%nat || (length (m_suf st1) <? length (m_suf st))%nat); [|discriminate].
    apply IH in Hk as (st2 & Hr2 & Hk). exists st2. split; [|exact Hk].
    eapply through_trans; eassumption. }
  assert (forall e, k st = Some e -> exists st', through (gaps U) st st' /\ k st' = Some e)
    as Hstop.
  { intros e' He. exists st. split; [apply through_refl|exact He]. }
  destruct (n <? lo)%nat; [apply Hagain|].
  destruct greedy.
  - destruct (match hi with Some h => (n <? h)%nat | None => true end).
    + destruct again as [e'|]; [intros [= <-]; now apply Hagain | apply Hstop].
    + apply Hstop.
  - destruct (k st) as [e'|] eqn:Ek; [intros [= <-]; now apply Hstop|].
    destruct (match hi with Some h => (n <? h)%nat | None => true end);
      [apply Hagain|discriminate].
Qed.

Lemma all_gap_through ic (r : re) : all_gap U ic r -> forward_through (gaps U) (m U ic r).
Proof.
  induction r as [| p | | neg items | c | r1 IH1 r2 IH2 | r1 IH1 r2 IH2
                 | lo hi greedy r IH | n r IH | n | | | back r IH];
    cbn [all_gap atom_test]; intros Hg; try contradiction; intros st k e; cbn [m].
  - intros H. exists st. split; [apply through_refl|exact H].
  - now apply one_through.
  - now apply one_through.
  - now apply one_through.
  - now apply one_through.
  - destruct Hg as [H1 H2]. intros H.
    apply (IH1 H1) in H as (st1 & Hr1 & H). apply (IH2 H2) in H as (st2 & Hr2 & H).
    exists st2. split; [eapply through_trans; eassumption|exact H].
  - destruct Hg as [H1 H2]. destruct (m U ic r1 st k) as [e'|] eqn:E1.
    + intros [= <-]. now apply (IH1 H1).
    + now apply IH2.
  - apply rep_loop_through. now apply IH.
  - intros H. apply (IH Hg) in H as (st1 & Hr1 & H). eexists. split; [|exact H]. exact Hr1.
Qed.

Lemma gap_app_l (x y : str) : gap U x -> gaps U y -> gap U (x ++ y).
Proof.
  intros [Hx Hb] Hy. split; [now apply Forall_app|]. apply Exists_app. now left.
Qed.

Lemma gap_app_r (x y : str) : gaps U x -> gap U y -> gap U (x ++ y).
Proof.
  intros Hx [Hy Hb]. split; [now apply Forall_app|]. apply Exists_app. now right.
Qed.

Lemma barred_through ic (r : re) : barred U ic r -> forward_through (gap U) (m U ic r).
Proof.
  assert (forall test, (forall c, test c = true -> is_barrier c = true) ->
            forward_through (gap U) (one test)) as Hone.
  { intros test Ht st k e. unfold one. destruct (m_suf st) as [|c rest] eqn:E; [discriminate|].
    destruct (test c) eqn:Ec; [|discriminate]. intros H. eexists. split; [|exact H].
    exists [c]. rewrite E. split; [reflexivity|]. apply Ht in Ec. split.
    - constructor; [|constructor]. unfold gapchar. rewrite Ec. apply orb_true_r.
    - now constructor. }
  induction r as [| p | | neg items | c | r1 IH1 r2 IH2 | r1 IH1 r2 IH2
                 | lo hi greedy r IH | n r IH | n | | | back r IH];
    cbn [barred atom_test]; intros Hg; try contradiction; intros st k e; cbn [m].
  - now apply Hone.
  - now apply Hone.
  - now apply Hone.
  - now apply Hone.
  - intros H. destruct Hg as [[H1 H2]|[H1 H2]].
    + apply (IH1 H1) in H as (st1 & (m1 & E1 & G1) & H).
      apply (all_gap_through ic r2 H2) in H as (st2 & (m2 & E2 & G2) & H).
      exists st2. split; [|exact H]. exists (m1 ++ m2).
      rewrite E1, E2, <- app_assoc. split; [reflexivity|]. now apply gap_app_l.
    + apply (all_gap_through ic r1 H1) in H as (st1 & (m1 & E1 & G1) & H).
      apply (IH2 H2) in H as (st2 & (m2 & E2 & G2) & H).
      exists st2. split; [|exact H]. exists (m1 ++ m2).
      rewrite E1, E2, <- app_assoc. split; [reflexivity|]. now apply gap_app_r.
Qed.

Lemma related_sym (x y : str) : related U x y -> related U y x.
Proof.
  induction 1 as [x|x y H|x y z _ IH1 _ IH2].
  - apply related_refl.
  - apply related_edit. now apply edit_sym.
  - now apply related_trans with y.
Qed.

Lemma related_app (p x y : str) : related U x y -> related U (p ++ x) (p ++ y).
Proof.
  induction 1 as [x|x y H|x y z _ IH1 _ IH2].
  - apply related_refl.
  - apply related_edit. now apply edit_app.
  - now apply related_trans with (p ++ y).
Qed.

(** Replacing gaps by a gap gives a related text. *)
Lemma sub_loop_related (P : pattern) (v : str) :
  barred U (p_ic P) (p_re P) -> gap U v ->
  forall fuel n ma pre suf,
    related U suf (sub_loop U fuel P (expand [TLit v]) 0 n ma pre suf).
Proof.
  intros HP Hv. induction fuel as [|fuel IH]; intros n ma pre suf; cbn [sub_loop];
    [apply related_refl|].
  cbn [Nat.eqb negb andb].
  destruct (scan U P ma pre suf) as [mt|] eqn:S; [|apply related_refl].
  apply scan_start in S as (sk & E & _ & Ht). unfold try_at in Ht.
  apply (barred_through _ _ HP) in Ht as (st' & (mid & Em & Hmid) & Hacc).
  unfold accept in Hacc. destruct (_ && _) in Hacc; [discriminate|].
  injection Hacc as ->. cbn [m_suf] in Em.
  rewrite (skipped_prefix suf mt sk E), expand_lit.
  set (tail := sub_loop _ _ _ _ _ _ _ _ _).
  rewrite E, Em. apply related_trans with (sk ++ v ++ m_suf (mt_end mt)).
  - apply related_edit. now exists sk, mid, v, (m_suf (mt_end mt)).
  - rewrite !(app_assoc sk). apply related_app. apply IH.
Qed.

Lemma space_gapchar c : cat_test U CatSpace c = true -> gapchar U c = true.
Proof. cbn [cat_test]. unfold gapchar. now intros ->. Qed.

Lemma comma_barrier c : lit_test U false 44 c = true -> is_barrier c = true.
Proof. change (lit_test U false 44 c) with (c =? 44). now intros ->%N.eqb_eq. Qed.

Lemma comma_gapchar c : lit_test U false 44 c = true -> gapchar U c = true.
Proof. intros H%comma_barrier. unfold gapchar. rewrite H. apply orb_true_r. Qed.

Lemma bar_slash_barrier c : cls_test U false false (chars "|/") c = true -> is_barrier c = true.
Proof.
  unfold cls_test. change (chars "|/") with [CChar 124; CChar 47].
  cbn [andb existsb item_test xorb orb].
  intros H. apply orb_true_iff in H as [H|H]; [|apply orb_true_iff in H as [H|H]];
    try discriminate; apply N.eqb_eq in H; now subst.
Qed.

Lemma comma_space_gap : gap U (lit ", ").
Proof.
  change (lit ", ") with [44; 32]. split.
  - now repeat constructor.
  - now constructor.
Qed.

Lemma delims_related (s : str) : related U s (_normalize_delims U s).
Proof.
  unfold _normalize_delims.
  set (P1 := Pattern false (seq [star ws; Cls false (chars "|/"); star ws])).
  set (P2 := Pattern false (seq [star ws; Lit 44; star ws; plus (Lit 44); star ws])).
  apply related_trans with (sub U P1 [TLit (lit ", ")] s).
  - unfold sub, sub_count, sub_with. apply sub_loop_related; [|exact comma_space_gap].
    unfold P1. cbn [p_ic p_re seq barred all_gap star plus ws atom_test]. right.
    split; [exact space_gapchar|]. left. split; [exact bar_slash_barrier|exact space_gapchar].
  - unfold sub at 2. unfold sub_count, sub_with.
    apply sub_loop_related; [|exact comma_space_gap].
    unfold P2. cbn [p_ic p_re seq barred all_gap star plus ws atom_test]. right.
    split; [exact space_gapchar|]. left. split; [exact comma_barrier|].
    repeat split; first [exact space_gapchar | exact comma_gapchar].
Qed.
End Delims.

(** ** Dimension extraction on related texts *)

Section Dimensions.
Variable U : runtime.
Hypothesis HU : unicode_facts U.

Lemma seq_head_refuses ic a b st k :
  ws_free U ic a -> nonnull a = true -> at_gap U (m_suf st) ->
  m U ic (Seq a b) st k = None.
Proof. intros Ha Hn Hg. cbn [m]. apply ws_free_refuses; auto. Qed.

Lemma inch_refuses st k : at_gap U (m_suf st) -> m U true (p_re _RE_DIM_INCH) st k = None.
Proof.
  intros Hg. unfold _RE_DIM_INCH. cbn [p_re seq].
  apply seq_head_refuses; [exact (ws_free_number U HU)|reflexivity|exact Hg].
Qed.

Lemma cm_refuses st k : at_gap U (m_suf st) -> m U true (p_re _RE_DIM_CM) st k = None.
Proof.
  intros Hg. unfold _RE_DIM_CM. cbn [p_re seq].
  apply seq_head_refuses; [exact (ws_free_number U HU)|reflexivity|exact Hg].
Qed.

Lemma opt_head_refuses ic h t b st k :
  ws_free U ic h -> nonnull h = true -> at_gap U (m_suf st) ->
  (forall s, m_suf s = m_suf st -> m U ic b s k = None) ->
  m U ic (Seq (opt (Seq h t)) b) st k = None.
Proof.
  intros Hh Hn Hg Hb. unfold opt. cbn [m].
  apply rep_loop_refuses with (nb := true) (U := U).
  - intros st' k' Hg' _. apply ws_free_refuses; auto.
  - exact Hg.
  - right. exact Hb.
Qed.

Lemma thick_refuses st k : at_gap U (m_suf st) -> m U true (p_re _RE_THICK) st k = None.
Proof.
  intros Hg. unfold _RE_THICK. cbn [p_re seq].
  apply opt_head_refuses; [apply (ws_free_words U HU)|reflexivity|exact Hg|].
  intros s Hs. apply seq_head_refuses;
    [exact (ws_free_number U HU)|reflexivity|now rewrite Hs].
Qed.

Lemma sub_count_once (Q : pattern) (v s : str) :
  sub_count U Q [TLit v] s 1
  = match search U Q s with
    | None => s
    | Some mt => skipped s mt ++ v ++ m_suf (mt_end mt)
    end.
Proof.
  unfold sub_count, sub_with, search.
  replace (2 * length s + 2)%nat with (S (S (2 * length s))) by lia.
  cbn [sub_loop]. change (negb (1 =? 0)%nat && negb (0 <? 1)%nat) with false.
  cbv beta iota. destruct (scan U Q false [] s) as [mt|]; [|reflexivity].
  change (negb (1 =? 0)%nat && negb (1 <? 1)%nat) with true. cbv beta iota.
  now rewrite expand_lit.
Qed.

Section Step.
Variable Q : pattern.
Hypothesis Qic : p_ic Q = true.
Hypothesis Qsafe : dim_safe U true (p_re Q).
Hypothesis Qrefuses : forall st k, at_gap U (m_suf st) -> m U true (p_re Q) st k = None.

Lemma same_step_related (x y : str) : related U x y -> same_step U Q x y.
Proof.
  induction 1 as [x|x y H|x y z _ IH1 _ IH2]; unfold same_step in *.
  - destruct (search U Q x); [|exact I]. split; [reflexivity|]. intros v. apply related_refl.
  - destruct H as (a & h1 & h2 & b & -> & -> & G1 & G2).
    pose proof (scan_edit U Q Qic Qsafe Qrefuses a h1 h2 b [] [] G1 G2) as H.
    unfold same_match in H. unfold search.
    destruct (scan U Q false [] (a ++ h1 ++ b)) as [m1|] eqn:S1,
             (scan U Q false [] (a ++ h2 ++ b)) as [m2|] eqn:S2; try exact H.
    destruct H as [Hc H]. split; [exact Hc|]. intros v.
    rewrite !sub_count_once. unfold search. rewrite S1, S2. apply related_edit, H.
  - destruct (search U Q x), (search U Q y), (search U Q z); try contradiction; try exact I.
    destruct IH1 as [C1 R1], IH2 as [C2 R2]. split; [congruence|]. intros v.
    eapply related_trans; [apply R1|apply R2].
Qed.
End Step.
End Dimensions.

Section Final.
Variable U : runtime.
Hypothesis HU : unicode_facts U.

Lemma inch_step x y : related U x y -> same_step U _RE_DIM_INCH x y.
Proof.
  apply same_step_related; [reflexivity|exact (dim_safe_inch U HU)|].
  intros st k. apply (inch_refuses U HU).
Qed.

Lemma cm_step x y : related U x y -> same_step U _RE_DIM_CM x y.
Proof.
  apply same_step_related; [reflexivity|exact (dim_safe_cm U HU)|].
  intros st k. apply (cm_refuses U HU).
Qed.

Lemma thick_step x y : related U x y -> same_step U _RE_THICK x y.
Proof.
  apply same_step_related; [reflexivity|exact (dim_safe_thick U HU)|].
  intros st k. apply (thick_refuses U HU).
Qed.

Ltac stage lem :=
  match goal with
  | H : related ?V ?x ?y |- _ =>
      let S := fresh "S" in
      pose proof (lem x y H) as S; unfold same_step in S;
      match type of S with
      | match search _ ?Q _ with _ => _ end =>
          destruct (search V Q x) as [?|], (search V Q y) as [?|]; try contradiction;
          [ let Hc := fresh "Hc" in
            let R := fresh "R" in
            destruct S as [Hc R]; unfold group; rewrite Hc; cbv beta iota zeta;
            match goal with
            | |- context [sub_count V Q [TLit ?v] x 1] =>
                let x' := fresh "x" in
                let y' := fresh "y" in
                specialize (R v); clear H;
                set (x' := sub_count V Q [TLit v] x 1) in *;
                set (y' := sub_count V Q [TLit v] y 1) in *;
                clearbody x' y'
            end
          | clear S; cbv beta iota zeta ]
      end
  end.

Lemma dimensions_related (x y : str) :
  related U x y -> snd (_normalize_dimensions U x) = snd (_normalize_dimensions U y).
Proof.
  intros H. unfold _normalize_dimensions.
  generalize (∅ : gmap string str). intros d0.
  stage inch_step; stage cm_step; stage thick_step; reflexivity.
Qed.

End Final.

Ltac bools :=
  unfold between in *;
  repeat match goal with
         | H : (_ || _) = true |- _ => apply orb_true_iff in H as [H|H]
         | H : (_ && _) = true |- _ => apply andb_true_iff in H as [? ?]
         | H : (_ =? _) = true |- _ => apply N.eqb_eq in H
         | H : (_ <=? _) = true |- _ => apply N.leb_le in H
         | H : (_ <? _) = true |- _ => apply N.ltb_lt in H
         | H : (_ <? _) = false |- _ => apply N.ltb_ge in H
         end.

Lemma py_runtime_facts : unicode_facts py_runtime.
Proof.
  split; try reflexivity.
  - intros c. unfold isspace, isdecimal. cbn [py_runtime u_space u_decimal].
    destruct (c <? 128) eqn:E; [|reflexivity]. intros H.
    destruct (between 48 57 c) eqn:B; [|reflexivity]. bools; lia.
  - intros c. unfold isspace, tolower. cbn [py_runtime u_space u_lower].
    destruct (c <? 128) eqn:E; intros H.
    + destruct (between 65 90 c) eqn:B; [|reflexivity]. bools; lia.
    + unfold latin1_lower.
      destruct (between 192 214 c || between 216 222 c) eqn:B; [|reflexivity].
      unfold unicode_space in H. bools; lia.
Qed.

(** ** Inputs on which nothing is raised *)

Section Returns.
Variable U : runtime.

Lemma Forall_no_amp (s : str) :
  Forall (fun c => (c =? 38) = false) s -> has_amp s = false.
Proof.
  induction 1 as [|c s Hc _ IH]; [reflexivity|]. unfold has_amp in *. cbn [existsb].
  now rewrite IH, N.eqb_sym, Hc.
Qed.

Lemma sub_lit_no_amp (p : pattern) (v s : str) :
  has_amp v = false -> has_amp s = false -> has_amp (sub U p [TLit v] s) = false.
Proof.
  intros Hv Hs. apply Forall_no_amp. unfold sub, sub_count, sub_with.
  apply sub_loop_Forall; now apply no_amp_Forall.
Qed.

Lemma drop_boiler_no_amp (s : str) : has_amp s = false -> has_amp (_drop_boiler U s) = false.
Proof.
  unfold _drop_boiler. generalize _DROP. intros rs. revert s.
  induction rs as [|r rs IH]; intros s Hs; cbn [fold_left]; [exact Hs|].
  apply IH. now apply sub_lit_no_amp.
Qed.

Lemma delims_no_amp (s : str) : has_amp s = false -> has_amp (_normalize_delims U s) = false.
Proof. intros Hs. unfold _normalize_delims. now repeat apply sub_lit_no_amp. Qed.

Lemma strip_controls_returns (s : str) :
  has_amp s = false -> is_Some (_strip_controls U s).
Proof.
  intros Hs. unfold _strip_controls. fold (canonical U s).
  rewrite (unescape_fixed U _ (canonical_settled U s Hs)). now eexists.
Qed.

Lemma clean_description_returns (d : str) :
  has_amp d = false -> is_Some (clean_description U d).
Proof.
  intros Hd. unfold clean_description. cbv zeta.
  destruct (strip_controls_returns _ (delims_no_amp _ (drop_boiler_no_amp _ Hd))) as [x ->].
  destruct (_normalize_dimensions U x). now eexists.
Qed.

Lemma clean_creative_returns (c : option str) :
  has_amp (default [] c) = false -> is_Some (clean_creative U c).
Proof.
  intros Hc. unfold clean_creative. cbv zeta.
  assert (has_amp (strip U (default [] c)) = false) as Hs
    by (apply Forall_no_amp, strip_Forall, no_amp_Forall, Hc).
  destruct (strip_controls_returns _ Hs) as [x ->]. now eexists.
Qed.

Lemma clean_title_returns (t : option str) :
  has_amp (default [] t) = false -> is_Some (_clean_title U t).
Proof.
  intros Ht. unfold _clean_title. destruct t as [[|a t]|]; [now eexists| |now eexists].
  change (default [] (Some (a :: t))) with (a :: t) in Ht.
  destruct (strip_controls_returns _ (delims_no_amp _ Ht)) as [x ->]. now eexists.
Qed.

(** Nothing is raised on inputs without an ampersand. *)
Lemma normalize_listing_raises (t : option str) (d : str) (c : option str) :
  normalize_listing U t d c = None -> may_raise t d c = true.
Proof.
  intros H. unfold may_raise.
  destruct (has_amp (default [] t)) eqn:Ht; [reflexivity|].
  destruct (has_amp d) eqn:Hd; [reflexivity|].
  destruct (has_amp (default [] c)) eqn:Hc; [reflexivity|].
  destruct (normalize_listing_some U t d c (clean_description_returns d Hd)
              (clean_creative_returns c Hc) (clean_title_returns t Ht)) as [r Hr].
  rewrite Hr in H. discriminate.
Qed.
End Returns.

(** ** An over-long decimal reference *)

Section LongReference.
Variable U : runtime.

Lemma Forall_repeat (P : N -> Prop) (c : N) (n : nat) : P c -> Forall P (repeat c n).
Proof. intros H. induction n; cbn [repeat]; constructor; auto. Qed.

Lemma rstrip_semicolon (n : nat) :
  rstrip_chars [59] (repeat 57 n ++ [59]) = repeat 57 n.
Proof.
  unfold rstrip_chars, rstrip_by. rewrite rev_app_distr. cbn [rev app lstrip_by existsb].
  change (59 =? 59) with true. cbn [orb].
  rewrite lstrip_by_stops; [apply rev_involutive|].
  pose proof (List.Forall_rev (Forall_repeat (fun c => c = 57) 57 n eq_refl)) as H.
  destruct (rev (repeat 57 n)) as [|c r]; [exact I|].
  inversion H; subst. reflexivity.
Qed.

(** The reference pattern matches the whole of a long reference, and
    its group holds all but the ampersand. *)
Lemma charref_at_long_reference (n : nat) pre :
  (0 < n)%nat ->
  exists e, try_at U _charref false pre (long_reference n) = Some e
    /\ m_suf e = []
    /\ m_caps e = [(1%nat, 35 :: repeat 57 n ++ [59])].
Proof.
  intros Hn. unfold try_at, _charref, long_reference.
  change (lit "&#") with [38; 35]. change (lit ";") with [59].
  cbn [p_ic p_re app]. cbn [m seq]. unfold one at 1. cbn [m_suf].
  change (lit_test U false 38 38) with true. cbv iota.
  unfold one at 1. cbn [step m_suf]. change (lit_test U false 35 35) with true. cbv iota.
  unfold step. cbn [m_suf m_pre m_caps].
  set (st0 := MState pre (38 :: 35 :: repeat 57 n ++ [59]) []).
  set (st1 := MState (38 :: pre) (35 :: repeat 57 n ++ [59]) []).
  set (st2 := MState (35 :: 38 :: pre) (repeat 57 n ++ [59]) []).
  set (K := fun st' : mstate => m U false (opt (Lit 59)) st' _).
  set (e := MState (59 :: rev (repeat 57 n) ++ 35 :: 38 :: pre) []
              [(1%nat, 35 :: repeat 57 n ++ [59])]).
  assert (m U false (plus (Cls false [ascii_digit])) st2 K = Some e) as ->.
  { unfold plus. cbn [m].
    change (m U false (Cls false [ascii_digit]))
      with (one (cls_test U false false [ascii_digit])).
    rewrite (rep_loop_one _ 1 K (repeat 57 n) st2 [59]).
    - apply greedy_run_longest; [reflexivity|rewrite List.repeat_length; lia|].
      unfold K, after, opt. cbn [m m_suf m_pre m_caps length Nat.add rep_loop].
      cbv [Nat.ltb Nat.leb one m_suf m_pre m_caps lit_test andb orb length accept Nat.eqb
           step N.eqb Pos.eqb st2].
      rewrite (consumed_mid st1 _ (35 :: repeat 57 n ++ [59]));
        [reflexivity|cbn [m_suf]; now rewrite app_nil_r].
    - reflexivity.
    - apply Forall_repeat. reflexivity.
    - reflexivity.
    - unfold st2. cbn [m_suf]. rewrite length_app, !List.repeat_length.
      cbn [length]. lia. }
  exists e. split; [reflexivity|]. split; reflexivity.
Qed.

Lemma replace_long_reference (mt : rmatch) (n : nat) :
  (0 < int_max_str_digits U < n)%nat ->
  group mt 1 = Some (35 :: repeat 57 n ++ [59]) -> _replace_charref U mt = None.
Proof.
  intros [Hlim Hn] Hg. unfold _replace_charref. rewrite Hg.
  change (default [] (Some (35 :: repeat 57 n ++ [59]))) with (35 :: repeat 57 n ++ [59]).
  cbv zeta. destruct n as [|n]; [lia|].
  change (repeat 57 (S n) ++ [59]) with (57 :: (repeat 57 n ++ [59])). cbv iota beta.
  change ((57 =? 120) || (57 =? 88)) with false. cbv iota.
  change (57 :: (repeat 57 n ++ [59])) with (repeat 57 (S n) ++ [59]).
  rewrite rstrip_semicolon. unfold int_dec. rewrite List.repeat_length.
  destruct (Nat.ltb_spec 0 (int_max_str_digits U)); [|lia].
  destruct (Nat.ltb_spec (int_max_str_digits U) (S n)); [reflexivity|lia].
Qed.

(** html.unescape raises on a decimal reference of more digits than
    the limit. *)
Lemma unescape_long_reference (n : nat) :
  (0 < int_max_str_digits U < n)%nat -> unescape U (long_reference n) = None.
Proof.
  intros Hn. unfold unescape.
  assert (existsb (N.eqb 38) (long_reference n) = true) as -> by reflexivity.
  unfold sub_with_raising.
  replace (2 * length (long_reference n) + 2)%nat
    with (S (2 * length (long_reference n) + 1)) by lia.
  cbn [sub_loop_raising Nat.eqb negb andb].
  destruct (charref_at_long_reference n [] ltac:(lia)) as (e & Ht & Hsuf & Hcaps).
  rewrite (scan_hit U _charref _ _ _ _ Ht).
  rewrite (replace_long_reference _ n Hn); [reflexivity|].
  cbn [group mt_end]. now rewrite Hcaps.
Qed.

(** So do the scrubber and the steps that use it. *)
Lemma strip_controls_long_reference (n : nat) :
  (0 < int_max_str_digits U < n)%nat -> _strip_controls U (long_reference n) = None.
Proof.
  intros Hn. unfold _strip_controls. change (lit " ") with [32].
  assert (Forall (fun c => is_control c = false /\ is_bad_tok c = false) (long_reference n))
    as H.
  { unfold long_reference. repeat apply Forall_app_2; try (repeat constructor).
    apply Forall_repeat. split; reflexivity. }
  rewrite no_control_fixed by (eapply Forall_impl; [exact H|cbn beta; tauto]).
  rewrite no_bad_tok_fixed by (eapply Forall_impl; [exact H|cbn beta; tauto]).
  now rewrite (unescape_long_reference n Hn).
Qed.

Lemma strip_long_reference (n : nat) : strip U (long_reference n) = long_reference n.
Proof.
  unfold strip. rewrite lstrip_by_stops by reflexivity.
  unfold rstrip_by. rewrite lstrip_by_stops; [apply rev_involutive|].
  unfold long_reference. rewrite !rev_app_distr. reflexivity.
Qed.

Lemma clean_creative_long_reference (n : nat) :
  (0 < int_max_str_digits U < n)%nat -> clean_creative U (Some (long_reference n)) = None.
Proof.
  intros Hn. unfold clean_creative.
  change (default [] (Some (long_reference n))) with (long_reference n).
  now rewrite strip_long_reference, strip_controls_long_reference.
Qed.

(** Boilerplate removal and delimiter normalization leave the reference
    as it is: it has none of their characters. *)
Lemma starts_with_other ic (r : re) : forall (a : N) st k,
  leading r = Some a ->
  match m_suf st with [] => True | c :: _ => lit_test U ic a c = false end ->
  m U ic r st k = None.
Proof.
  induction r as [| p | | neg items | c | r1 IH1 r2 IH2 | r1 IH1 r2 IH2
                 | lo hi greedy r IH | n r IH | n | | | back r IH];
    intros a st k; cbn [leading]; try discriminate.
  - intros [= ->]. cbn [m]. unfold one. destruct (m_suf st) as [|c rest]; [reflexivity|].
    now intros ->.
  - intros Ha Hc. cbn [m]. now apply (IH1 a).
  - intros Ha Hc. cbn [m]. now apply (IH a).
Qed.

Lemma sub_starts_with_other (r : re) (a : N) tpl (s : str) :
  leading r = Some a ->
  Forall (fun c => lit_test U true a c = false) s ->
  sub U (Pattern true r) tpl s = s.
Proof.
  intros Ha H. unfold sub, sub_count, sub_with. apply sub_loop_no_match.
  intros ma pre sk suf ->. apply Forall_app in H as [_ H].
  unfold try_at. cbn [p_ic p_re]. apply (starts_with_other true r a); [exact Ha|].
  cbn [m_suf]. destruct suf as [|c rest]; [exact I|]. now inversion H.
Qed.

Lemma drop_boiler_long_reference (n : nat) :
  _drop_boiler U (long_reference n) = long_reference n.
Proof.
  assert (forall a, existsb (N.eqb a) [99; 48; 112; 119] = true ->
            Forall (fun c => lit_test U true a c = false) (long_reference n)) as H.
  { intros a Ha. unfold long_reference. repeat apply Forall_app_2.
    - cbn [existsb] in Ha.
      repeat (apply orb_true_iff in Ha as [Ha|Ha]); try discriminate;
        apply N.eqb_eq in Ha; subst a; repeat constructor.
    - apply Forall_repeat. cbn [existsb] in Ha.
      repeat (apply orb_true_iff in Ha as [Ha|Ha]); try discriminate;
        apply N.eqb_eq in Ha; subst a; reflexivity.
    - cbn [existsb] in Ha.
      repeat (apply orb_true_iff in Ha as [Ha|Ha]); try discriminate;
        apply N.eqb_eq in Ha; subst a; repeat constructor. }
  unfold _drop_boiler, _DROP. cbn [fold_left].
  rewrite (sub_starts_with_other (word "customer service") 99)
    by (reflexivity || now apply H).
  rewrite (sub_starts_with_other (seq [Lit 48; star ws; word "risk purchase"]) 48)
    by (reflexivity || now apply H).
  rewrite (sub_starts_with_other (word "perfect shopping experience") 112)
    by (reflexivity || now apply H).
  rewrite (sub_starts_with_other
             (seq [word "contact us"; Rep 0 None false Any; word "purchase"]) 99)
    by (reflexivity || now apply H).
  now rewrite (sub_starts_with_other
                 (seq [word "we will do our best"; Rep 0 None false Any; word "satisfied"])
                 119)
    by (reflexivity || now apply H).
Qed.

Lemma delims_long_reference (n : nat) :
  _normalize_delims U (long_reference n) = long_reference n.
Proof.
  assert (Forall (fun c => is_barrier c = false) (long_reference n)) as Hs.
  { unfold long_reference. repeat apply Forall_app_2; try (repeat constructor).
    now apply Forall_repeat. }
  assert (forall P, barred U (p_ic P) (p_re P) ->
            sub U P [TLit (lit ", ")] (long_reference n) = long_reference n) as Hsub.
  { intros P HP. unfold sub, sub_count, sub_with. apply sub_loop_no_match.
    intros ma pre sk suf E. rewrite E in Hs. apply Forall_app in Hs as [_ Hs].
    destruct (try_at U P ma pre suf) as [e|] eqn:Ht; [|reflexivity]. exfalso.
    unfold try_at in Ht.
    apply (barred_through U _ _ HP) in Ht as (st' & (mid & Em & _ & Hb) & _).
    cbn [m_suf] in Em. rewrite Em in Hs. apply Forall_app in Hs as [Hs _].
    apply Exists_exists in Hb as (c & Hin & Hc). rewrite Forall_forall in Hs.
    rewrite (Hs c Hin) in Hc. discriminate. }
  unfold _normalize_delims. rewrite Hsub.
  - apply Hsub. cbn [p_ic p_re seq barred all_gap star plus ws atom_test]. right.
    split; [exact (space_gapchar U)|]. left. split; [exact (comma_barrier U)|].
    repeat split; first [exact (space_gapchar U) | exact (comma_gapchar U)].
  - cbn [p_ic p_re seq barred all_gap star plus ws atom_test]. right.
    split; [exact (space_gapchar U)|]. left.
    split; [exact (bar_slash_barrier U)|exact (space_gapchar U)].
Qed.

Lemma clean_description_long_reference (n : nat) :
  (0 < int_max_str_digits U < n)%nat -> clean_description U (long_reference n) = None.
Proof.
  intros Hn. unfold clean_description. cbv zeta.
  now rewrite drop_boiler_long_reference, delims_long_reference,
    strip_controls_long_reference.
Qed.

(** With no title, a long reference as the description or as the
    creative text makes normalize_listing raise. *)
Lemma normalize_listing_long_reference (n : nat) :
  (0 < int_max_str_digits U < n)%nat ->
  normalize_listing U None (long_reference n) None = None
  /\ normalize_listing U None [] (Some (long_reference n)) = None.
Proof.
  intros Hn. unfold normalize_listing. split.
  - now rewrite clean_description_long_reference.
  - destruct (clean_description_returns U [] eq_refl) as [[clean dims] ->].
    now rewrite clean_creative_long_reference.
Qed.
End LongReference.

(** ** re.sub, piece by piece *)

Section SubPieces.
Variable U : runtime.
Variable p : pattern.

Lemma misses_nil rest : misses U p [] rest.
Proof. intros sk1 c sk2 H. now destruct sk1. Qed.

Lemma misses_cons ma pre c sk rest :
  try_at U p ma pre (c :: sk ++ rest) = None -> misses U p sk rest ->
  misses U p (c :: sk) rest.
Proof.
  intros H Hm sk1 d sk2 E. destruct sk1 as [|c' sk1]; cbn [app] in E.
  - injection E as <- <-. now exists ma, pre.
  - injection E as <- ->. now apply (Hm sk1 d sk2).
Qed.

(** What re.search finds: the positions before the match were tried in
    vain. *)
Lemma scan_found suf : forall ma pre mt,
  scan U p ma pre suf = Some mt ->
  exists sk, suf = sk ++ m_suf (mt_start mt)
    /\ misses U p sk (m_suf (mt_start mt))
    /\ mt_start mt = MState (rev sk ++ pre) (m_suf (mt_start mt)) []
    /\ try_at U p (ma && (length sk =? 0)%nat) (rev sk ++ pre) (m_suf (mt_start mt))
       = Some (mt_end mt).
Proof.
  induction suf as [|c suf IH]; intros ma pre mt; rewrite scan_eq.
  - destruct (try_at U p ma pre []) as [e|] eqn:E; [|discriminate].
    intros [= <-]. exists []. cbn [app rev mt_start mt_end m_suf length Nat.eqb].
    rewrite andb_true_r. repeat split; [apply misses_nil|exact E].
  - destruct (try_at U p ma pre (c :: suf)) as [e|] eqn:E.
    + intros [= <-]. exists []. cbn [app rev mt_start mt_end m_suf length Nat.eqb].
      rewrite andb_true_r. repeat split; [apply misses_nil|exact E].
    + intros H. apply IH in H as (sk & Es & Hm & Hst & Ht). exists (c :: sk).
      cbn [app rev length Nat.eqb]. rewrite andb_false_r, <- app_assoc. cbn [app].
      rewrite andb_false_l in Ht. repeat split; try assumption.
      * now rewrite Es at 1.
      * apply (misses_cons ma pre); [now rewrite <- Es|exact Hm].
Qed.

(** Nothing found: every position was tried in vain. *)
Lemma scan_nothing suf : forall ma pre,
  scan U p ma pre suf = None -> misses U p suf [].
Proof.
  induction suf as [|c suf IH]; intros ma pre; rewrite scan_eq; [intros _; apply misses_nil|].
  destruct (try_at U p ma pre (c :: suf)) as [e|] eqn:E; [discriminate|].
  intros H. apply (misses_cons ma pre); [now rewrite app_nil_r|]. now apply IH in H.
Qed.

(** Tried in vain everywhere: nothing found. *)
Lemma scan_in_vain suf : forall ma pre,
  (forall ma' pre' sk suf', suf = sk ++ suf' -> try_at U p ma' pre' suf' = None) ->
  scan U p ma pre suf = None.
Proof.
  induction suf as [|c suf IH]; intros ma pre H; rewrite scan_eq.
  - now rewrite (H ma pre [] []).
  - rewrite (H ma pre [] (c :: suf)) by reflexivity. apply IH.
    intros ma' pre' sk suf' ->. now apply (H ma' pre' (c :: sk)).
Qed.

(** A relation between a text and what re.sub makes of it holds when it
    holds where nothing is found and is kept by one replacement. *)
Lemma sub_loop_rel (repl : rmatch -> str) (R : str -> str -> Prop) :
  (forall s, misses U p s [] -> R s s) ->
  (forall sk mt out ma pre,
      misses U p sk (m_suf (mt_start mt)) ->
      mt_start mt = MState pre (m_suf (mt_start mt)) [] ->
      try_at U p ma pre (m_suf (mt_start mt)) = Some (mt_end mt) ->
      R (m_suf (mt_end mt)) out ->
      R (sk ++ m_suf (mt_start mt)) (sk ++ repl mt ++ out)) ->
  forall fuel n (ma : bool) pre suf, (2 * length suf + (if ma then 0 else 1) < fuel)%nat ->
    R suf (sub_loop U fuel p repl 0 n ma pre suf).
Proof.
  intros Hbase Hstep. induction fuel as [|fuel IH]; intros n ma pre suf Hf; [lia|].
  cbn [sub_loop Nat.eqb negb andb].
  destruct (scan U p ma pre suf) as [mt|] eqn:S.
  - apply scan_found in S as (sk & E & Hm & Hst & Ht).
    rewrite (skipped_prefix suf mt sk E). rewrite E at 1.
    apply (Hstep sk mt _ _ _ Hm Hst Ht). apply IH.
    pose proof (try_at_reaches U p _ _ _ _ Ht) as Hr. apply reaches_length in Hr.
    cbn [m_suf] in Hr.
    assert (length suf = length sk + length (m_suf (mt_start mt)))%nat as El
      by (rewrite E at 1; apply length_app).
    unfold was_empty. destruct (Nat.eqb_spec (length (m_suf (mt_end mt)))
                                  (length (m_suf (mt_start mt)))) as [Eq|Ne].
    + unfold try_at, accept in Ht.
      destruct ma; [|lia]. destruct sk as [|c sk]; [|cbn [length] in El; lia].
      exfalso. cbn [length Nat.eqb andb] in Ht.
      apply m_forward in Ht as (st' & _ & Ht).
      destruct (_ =? _)%nat eqn:E'; [discriminate|]. injection Ht as ->.
      cbn [m_suf] in E'. apply Nat.eqb_neq in E'. lia.
    + destruct ma; lia.
  - apply Hbase. now apply scan_nothing in S.
Qed.

Lemma sub_rel (tpl : list titem) (R : str -> str -> Prop) :
  (forall s, misses U p s [] -> R s s) ->
  (forall sk mt out ma pre,
      misses U p sk (m_suf (mt_start mt)) ->
      mt_start mt = MState pre (m_suf (mt_start mt)) [] ->
      try_at U p ma pre (m_suf (mt_start mt)) = Some (mt_end mt) ->
      R (m_suf (mt_end mt)) out ->
      R (sk ++ m_suf (mt_start mt)) (sk ++ expand tpl mt ++ out)) ->
  forall s, R s (sub U p tpl s).
Proof.
  intros Hbase Hstep s. unfold sub, sub_count, sub_with.
  apply sub_loop_rel; [exact Hbase|exact Hstep|lia].
Qed.
End SubPieces.

(** ** What delimiter normalization leaves *)

Section DelimsOut.
Variable U : runtime.

Lemma bar_slash_cases c :
  cls_test U false false (chars "|/") c = true -> c = 124 \/ c = 47.
Proof.
  unfold cls_test. change (chars "|/") with [CChar 124; CChar 47].
  cbn [andb existsb item_test xorb orb].
  intros H. apply orb_true_iff in H as [H|H]; [|apply orb_true_iff in H as [H|H]];
    try discriminate; apply N.eqb_eq in H; auto.
Qed.

(** At a bar or a slash the first pattern of the normalizer matches. *)
Lemma bar_slash_found ma pre c rest :
  cls_test U false false (chars "|/") c = true ->
  try_at U (Pattern false (seq [star ws; Cls false (chars "|/"); star ws])) ma pre (c :: rest)
  <> None.
Proof.
  intros Hc. assert (isspace U c = false) as Hs
    by (apply bar_slash_cases in Hc as [-> | ->]; reflexivity).
  unfold try_at. cbn [p_ic p_re seq]. unfold star, ws. cbn [m].
  change (m U false (Esc CatSpace)) with (one (cat_test U CatSpace)).
  rewrite star_run by (cbn [m_suf length]; lia).
  cbn [m_suf run_of lstrip_by cat_test]. rewrite Hs. cbn [greedy_run].
  change (0 <? 0)%nat with false. cbv beta iota.
  unfold one at 1. cbn [m_suf]. rewrite Hc.
  rewrite star_run by (cbn [step m_suf length]; lia).
  cbn [step m_suf]. set (st := MState pre (c :: rest) []).
  set (st1 := MState (c :: m_pre st) rest (m_caps st)).
  destruct (run_of_split (cat_test U CatSpace) rest) as (E & _ & _).
  erewrite greedy_run_longest; [discriminate|exact E|lia|].
  unfold accept, after. cbn [m_suf]. destruct ma; [|reflexivity].
  cbn [andb]. pose proof (length_run_split (cat_test U CatSpace) rest) as L.
  unfold st. cbn [m_suf length]. destruct (Nat.eqb_spec (length (lstrip_by (cat_test U CatSpace) rest)) (S (length rest))); [lia|reflexivity].
Qed.

Lemma delims_no_bar_slash (s : str) :
  Forall (fun c => cls_test U false false (chars "|/") c = false) (_normalize_delims U s).
Proof.
  unfold _normalize_delims.
  apply sub_loop_Forall; [now repeat constructor|].
  apply (sub_rel U _ _ (fun _ out =>
           Forall (fun c => cls_test U false false (chars "|/") c = false) out)).
  - intros x Hx. apply Forall_forall. intros c Hin.
    apply list_elem_of_split in Hin as (x1 & x2 & ->).
    destruct (Hx x1 c x2 eq_refl) as (ma & pre & Ht).
    destruct (cls_test U false false (chars "|/") c) eqn:Ec; [|reflexivity].
    now apply bar_slash_found in Ht.
  - intros sk mt out ma pre Hm _ _ Hout. apply Forall_app. split.
    + apply Forall_forall. intros c Hin.
      apply list_elem_of_split in Hin as (x1 & x2 & ->).
      destruct (Hm x1 c x2 eq_refl) as (ma' & pre' & Ht).
      destruct (cls_test U false false (chars "|/") c) eqn:Ec; [|reflexivity].
      now apply bar_slash_found in Ht.
    + rewrite expand_lit. apply Forall_app. split; [now repeat constructor|exact Hout].
Qed.

(** Without a bar, a slash or a comma there is nothing to normalize. *)
Lemma delims_fixed (s : str) :
  Forall (fun c => is_barrier c = false) s -> _normalize_delims U s = s.
Proof.
  intros Hs. unfold _normalize_delims.
  assert (forall P, barred U (p_ic P) (p_re P) -> sub U P [TLit (lit ", ")] s = s) as Hsub.
  { intros P HP. unfold sub, sub_count, sub_with. apply sub_loop_no_match.
    intros ma pre sk suf ->. apply Forall_app in Hs as [_ Hs].
    destruct (try_at U P ma pre suf) as [e|] eqn:Ht; [|reflexivity]. exfalso.
    unfold try_at in Ht. apply (barred_through U _ _ HP) in Ht as (st' & (mid & E & _ & Hb) & _).
    cbn [m_suf] in E. rewrite E in Hs. apply Forall_app in Hs as [Hs _].
    apply Exists_exists in Hb as (c & Hin & Hc). rewrite Forall_forall in Hs.
    rewrite (Hs c Hin) in Hc. discriminate. }
  rewrite Hsub.
  - apply Hsub. cbn [p_ic p_re seq barred all_gap star plus ws atom_test]. right.
    split; [exact (space_gapchar U)|]. left. split; [exact (comma_barrier U)|].
    repeat split; first [exact (space_gapchar U) | exact (comma_gapchar U)].
  - cbn [p_ic p_re seq barred all_gap star plus ws atom_test]. right.
    split; [exact (space_gapchar U)|]. left.
    split; [exact (bar_slash_barrier U)|exact (space_gapchar U)].
Qed.
End DelimsOut.

(** ** The white space the scrubber leaves *)

Section ScrubOut.
Variable U : runtime.

Lemma rstrip_by_stopped (drop : N -> bool) (s : str) : stops drop (rev (rstrip_by drop s)).
Proof. unfold rstrip_by. rewrite rev_involutive. apply lstrip_by_stopped. Qed.

Lemma rstrip_by_stops (drop : N -> bool) (s : str) :
  stops drop s -> stops drop (rstrip_by drop s).
Proof.
  destruct s as [|d s]; [intros _; exact I|]. cbn [stops]. intros Hd.
  now rewrite rstrip_by_cons.
Qed.

(** str.strip leaves no white space at either end. *)
Lemma strip_ends (s : str) :
  stops (isspace U) (strip U s) /\ stops (isspace U) (rev (strip U s)).
Proof.
  unfold strip. split; [|apply rstrip_by_stopped].
  apply rstrip_by_stops, lstrip_by_stopped.
Qed.

Lemma scrub_tidy (s x : str) :
  _strip_controls U s = Some x ->
  tidy (isspace U) x = true /\ stops (isspace U) x /\ stops (isspace U) (rev x).
Proof.
  unfold _strip_controls. destruct (unescape U _) as [z|]; [|discriminate].
  intros [= <-]. change (lit " ") with [32]. rewrite sub_ws. split; [|apply strip_ends].
  apply strip_tidy. apply squeeze_tidy.
Qed.
End ScrubOut.

(** ** What an expression without groups consumes *)

Section Consumes.
Variable U : runtime.
Variable ic : bool.

Lemma consumes_one test :
  consumes (fun mid => exists c, mid = [c] /\ test c = true) (one test).
Proof.
  intros st k e. unfold one. destruct (m_suf st) as [|c rest] eqn:E; [discriminate|].
  destruct (test c) eqn:Ec; [|discriminate]. intros H. exists [c], rest.
  split; [reflexivity|]. split; [now exists c|exact H].
Qed.

Lemma consumes_atom r test :
  atom_test U ic r = Some test ->
  consumes (fun mid => exists c, mid = [c] /\ test c = true) (m U ic r).
Proof. intros H. rewrite (m_atom U ic r test H). apply consumes_one. Qed.

Lemma consumes_seq P Q a b :
  consumes P (m U ic a) -> consumes Q (m U ic b) ->
  consumes (fun mid => exists x y, mid = x ++ y /\ P x /\ Q y) (m U ic (Seq a b)).
Proof.
  intros Ha Hb st k e. cbn [m]. intros H.
  apply Ha in H as (x & rest1 & E1 & Px & H).
  apply Hb in H as (y & rest & E2 & Qy & H). cbn [m_suf m_pre m_caps] in *.
  exists (x ++ y), rest. rewrite E1, E2, <- app_assoc. split; [reflexivity|].
  split; [now exists x, y|]. now rewrite rev_app_distr, <- app_assoc.
Qed.

Lemma consumes_weaken (P Q : str -> Prop) f :
  (forall mid, P mid -> Q mid) -> consumes P f -> consumes Q f.
Proof.
  intros HPQ Hf st k e H. apply Hf in H as (mid & rest & E & Hp & H).
  exists mid, rest. auto.
Qed.

(** A repeat: as many pieces as rounds, within the bounds. *)
Lemma consumes_rep_loop P body lo hi greedy k :
  consumes P body ->
  forall fuel n st e, rep_loop body lo hi greedy k fuel n st = Some e ->
    exists j mid rest, m_suf st = mid ++ rest /\ pieces P j mid
      /\ (lo <= n + j)%nat
      /\ (j = 0%nat \/ match hi with Some h => (n + j <= Nat.max lo h)%nat | None => True end)
      /\ k (MState (rev mid ++ m_pre st) rest (m_caps st)) = Some e.
Proof.
  intros Hb. induction fuel as [|fuel IH]; intros n st e; cbn [rep_loop]; [discriminate|].
  set (again := body st _).
  assert (forall e, again = Some e ->
            ((n <? lo)%nat = true \/ match hi with Some h => (n <? h)%nat | None => true end = true) ->
            exists j mid rest, m_suf st = mid ++ rest /\ pieces P j mid
              /\ (lo <= n + j)%nat
              /\ (j = 0%nat \/ match hi with Some h => (n + j <= Nat.max lo h)%nat | None => True end)
              /\ k (MState (rev mid ++ m_pre st) rest (m_caps st)) = Some e) as Hagain.
  { intros e' He Hn. apply Hb in He as (x & rest1 & E1 & Px & Hk).
    destruct (_ || _); [|discriminate].
    apply IH in Hk as (j & y & rest & E2 & Hy & Hlo & Hhi & Hk).
    cbn [m_suf m_pre m_caps] in *. exists (S j), (x ++ y), rest.
    rewrite E1, E2, <- app_assoc. split; [reflexivity|].
    split; [now exists x, y|]. split; [lia|].
    split; [|now rewrite rev_app_distr, <- app_assoc].
    right. destruct hi as [h|]; [|exact I].
    destruct Hhi as [-> | Hhi]; [|lia].
    destruct Hn as [Hn|Hn]; apply Nat.ltb_lt in Hn; lia. }
  assert (forall e, k st = Some e -> (n <? lo)%nat = false ->
            exists j mid rest, m_suf st = mid ++ rest /\ pieces P j mid
              /\ (lo <= n + j)%nat
              /\ (j = 0%nat \/ match hi with Some h => (n + j <= Nat.max lo h)%nat | None => True end)
              /\ k (MState (rev mid ++ m_pre st) rest (m_caps st)) = Some e) as Hstop.
  { intros e' He Hn. exists 0%nat, [], (m_suf st). apply Nat.ltb_ge in Hn.
    split; [reflexivity|]. split; [reflexivity|]. split; [lia|]. split; [now left|].
    cbn [rev app]. now destruct st. }
  destruct (n <? lo)%nat eqn:Hlo; [intros H; apply Hagain; auto|].
  destruct greedy.
  - destruct (match hi with Some h => (n <? h)%nat | None => true end) eqn:Hm.
    + destruct again as [e'|]; [intros [= <-]; now apply Hagain; auto | intros H; now apply Hstop].
    + intros H; now apply Hstop.
  - destruct (k st) as [e'|] eqn:Ek; [intros [= <-]; now apply Hstop|].
    destruct (match hi with Some h => (n <? h)%nat | None => true end) eqn:Hm;
      [intros H; apply Hagain; auto|discriminate].
Qed.

Lemma consumes_rep P lo hi greedy a :
  consumes P (m U ic a) ->
  consumes (fun mid => exists j, pieces P j mid /\ (lo <= j)%nat
              /\ (j = 0%nat \/ match hi with Some h => (j <= Nat.max lo h)%nat | None => True end))
    (m U ic (Rep lo hi greedy a)).
Proof.
  intros Ha st k e. cbn [m]. intros H.
  apply (consumes_rep_loop P _ _ _ _ _ Ha) in H as (j & mid & rest & E & Hp & Hlo & Hhi & H).
  exists mid, rest. split; [exact E|]. split; [|exact H]. exists j. auto.
Qed.
End Consumes.

(** ** Numerals *)

Section Numerals.
Variable U : runtime.

Lemma run_of_app test (a b : str) :
  Forall (fun c => test c = true) a -> stops test b ->
  run_of test (a ++ b) = a /\ lstrip_by test (a ++ b) = b.
Proof.
  intros Ha Hb. induction Ha as [|c a Hc Ha IH]; cbn [app run_of lstrip_by].
  - destruct b as [|d b]; [now split|]. cbn [stops] in Hb. cbn [run_of lstrip_by].
    now rewrite Hb.
  - rewrite Hc. destruct IH as [-> ->]. now split.
Qed.

Lemma pieces_chars test : forall j (mid : str),
  pieces (fun x => exists c, x = [c] /\ test c = true) j mid ->
  length mid = j /\ Forall (fun c => test c = true) mid.
Proof.
  induction j as [|j IH]; intros mid; cbn [pieces].
  - intros ->. now split.
  - intros (x & y & -> & (c & -> & Hc) & Hy). apply IH in Hy as [<- Hy].
    split; [reflexivity|]. now constructor.
Qed.

Lemma lit_dot ic c : lit_test U ic 46 c = (c =? 46).
Proof. unfold lit_test. now destruct ic. Qed.

Lemma is_numeral_intro (a b : str) :
  a <> [] -> Forall (fun c => isdecimal U c = true) a ->
  (b = [] \/ exists f, b = 46 :: f /\ f <> [] /\ Forall (fun c => isdecimal U c = true) f) ->
  is_numeral U (a ++ b) = true.
Proof.
  intros Ha Hd Hb. unfold is_numeral.
  assert (stops (isdecimal U) b) as Hs.
  { destruct Hb as [-> | (f & -> & _)]; [exact I|reflexivity]. }
  destruct (run_of_app (isdecimal U) a b Hd Hs) as [-> ->].
  destruct a as [|c a]; [contradiction|]. cbn [negb andb].
  destruct Hb as [-> | (f & -> & Hf & Hfd)]; [reflexivity|].
  destruct f as [|d f]; [contradiction|]. cbn [negb andb N.eqb Pos.eqb].
  apply forallb_forall. now apply List.Forall_forall.
Qed.

(** The number of the dimension patterns consumes a numeral. *)
Lemma consumes_number ic :
  consumes (fun mid => is_numeral U mid = true) (m U ic number).
Proof.
  unfold number, plus, opt, digit.
  eapply consumes_weaken; [|apply consumes_seq].
  2: { apply consumes_rep. exact (consumes_atom U ic (Esc CatDigit) _ eq_refl). }
  2: { apply consumes_rep. apply consumes_seq.
       - exact (consumes_atom U ic (Lit 46) _ eq_refl).
       - apply consumes_rep. exact (consumes_atom U ic (Esc CatDigit) _ eq_refl). }
  cbv beta. intros mid (x & y & -> & (j & Hx & Hj & _) & (j' & Hy & _ & Hj')).
  apply pieces_chars in Hx as [Lx Hx]. apply is_numeral_intro.
  - intros ->. cbn [length] in Lx. lia.
  - exact Hx.
  - destruct j' as [|j']; [now left|]. right.
    destruct Hj' as [Hj'|Hj']; [discriminate|].
    assert (j' = 0%nat) as -> by lia. cbn [pieces] in Hy.
    destruct Hy as (z & ? & -> & (d & w & -> & (c & -> & Hc) & (i & Hw & Hi & _)) & ->).
    rewrite lit_dot in Hc. apply N.eqb_eq in Hc as ->.
    apply pieces_chars in Hw as [Lw Hw]. exists w. rewrite app_nil_r. cbn [app].
    split; [reflexivity|]. split; [|exact Hw]. intros ->. cbn [length] in Lw. lia.
Qed.
End Numerals.

(** ** What the groups of a match hold *)

Section Groups.
Variable U : runtime.
Variable ic : bool.
Variable P : str -> Prop.

Lemma grown_same r st st' :
  m_caps st' = m_caps st -> (forall n, binds n r = false) -> grown P r st st'.
Proof.
  intros E Hb. exists []. split; [exact E|]. split; [constructor|].
  intros n Hn. now rewrite Hb in Hn.
Qed.

Lemma rep_loop_grown body lo hi greedy k r :
  (forall st k e, body st k = Some e ->
     exists st', k st' = Some e /\ grown P r st st') ->
  forall fuel n st e, rep_loop body lo hi greedy k fuel n st = Some e ->
    exists st', k st' = Some e /\ grown P Eps st st'.
Proof.
  intros Hb. induction fuel as [|fuel IH]; intros n st e; cbn [rep_loop]; [discriminate|].
  set (again := body st _).
  assert (forall e, again = Some e -> exists st', k st' = Some e /\ grown P Eps st st')
    as Hagain.
  { intros e' He. apply Hb in He as (st1 & Hk & (new1 & E1 & F1 & _)).
    destruct (_ || _); [|discriminate].
    apply IH in Hk as (st2 & Hk & (new2 & E2 & F2 & _)). exists st2.
    split; [exact Hk|]. exists (new2 ++ new1). rewrite E2, E1, app_assoc.
    split; [reflexivity|]. split; [now apply Forall_app|]. intros i Hi. discriminate Hi. }
  assert (forall e, k st = Some e -> exists st', k st' = Some e /\ grown P Eps st st')
    as Hstop.
  { intros e' He. exists st. split; [exact He|]. now apply grown_same. }
  destruct (n <? lo)%nat; [apply Hagain|].
  destruct greedy.
  - destruct (match hi with Some h => (n <? h)%nat | None => true end).
    + destruct again as [e'|]; [intros [= <-]; now apply Hagain | apply Hstop].
    + apply Hstop.
  - destruct (k st) as [e'|] eqn:Ek; [intros [= <-]; now apply Hstop|].
    destruct (match hi with Some h => (n <? h)%nat | None => true end);
      [apply Hagain|discriminate].
Qed.

Lemma m_grown (r : re) : groups_ok U ic P r ->
  forall st k e, m U ic r st k = Some e -> exists st', k st' = Some e /\ grown P r st st'.
Proof.
  induction r as [| p | | neg items | c | r1 IH1 r2 IH2 | r1 IH1 r2 IH2
                 | lo hi greedy r IH | n r IH | n | | | back r IH];
    cbn [groups_ok]; intros Hg st k e; cbn [m].
  - intros H. exists st. split; [exact H|]. now apply grown_same.
  - unfold one. destruct (m_suf st) as [|c rest]; [discriminate|].
    destruct (lit_test U ic p c); [|discriminate]. intros H. eexists. split; [exact H|].
    now apply grown_same.
  - unfold one. destruct (m_suf st) as [|c rest]; [discriminate|].
    destruct (negb (c =? 10)); [|discriminate]. intros H. eexists. split; [exact H|].
    now apply grown_same.
  - unfold one. destruct (m_suf st) as [|c rest]; [discriminate|].
    destruct (cls_test U ic neg items c); [|discriminate]. intros H. eexists.
    split; [exact H|]. now apply grown_same.
  - unfold one. destruct (m_suf st) as [|d rest]; [discriminate|].
    destruct (cat_test U c d); [|discriminate]. intros H. eexists. split; [exact H|].
    now apply grown_same.
  - destruct Hg as [H1 H2]. intros H.
    apply (IH1 H1) in H as (st1 & H & (new1 & E1 & F1 & B1)).
    apply (IH2 H2) in H as (st2 & H & (new2 & E2 & F2 & B2)).
    exists st2. split; [exact H|]. exists (new2 ++ new1). rewrite E2, E1, app_assoc.
    split; [reflexivity|]. split; [now apply Forall_app|].
    intros n Hn. cbn [binds] in Hn. rewrite map_app, in_app_iff.
    apply orb_true_iff in Hn as [Hn|Hn]; auto.
  - destruct Hg as [H1 H2]. destruct (m U ic r1 st k) as [e'|] eqn:E1.
    + intros [= <-]. apply (IH1 H1) in E1 as (st1 & H & (new1 & E1 & F1 & B1)).
      exists st1. split; [exact H|]. exists new1. repeat split; try assumption.
      intros n Hn. cbn [binds] in Hn. apply andb_true_iff in Hn as [Hn _]. auto.
    + intros H. apply (IH2 H2) in H as (st2 & H & (new2 & E2 & F2 & B2)).
      exists st2. split; [exact H|]. exists new2. repeat split; try assumption.
      intros n Hn. cbn [binds] in Hn. apply andb_true_iff in Hn as [_ Hn]. auto.
  - intros H. apply (rep_loop_grown _ _ _ _ _ r (IH Hg)) in H as (st' & H & (new & E & F & _)).
    exists st'. split; [exact H|]. exists new. repeat split; try assumption.
    intros i Hi. discriminate Hi.
  - intros H. apply Hg in H as (mid & rest & E & Hp & H). eexists. split; [exact H|].
    exists [(n, consumed st (MState (rev mid ++ m_pre st) rest (m_caps st)))].
    cbn [m_caps app]. split; [reflexivity|]. split.
    + constructor; [|constructor]. cbn [snd]. now rewrite (consumed_mid _ _ mid).
    + intros i Hi. cbn [binds] in Hi. apply Nat.eqb_eq in Hi as <-. now left.
  - destruct (cap_lookup n (m_caps st)) as [g|]; [|discriminate].
    destruct (strip_prefix U ic g (m_suf st) (m_pre st)) as [[pre suf]|]; [|discriminate].
    intros H. eexists. split; [exact H|]. now apply grown_same.
  - destruct (at_word_boundary U st); [|discriminate].
    intros H. exists st. split; [exact H|]. now apply grown_same.
  - assert (k st = Some e -> exists st', k st' = Some e /\ grown P EndA st st') as Hk.
    { intros H. exists st. split; [exact H|]. now apply grown_same. }
    destruct (m_suf st) as [|c [|? ?]]; [exact Hk| |discriminate].
    destruct (c =? 10); [exact Hk|discriminate].
  - destruct (rewind back (m_pre st) (m_suf st)) as [[pre suf]|]; [|discriminate].
    destruct (m U ic r (MState pre suf (m_caps st)) Some) as [e'|] eqn:E; [|discriminate].
    apply (IH Hg) in E as (st' & [= ->] & (new & E & F & _)).
    intros H. eexists. split; [exact H|]. exists new. cbn [m_caps] in *.
    repeat split; try assumption. intros i Hi. discriminate Hi.
Qed.

Lemma cap_lookup_new n (new old : list (nat * str)) :
  Forall (fun ng => P (snd ng)) new -> In n (List.map fst new) ->
  exists g, cap_lookup n (new ++ old) = Some g /\ P g.
Proof.
  induction 1 as [|[i g] new Hg Hnew IH]; cbn [List.map In app cap_lookup fst];
    [contradiction|].
  intros Hin. destruct (Nat.eqb_spec i n) as [->|Ne]; [now exists g|].
  destruct Hin as [Hin|Hin]; [contradiction|]. now apply IH.
Qed.
End Groups.

(** A group that every match records has the property of the groups. *)
Lemma search_group U (P : str -> Prop) (p : pattern) (n : nat) (s : str) mt :
  groups_ok U (p_ic p) P (p_re p) -> binds (S n) (p_re p) = true ->
  search U p s = Some mt ->
  exists g, group mt (S n) = Some g /\ P g.
Proof.
  intros Hg Hb H. unfold search in H.
  apply scan_start in H as (sk & _ & _ & Ht). unfold try_at in Ht.
  apply (m_grown U _ P _ Hg) in Ht as (st' & Hacc & (new & E & F & B)).
  unfold accept in Hacc. destruct (_ && _); [discriminate|]. injection Hacc as ->.
  cbn [group]. rewrite E. apply cap_lookup_new; [exact F|now apply B].
Qed.

(** ** The dimensions recorded *)

Section DimValues.
Variable U : runtime.

Lemma groups_inch : groups_ok U true (fun g => is_numeral U g = true) (p_re _RE_DIM_INCH).
Proof.
  unfold _RE_DIM_INCH. cbn [p_re seq groups_ok star opt ws quote cross word].
  repeat split; try exact I; apply consumes_number.
Qed.

Lemma groups_cm : groups_ok U true (fun g => is_numeral U g = true) (p_re _RE_DIM_CM).
Proof.
  unfold _RE_DIM_CM. cbn [p_re seq groups_ok star opt ws quote cross].
  repeat split; try exact I; apply consumes_number.
Qed.

Lemma groups_thick : groups_ok U true (fun g => is_numeral U g = true) (p_re _RE_THICK).
Proof.
  unfold _RE_THICK. cbn [p_re seq groups_ok star opt ws quote cross].
  repeat split; try exact I; apply consumes_number.
Qed.

Ltac numeral_groups lem :=
  match goal with
  | |- context [match search U ?Q ?x with _ => _ end] =>
      let S := fresh "S" in
      destruct (search U Q x) as [?mt|] eqn:S;
      [ let g := fresh "g" in
        let Eg := fresh "Eg" in
        let Hg := fresh "Hg" in
        destruct (search_group U _ Q 0 x _ lem eq_refl S) as (g & Eg & Hg);
        rewrite Eg;
        try (let g' := fresh "g" in
             let Eg' := fresh "Eg" in
             let Hg' := fresh "Hg" in
             destruct (search_group U _ Q 1 x _ lem eq_refl S) as (g' & Eg' & Hg');
             rewrite Eg');
        clear S
      | clear S ];
      cbv beta iota zeta; cbn [default]
  end.

Lemma dimension_entries (s : str) (key : string) (v : str) :
  snd (_normalize_dimensions U s) !! key = Some v ->
  is_numeral U v = true
  /\ In key ["width_in"; "length_in"; "width_cm"; "length_cm"; "thickness_in"]%string.
Proof.
  unfold _normalize_dimensions.
  numeral_groups groups_inch; numeral_groups groups_cm; numeral_groups groups_thick;
    cbn [snd]; intros H;
    repeat match type of H with
           | <[_ := _]> _ !! _ = Some _ =>
               apply lookup_insert_Some in H as [[<- <-]|[_ H]];
               [split; [assumption|cbn [In]; tauto]|]
           end;
    now rewrite lookup_empty in H.
Qed.
End DimValues.

(** ** Texts without digits *)

Section NoDigits.
Variable U : runtime.

Lemma numeral_head (g : str) :
  is_numeral U g = true -> exists c rest, g = c :: rest /\ isdecimal U c = true.
Proof.
  unfold is_numeral. destruct g as [|c rest]; [discriminate|]. cbn [run_of].
  destruct (isdecimal U c) eqn:E; [|discriminate]. intros _. now exists c, rest.
Qed.

Lemma number_needs_digit ic n R st k e :
  m U ic (Seq (Grp n number) R) st k = Some e ->
  Exists (fun c => isdecimal U c = true) (m_suf st).
Proof.
  cbn [m]. intros H. apply consumes_number in H as (mid & rest & E & Hn & _).
  apply numeral_head in Hn as (c & mid' & -> & Hc). rewrite E. now left.
Qed.

Lemma later_number_needs_digit ic a n R st k e :
  m U ic (Seq a (Seq (Grp n number) R)) st k = Some e ->
  Exists (fun c => isdecimal U c = true) (m_suf st).
Proof.
  change (m U ic (Seq a (Seq (Grp n number) R)) st k)
    with (m U ic a st (fun s => m U ic (Seq (Grp n number) R) s k)).
  intros H. apply m_forward in H as (st' & (mid & E & _) & H).
  apply number_needs_digit in H. rewrite E. apply Exists_app. now right.
Qed.

Lemma no_digit_no_match (p : pattern) (s : str) :
  (forall st k e, m U (p_ic p) (p_re p) st k = Some e ->
     Exists (fun c => isdecimal U c = true) (m_suf st)) ->
  Forall (fun c => isdecimal U c = false) s -> search U p s = None.
Proof.
  intros Hp Hs. apply scan_in_vain. intros ma pre sk suf ->.
  apply Forall_app in Hs as [_ Hs].
  destruct (try_at U p ma pre suf) as [e|] eqn:Ht; [|reflexivity]. exfalso.
  apply Hp in Ht. cbn [m_suf] in Ht. apply Exists_exists in Ht as (c & Hin & Hc).
  rewrite Forall_forall in Hs. rewrite (Hs c Hin) in Hc. discriminate.
Qed.

Lemma dimensions_without_digits (s : str) :
  Forall (fun c => isdecimal U c = false) s -> _normalize_dimensions U s = (s, ∅).
Proof.
  intros Hs. unfold _normalize_dimensions.
  rewrite (no_digit_no_match _RE_DIM_INCH s); [|intros st k e; apply number_needs_digit|exact Hs].
  rewrite (no_digit_no_match _RE_DIM_CM s); [|intros st k e; apply number_needs_digit|exact Hs].
  rewrite (no_digit_no_match _RE_THICK s);
    [reflexivity|intros st k e; apply later_number_needs_digit|exact Hs].
Qed.
End NoDigits.

(** ** Expressions that consume a character *)

Section Progress.
Variable U : runtime.
Variable ic : bool.

Lemma advances_one test : advances true (one test).
Proof.
  intros st k e. unfold one. destruct (m_suf st) as [|c rest]; [discriminate|].
  destruct (test c); [|discriminate]. intros H. eexists. split; [exact H|].
  cbn [step m_suf length]. split; [lia|intros _; lia].
Qed.

Lemma advances_rep_loop body nb lo hi greedy k :
  advances nb body ->
  forall fuel n st e, rep_loop body lo hi greedy k fuel n st = Some e ->
    exists st', k st' = Some e
      /\ (length (m_suf st') <= length (m_suf st))%nat
      /\ ((n < lo)%nat -> nb = true -> (length (m_suf st') < length (m_suf st))%nat).
Proof.
  intros Hb. induction fuel as [|fuel IH]; intros n st e; cbn [rep_loop]; [discriminate|].
  set (again := body st _).
  assert (forall e, again = Some e ->
            exists st', k st' = Some e
              /\ (length (m_suf st') <= length (m_suf st))%nat
              /\ (nb = true -> (length (m_suf st') < length (m_suf st))%nat)) as Hagain.
  { intros e' He. apply Hb in He as (st1 & Hk & L1 & S1).
    destruct (_ || _); [|discriminate].
    apply IH in Hk as (st2 & Hk & L2 & _). exists st2. split; [exact Hk|].
    split; [lia|]. intros Hnb. specialize (S1 Hnb). lia. }
  destruct (n <? lo)%nat eqn:Hlo.
  - intros H. apply Hagain in H as (st' & Hk & L & S). exists st'. auto.
  - assert (forall e, k st = Some e ->
              exists st', k st' = Some e
                /\ (length (m_suf st') <= length (m_suf st))%nat
                /\ ((n < lo)%nat -> nb = true
                    -> (length (m_suf st') < length (m_suf st))%nat)) as Hstop.
    { intros e' He. exists st. split; [exact He|]. split; [lia|].
      apply Nat.ltb_ge in Hlo. lia. }
    assert (forall e, again = Some e ->
              exists st', k st' = Some e
                /\ (length (m_suf st') <= length (m_suf st))%nat
                /\ ((n < lo)%nat -> nb = true
                    -> (length (m_suf st') < length (m_suf st))%nat)) as Hagain'.
    { intros e' He. apply Hagain in He as (st' & Hk & L & S). exists st'. auto. }
    destruct greedy.
    + destruct (match hi with Some h => (n <? h)%nat | None => true end).
      * destruct again as [e'|]; [intros [= <-]; now apply Hagain' | apply Hstop].
      * apply Hstop.
    + destruct (k st) as [e'|] eqn:Ek; [intros [= <-]; now apply Hstop|].
      destruct (match hi with Some h => (n <? h)%nat | None => true end);
        [apply Hagain'|discriminate].
Qed.

Lemma m_advances (r : re) : advances (nonnull r) (m U ic r).
Proof.
  induction r as [| p | | neg items | c | r1 IH1 r2 IH2 | r1 IH1 r2 IH2
                 | lo hi greedy r IH | n r IH | n | | | back r IH];
    cbn [nonnull]; intros st k e; cbn [m].
  - intros H. exists st. split; [exact H|]. split; [lia|discriminate].
  - apply advances_one.
  - apply advances_one.
  - apply advances_one.
  - apply advances_one.
  - intros H. apply IH1 in H as (st1 & H & L1 & S1). apply IH2 in H as (st2 & H & L2 & S2).
    exists st2. split; [exact H|]. split; [lia|]. intros Hn.
    apply orb_true_iff in Hn as [Hn|Hn]; [specialize (S1 Hn)|specialize (S2 Hn)]; lia.
  - destruct (m U ic r1 st k) as [e'|] eqn:E1.
    + intros [= <-]. apply IH1 in E1 as (st1 & H & L1 & S1). exists st1.
      split; [exact H|]. split; [lia|]. intros Hn. apply andb_true_iff in Hn as [Hn _]. auto.
    + intros H. apply IH2 in H as (st2 & H & L2 & S2). exists st2.
      split; [exact H|]. split; [lia|]. intros Hn. apply andb_true_iff in Hn as [_ Hn]. auto.
  - intros H. apply (advances_rep_loop _ _ _ _ _ _ IH) in H as (st' & H & L & S).
    exists st'. split; [exact H|]. split; [lia|]. intros Hn.
    apply andb_true_iff in Hn as [Hlo Hn]. apply Nat.ltb_lt in Hlo. auto.
  - intros H. apply IH in H as (st1 & H & L & S). eexists. split; [exact H|].
    cbn [m_suf]. auto.
  - destruct (cap_lookup n (m_caps st)) as [g|]; [|discriminate].
    destruct (strip_prefix U ic g (m_suf st) (m_pre st)) as [[pre suf]|] eqn:E; [|discriminate].
    intros H. eexists. split; [exact H|]. cbn [m_suf].
    apply strip_prefix_reaches in E as (mid & -> & _). rewrite length_app.
    split; [lia|discriminate].
  - destruct (at_word_boundary U st); [|discriminate].
    intros H. exists st. split; [exact H|]. split; [lia|discriminate].
  - assert (k st = Some e -> exists st', k st' = Some e
              /\ (length (m_suf st') <= length (m_suf st))%nat
              /\ (false = true -> (length (m_suf st') < length (m_suf st))%nat)) as Hk.
    { intros H. exists st. split; [exact H|]. split; [lia|discriminate]. }
    destruct (m_suf st) as [|c [|? ?]] eqn:E; [exact Hk| |discriminate].
    destruct (c =? 10); [exact Hk|discriminate].
  - destruct (rewind back (m_pre st) (m_suf st)) as [[pre suf]|]; [|discriminate].
    destruct (m U ic r (MState pre suf (m_caps st)) Some) as [e'|]; [|discriminate].
    intros H. eexists. split; [exact H|]. cbn [m_suf]. split; [lia|discriminate].
Qed.
End Progress.

(** A match of an expression that consumes a character is not empty. *)
Lemma try_at_nonnull U (p : pattern) ma pre suf e :
  nonnull (p_re p) = true -> try_at U p ma pre suf = Some e ->
  (length (m_suf e) < length suf)%nat.
Proof.
  intros Hn H. unfold try_at in H. apply m_advances in H as (st' & H & _ & S).
  unfold accept in H. destruct (_ && _); [discriminate|]. injection H as ->.
  now apply S.
Qed.

(** ** Boilerplate removal *)

Section Boiler.
Variable U : runtime.

Lemma sub_blank_shorter (p : pattern) (s : str) :
  nonnull (p_re p) = true ->
  (length (sub U p [TLit (lit " ")] s) <= length s)%nat.
Proof.
  intros Hn.
  apply (sub_rel U p [TLit (lit " ")] (fun x out => (length out <= length x)%nat)).
  - intros x _. lia.
  - intros sk mt out ma pre _ _ Ht Hout. rewrite expand_lit.
    apply (try_at_nonnull U p _ _ _ _ Hn) in Ht.
    rewrite !length_app. cbn [lit length List.map list_ascii_of_string]. lia.
Qed.

Lemma drop_boiler_length (s : str) : (length (_drop_boiler U s) <= length s)%nat.
Proof.
  unfold _drop_boiler.
  assert (Forall (fun r => nonnull r = true) _DROP) as Hd by (repeat constructor).
  revert s. induction Hd as [|r rs Hr _ IH]; intros s; cbn [fold_left]; [lia|].
  etransitivity; [apply IH|]. now apply sub_blank_shorter.
Qed.
End Boiler.

(** ** Dimensions shown among the features *)

Section Shown.
Variable U : runtime.

Lemma numeral_truthy (v : str) : is_numeral U v = true -> truthy (Some v) = true.
Proof. intros H. apply numeral_head in H as (x & rest & -> & _). reflexivity. Qed.

Lemma item_lookup (dims : gmap string str) (key : string) (v : str) :
  dims !! key = Some v -> item dims key = v.
Proof. intros H. unfold item. unfold str in *. now rewrite H. Qed.

(** The first bullet when an inch pair is recorded. *)
Lemma size_bullet_of_dims (clean s : str) (w : str) :
  snd (_normalize_dimensions U s) !! "width_in" = Some w ->
  exists l, snd (_normalize_dimensions U s) !! "length_in" = Some l
    /\ head (bullets_of U clean (snd (_normalize_dimensions U s)))
       = Some (lit "Size: " ++ inch_text w l
               ++ match snd (_normalize_dimensions U s) !! "width_cm",
                        snd (_normalize_dimensions U s) !! "length_cm" with
                  | Some wc, Some lc => lit " (" ++ cm_text wc lc ++ lit ")"
                  | _, _ => []
                  end).
Proof.
  destruct (pairs_together U s) as [Hin Hcm].
  pose proof (fun key v H => proj1 (dimension_entries U s key v H)) as Hnum.
  cbv zeta in Hin, Hcm.
  generalize dependent (snd (_normalize_dimensions U s)). intros dims Hin Hcm Hnum Hw.
  destruct (proj1 Hin (ex_intro _ w Hw)) as [l Hl]. exists l. split; [exact Hl|].
  unfold bullets_of. rewrite (item_lookup _ _ _ Hw), (item_lookup _ _ _ Hl), Hw, Hl.
  rewrite (numeral_truthy w), (numeral_truthy l);
    [|now apply (Hnum "length_in"%string)|now apply (Hnum "width_in"%string)].
  cbn [andb].
  destruct (dims !! "width_cm") as [wc|] eqn:Hwc.
  - destruct (proj1 Hcm (ex_intro _ wc eq_refl)) as [lc Hlc]. rewrite Hlc.
    rewrite (numeral_truthy wc), (numeral_truthy lc);
      [|now apply (Hnum "length_cm"%string)|now apply (Hnum "width_cm"%string)].
    rewrite (item_lookup _ _ _ Hwc), (item_lookup _ _ _ Hlc).
    cbn [andb app head]. reflexivity.
  - cbn [truthy andb app head]. now rewrite app_nil_r.
Qed.

(** The thickness bullet when a thickness is recorded. *)
Lemma thickness_bullet_of_dims (clean s : str) (t : str) :
  snd (_normalize_dimensions U s) !! "thickness_in" = Some t ->
  In (lit "Thickness: " ++ t ++ [c_dquote] ++ lit " (low profile)")
     (bullets_of U clean (snd (_normalize_dimensions U s))).
Proof.
  intros Ht. pose proof (proj1 (dimension_entries U s _ _ Ht)) as Hn.
  generalize dependent (snd (_normalize_dimensions U s)). intros dims Ht.
  unfold bullets_of. rewrite (item_lookup _ _ _ Ht), Ht, (numeral_truthy t Hn).
  apply in_or_app. right. apply in_or_app. left. now left.
Qed.
End Shown.

(** ** The claims *)

(** The parts of a returned pair, for evaluation. *)
Lemma returned_parts {A B : Type} (o : option (A * B)) (a : A) (b : B) (dflt : A * B) :
  o = Some (a, b) -> a = fst (default dflt o) /\ b = snd (default dflt o).
Proof. now intros ->. Qed.

(** C1, as the code behaves.  On the description
    [Size 24in x 36in (60cm x 90cm), thickness 0.2 inch] (inches written
    with the double quote) the inch and centimetre pairs are found as the
    claim says, but the thickness scan runs on the text already rewritten
    to [24in x 36in ...] and stops at its first number followed by a
    quote: thickness_in is 24, not 0.2, and the Thickness bullet says 24.
    This holds of every listing returned for that description, and one is
    returned unless the title or the creative text holds an ampersand. *)
Theorem C1_thickness_is_read_from_the_width (t c : option str) :
  match normalize_listing py_runtime t size_example c with
  | Some r =>
      dimensions r
      = <["width_in" := lit "24"]> (<["length_in" := lit "36"]>
          (<["width_cm" := lit "60"]> (<["length_cm" := lit "90"]>
            (<["thickness_in" := lit "24"]> empty))))
      /\ features r
         = [ lit "Size: 24" ++ [c_dquote] ++ lit " " ++ [c_times] ++ lit " 36" ++ [c_dquote]
               ++ lit " (60 " ++ [c_times] ++ lit " 90 cm)";
             lit "Thickness: 24" ++ [c_dquote] ++ lit " (low profile)" ]
  | None => may_raise t size_example c = true
  end.
Proof.
  destruct (normalize_listing py_runtime t size_example c) as [r|] eqn:E;
    [|now apply normalize_listing_raises in E].
  apply normalize_listing_inv in E as (clean & dims & cr & Hd & _ & _ & Hf & Hdims & _).
  apply (returned_parts _ _ _ ([], empty)) in Hd as [-> ->].
  rewrite Hdims, Hf. split; vm_compute; reflexivity.
Qed.

(** C2, as the code behaves.  A title of one space is not empty, so the
    fallback is not taken; scrubbing leaves nothing and the title of the
    listing returned is the empty string.  A listing is returned unless
    the description or the creative text holds an ampersand. *)
Theorem C2_blank_title_is_returned_empty (U : runtime) (d : str) (c : option str) :
  match normalize_listing U (Some (lit " ")) d c with
  | Some r => title r = []
  | None => may_raise (Some (lit " ")) d c = true
  end.
Proof.
  destruct (normalize_listing U (Some (lit " ")) d c) as [r|] eqn:E;
    [|now apply normalize_listing_raises in E].
  apply normalize_listing_inv in E as (clean & dims & cr & _ & _ & Ht & _).
  vm_compute in Ht. injection Ht as Ht. symmetry. exact Ht.
Qed.

(** C3, refuted as stated.  A second pass can change the text again in
    three ways.  The separators [,, ,] become [, ,]: the run of two
    commas is collapsed, the third is left, and a second pass collapses
    what the first one left.  The reference to an ampersand followed by
    [amp;] is decoded to the reference [&amp;], which a second pass
    decodes again.  The numeric reference 8220 is decoded to a curly
    quote, a character of the translation table, which a second pass
    translates. *)
Lemma C3_second_pass_changes_the_text :
  _strip_controls py_runtime (lit ",, ,") = Some (lit ", ,")
  /\ _strip_controls py_runtime (lit ", ,") = Some (lit ",")
  /\ _strip_controls py_runtime (lit "&amp;amp;") = Some (lit "&amp;")
  /\ _strip_controls py_runtime (lit "&amp;") = Some (lit "&")
  /\ _strip_controls py_runtime (lit "&#8220;") = Some [8220]
  /\ _strip_controls py_runtime [8220] = Some [c_dquote].
Proof. vm_compute. repeat split; reflexivity. Qed.

(** C3, amended.  Scrubbing a scrubbed text gives the same text again
    unless the first pass has left one of three things for a second one:
    a character of the translation table, a character reference that
    html.unescape resolves, or a separator (comma, semicolon, slash, bar,
    hyphen) followed by another with nothing or only white space between
    them.  Control characters are never left, and the white-space steps
    and the trimming never change a scrubbed text.  Of the runtime, the
    no-break space counts as white space, as it does in Unicode, and the
    tables of html.unescape yield no control character other than white
    space ([plain_references]), as those of CPython do. *)
Theorem C3_scrub_idempotent_when_nothing_is_left (U : runtime) (s x : str) :
  isspace U c_nbsp = true ->
  plain_references U = true ->
  _strip_controls U s = Some x ->
  Forall (fun c => is_bad_tok c = false) x ->
  unescape U x = Some x ->
  sep_pair_free U false x = true ->
  _strip_controls U x = Some x.
Proof.
  intros Hn HU Hs Hb Hu Hfree. destruct (scrub_shape U s x Hs) as [Ht Hx].
  apply scrub_fixed; try assumption. exact (scrub_no_control U HU s x Hs).
Qed.

Lemma C3_scrub_idempotent_witness :
  let s := lit " Salt &amp; Pepper,,  x -- y;" ++ [9; c_nbsp] ++ lit "AT&T " in
  let x := lit "Salt & Pepper, x - y; AT&T" in
  isspace py_runtime c_nbsp = true
  /\ plain_references py_runtime = true
  /\ _strip_controls py_runtime s = Some x
  /\ Forall (fun c => is_bad_tok c = false) x
  /\ unescape py_runtime x = Some x
  /\ sep_pair_free py_runtime false x = true
  /\ _strip_controls py_runtime x = Some x.
Proof.
  cbv zeta.
  assert (isspace py_runtime c_nbsp = true) as H1 by reflexivity.
  assert (plain_references py_runtime = true) as H2 by exact py_plain_references.
  assert (_strip_controls py_runtime
            (lit " Salt &amp; Pepper,,  x -- y;" ++ [9; c_nbsp] ++ lit "AT&T ")
          = Some (lit "Salt & Pepper, x - y; AT&T")) as H3 by (vm_compute; reflexivity).
  assert (Forall (fun c => is_bad_tok c = false) (lit "Salt & Pepper, x - y; AT&T")) as H4
    by (repeat constructor).
  assert (unescape py_runtime (lit "Salt & Pepper, x - y; AT&T")
          = Some (lit "Salt & Pepper, x - y; AT&T")) as H5 by (vm_compute; reflexivity).
  assert (sep_pair_free py_runtime false (lit "Salt & Pepper, x - y; AT&T") = true) as H6
    by (vm_compute; reflexivity).
  repeat (split; [assumption|]).
  exact (C3_scrub_idempotent_when_nothing_is_left py_runtime _ _ H1 H2 H3 H4 H5 H6).
Defined.




(** C5.  Delimiter normalization does not change what dimension
    extraction records: for every string [s], the dimensions found in
    [_normalize_delims s] are the dimensions found in [s].  The Unicode
    tables enter through the facts of [unicode_facts] only: white space
    is neither a digit nor cased, the dotless i and the long s are not
    white space, and the multiplication sign and the right double
    quotation mark are uncased symbols. *)
Theorem C5_delimiters_do_not_change_the_dimensions (U : runtime)
    (HU : unicode_facts U) (s : str) :
  snd (_normalize_dimensions U (_normalize_delims U s))
  = snd (_normalize_dimensions U s).
Proof.
  apply (dimensions_related U HU). apply related_sym. apply delims_related.
Qed.

Lemma C5_delimiters_witness :
  unicode_facts py_runtime
  /\ snd (_normalize_dimensions py_runtime
            (_normalize_delims py_runtime (lit "Mat 24 x 36 in / 60cm x 90cm | thickness 0.2 inch")))
     = snd (_normalize_dimensions py_runtime
              (lit "Mat 24 x 36 in / 60cm x 90cm | thickness 0.2 inch")).
Proof.
  split; [exact py_runtime_facts|].
  apply (C5_delimiters_do_not_change_the_dimensions py_runtime py_runtime_facts).
Defined.

(** C6.  On every input, the features list of the listing returned has
    no repeated string; its bullets come in the order of the rules (Size,
    Thickness, Backing, Surface, Care, Floor Safety), each rule at most
    once; and it is the list of the bullets the rules produce with only
    the first occurrence of each kept.  A listing is returned unless an
    input holds an ampersand. *)
Theorem C6_features_in_rule_order_without_repeats (U : runtime) (t : option str)
    (d : str) (c : option str) :
  match normalize_listing U t d c with
  | Some r =>
      let fs := features r in
      NoDup fs
      /\ increasing (List.map rule_rank fs)
      /\ Forall (fun b => (rule_rank b < 6)%nat) fs
      /\ exists (clean : str) (dims : gmap string str),
           clean_description U d = Some (clean, dims)
           /\ fs = first_occurrences (bullets_of U clean dims)
  | None => may_raise t d c = true
  end.
Proof.
  destruct (normalize_listing U t d c) as [r|] eqn:E;
    [|now apply normalize_listing_raises in E].
  apply normalize_listing_inv in E as (clean & dims & cr & Hd & _ & _ & Hf & _).
  cbv zeta. rewrite Hf.
  split; [rewrite synthesize_first_occurrences; apply NoDup_first_occurrences|].
  rewrite features_are_bullets.
  split; [apply bullets_of_ranked|]. split; [apply bullets_of_ranked|].
  exists clean, dims. split; [exact Hd|].
  now rewrite <- synthesize_first_occurrences, features_are_bullets.
Qed.



Lemma clean_creative_blank U (s : str) :
  Forall (fun c => isspace U c = true) s -> clean_creative U (Some s) = Some [].
Proof.
  intros H. unfold clean_creative.
  change (default [] (Some s)) with s.
  rewrite (strip_blank U s H). vm_compute. reflexivity.
Qed.

(** C8.  In every listing returned, the creative field is absent when
    raw_creative is None, the empty string or white space only, and
    whenever the cleaned text is empty; it is never the empty string.  A
    listing is returned unless an input holds an ampersand. *)
Theorem C8_blank_creative_is_absent (U : runtime) (t : option str) (d : str) :
  (forall r, normalize_listing U t d None = Some r -> creative r = None)
  /\ (forall r, normalize_listing U t d (Some []) = Some r -> creative r = None)
  /\ (forall (s : str) r, Forall (fun c => isspace U c = true) s ->
        normalize_listing U t d (Some s) = Some r -> creative r = None)
  /\ (forall (rc : option str) r, clean_creative U rc = Some [] ->
        normalize_listing U t d rc = Some r -> creative r = None)
  /\ (forall (rc : option str) r,
        normalize_listing U t d rc = Some r -> creative r <> Some [])
  /\ (forall rc : option str,
        normalize_listing U t d rc = None -> may_raise t d rc = true).
Proof.
  assert (forall rc r, clean_creative U rc = Some [] ->
            normalize_listing U t d rc = Some r -> creative r = None) as Hclean.
  { intros rc r H Hr.
    apply normalize_listing_inv in Hr as (clean & dims & cr & _ & Hc & _ & _ & _ & Hcr & _).
    rewrite H in Hc. injection Hc as <-. exact Hcr. }
  split; [intros r; apply Hclean; vm_compute; reflexivity|].
  split; [intros r; apply Hclean; vm_compute; reflexivity|].
  split; [intros s r Hs; apply Hclean, clean_creative_blank, Hs|].
  split; [exact Hclean|].
  split; [|intros rc; apply normalize_listing_raises].
  intros rc r Hr.
  apply normalize_listing_inv in Hr as (clean & dims & cr & _ & _ & _ & _ & _ & Hcr & _).
  rewrite Hcr. destruct cr; discriminate.
Qed.

Lemma C8_blank_creative_witness :
  exists r : listing,
    Forall (fun c => isspace py_runtime c = true) (lit "   ")
    /\ normalize_listing py_runtime None [] (Some (lit "   ")) = Some r
    /\ creative r = None.
Proof.
  assert (Forall (fun c => isspace py_runtime c = true) (lit "   ")) as H
    by (repeat constructor).
  assert (is_Some (normalize_listing py_runtime None [] (Some (lit "   ")))) as [r Hr]
    by (vm_compute; eexists; reflexivity).
  exists r. split; [exact H|]. split; [exact Hr|].
  exact (proj1 (proj2 (proj2 (C8_blank_creative_is_absent py_runtime None []))) _ r H Hr).
Defined.

(** C9.  On every input, the dimensions of the listing returned hold
    width_in exactly when they hold length_in, and width_cm exactly when
    they hold length_cm.  A listing is returned unless an input holds an
    ampersand. *)
Theorem C9_width_and_length_recorded_together (U : runtime) (t : option str)
    (d : str) (c : option str) :
  match normalize_listing U t d c with
  | Some r =>
      let dims := dimensions r in
      (is_Some (dims !! "width_in") <-> is_Some (dims !! "length_in"))
      /\ (is_Some (dims !! "width_cm") <-> is_Some (dims !! "length_cm"))
  | None => may_raise t d c = true
  end.
Proof.
  destruct (normalize_listing U t d c) as [r|] eqn:E;
    [|now apply normalize_listing_raises in E].
  apply normalize_listing_inv in E as (clean & dims & cr & Hd & _ & _ & _ & Hdims & _).
  cbv zeta. rewrite Hdims.
  destruct (dims_of_description U d clean dims Hd) as [s ->]. apply pairs_together.
Qed.

(** C10.  On every input, the features list of the listing returned has
    at most six elements.  A listing is returned unless an input holds an
    ampersand. *)
Theorem C10_at_most_six_features (U : runtime) (t : option str)
    (d : str) (c : option str) :
  match normalize_listing U t d c with
  | Some r => (length (features r) <= 6)%nat
  | None => may_raise t d c = true
  end.
Proof.
  destruct (normalize_listing U t d c) as [r|] eqn:E;
    [|now apply normalize_listing_raises in E].
  apply normalize_listing_inv in E as (clean & dims & cr & _ & _ & _ & Hf & _).
  rewrite Hf, features_are_bullets. apply length_bullets_of.
Qed.

(** ** Further properties of the helpers *)

(** X1.  The text that [_normalize_delims] returns holds no bar and no
    slash: the first substitution rewrites every one of them to a comma
    and a space, and the second writes commas and spaces only. *)
Theorem X1_delims_leave_no_bar_or_slash (U : runtime) (s : str) :
  Forall (fun c => c <> 124 /\ c <> 47) (_normalize_delims U s).
Proof.
  eapply Forall_impl; [apply (delims_no_bar_slash U s)|]. cbn beta.
  intros c Hc. split; intros ->; discriminate Hc.
Qed.

(** X2.  A text without bar, slash and comma is returned by
    [_normalize_delims] as it is. *)
Theorem X2_delims_fixed_without_delimiters (U : runtime) (s : str) :
  Forall (fun c => is_barrier c = false) s -> _normalize_delims U s = s.
Proof. apply delims_fixed. Qed.

Lemma X2_delims_fixed_witness :
  Forall (fun c => is_barrier c = false) (lit "24 x 36 in")
  /\ _normalize_delims py_runtime (lit "24 x 36 in") = lit "24 x 36 in".
Proof.
  assert (Forall (fun c => is_barrier c = false) (lit "24 x 36 in")) as H
    by (repeat constructor).
  split; [exact H|]. exact (X2_delims_fixed_without_delimiters py_runtime _ H).
Defined.

(** X3.  The text that [_strip_controls] returns has white space only
    as single spaces, each followed by a character that is not white
    space, and none at its start or its end; and [_strip_controls]
    raises on a text with an ampersand only. *)
Theorem X3_scrubbed_text_has_single_inner_spaces (U : runtime) (s : str) :
  match _strip_controls U s with
  | Some x =>
      tidy (isspace U) x = true
      /\ stops (isspace U) x /\ stops (isspace U) (rev x)
  | None => has_amp s = true
  end.
Proof.
  destruct (_strip_controls U s) as [x|] eqn:E; [now apply (scrub_tidy U s)|].
  destruct (has_amp s) eqn:Ha; [reflexivity|].
  destruct (strip_controls_returns U s Ha) as [x Hx]. rewrite Hx in E. discriminate.
Qed.

(** X4.  The text that [_strip_controls] returns holds no control
    character (code points 0 to 31 and 127), also where a character
    reference stands for one: the tables of html.unescape yield no
    control character other than white space, which the later steps
    turn into spaces. *)
Theorem X4_scrubbed_text_has_no_control_character (U : runtime) (s x : str) :
  plain_references U = true -> _strip_controls U s = Some x ->
  Forall (fun c => is_control c = false) x.
Proof. intros HU. now apply scrub_no_control. Qed.

Lemma X4_no_control_witness :
  plain_references py_runtime = true
  /\ _strip_controls py_runtime (lit "a&#9;b" ++ [7] ++ lit "c&#x1;d") = Some (lit "a b cd")
  /\ Forall (fun c => is_control c = false) (lit "a b cd").
Proof.
  assert (plain_references py_runtime = true) as H1 by (vm_compute; reflexivity).
  assert (_strip_controls py_runtime (lit "a&#9;b" ++ [7] ++ lit "c&#x1;d")
          = Some (lit "a b cd")) as H2 by (vm_compute; reflexivity).
  split; [exact H1|]. split; [exact H2|].
  exact (X4_scrubbed_text_has_no_control_character py_runtime _ _ H1 H2).
Defined.

(** X5.  Every entry of the dimensions of a returned listing has one of
    the five keys, and its value is a numeral: decimal digits, possibly
    followed by a full stop and more decimal digits.  No value is
    empty. *)
Theorem X5_dimensions_hold_numerals (U : runtime) (t : option str) (d : str)
    (c : option str) (r : listing) (key : string) (v : str) :
  normalize_listing U t d c = Some r -> dimensions r !! key = Some v ->
  is_numeral U v = true
  /\ v <> []
  /\ In key ["width_in"; "length_in"; "width_cm"; "length_cm"; "thickness_in"]%string.
Proof.
  intros Hr Hv.
  apply normalize_listing_inv in Hr as (clean & dims & cr & Hd & _ & _ & _ & Hdims & _).
  rewrite Hdims in Hv. destruct (dims_of_description U d clean dims Hd) as [s ->].
  apply dimension_entries in Hv as [Hn Hk]. split; [exact Hn|]. split; [|exact Hk].
  apply numeral_head in Hn as (a & rest & -> & _). discriminate.
Qed.

Lemma X5_dimensions_witness :
  exists r : listing,
    normalize_listing py_runtime None size_example None = Some r
    /\ dimensions r !! "length_cm" = Some (lit "90")
    /\ is_numeral py_runtime (lit "90") = true
    /\ lit "90" <> []
    /\ In "length_cm"%string
         ["width_in"; "length_in"; "width_cm"; "length_cm"; "thickness_in"]%string.
Proof.
  assert (is_Some (normalize_listing py_runtime None size_example None)) as [r Hr]
    by (vm_compute; eexists; reflexivity).
  assert (dimensions r !! "length_cm" = Some (lit "90")) as Hv.
  { pose proof Hr as E. vm_compute in E. injection E as <-. vm_compute. reflexivity. }
  exists r. split; [exact Hr|]. split; [exact Hv|].
  exact (X5_dimensions_hold_numerals py_runtime None size_example None r _ _ Hr Hv).
Defined.

(** X6.  On a text without a decimal digit [_normalize_dimensions]
    finds nothing: it returns the text as it is and the empty
    mapping. *)
Theorem X6_no_digit_no_dimension (U : runtime) (s : str) :
  Forall (fun c => isdecimal U c = false) s -> _normalize_dimensions U s = (s, empty).
Proof. apply dimensions_without_digits. Qed.

Lemma X6_no_digit_witness :
  Forall (fun c => isdecimal py_runtime c = false) (lit "soft mat, thickness: thin")
  /\ _normalize_dimensions py_runtime (lit "soft mat, thickness: thin")
     = (lit "soft mat, thickness: thin", empty).
Proof.
  assert (Forall (fun c => isdecimal py_runtime c = false) (lit "soft mat, thickness: thin"))
    as H by (repeat constructor).
  split; [exact H|]. exact (X6_no_digit_no_dimension py_runtime _ H).
Defined.

(** X7.  [_drop_boiler] never makes a text longer: each of its five
    patterns matches at least one character and is replaced by one
    space. *)
Theorem X7_drop_boiler_never_lengthens (U : runtime) (s : str) :
  (length (_drop_boiler U s) <= length s)%nat.
Proof. apply drop_boiler_length. Qed.

(** X8.  [normalize_listing] raises (the ValueError of [int] inside
    html.unescape) on a decimal character reference with more digits
    than the limit of the runtime, whether it is the description, the
    creative text or the title. *)
Theorem X8_long_decimal_reference_raises (U : runtime) (n : nat) :
  (0 < int_max_str_digits U < n)%nat ->
  normalize_listing U None (long_reference n) None = None
  /\ normalize_listing U None [] (Some (long_reference n)) = None
  /\ normalize_listing U (Some (long_reference n)) [] None = None.
Proof.
  intros Hn. destruct (normalize_listing_long_reference U n Hn) as [H1 H2].
  split; [exact H1|]. split; [exact H2|].
  unfold normalize_listing.
  destruct (clean_description_returns U [] eq_refl) as [[clean dims] ->].
  destruct (clean_creative_returns U None eq_refl) as [cr ->].
  assert (_clean_title U (Some (long_reference n)) = None) as ->; [|reflexivity].
  unfold _clean_title. change (long_reference n) with (38 :: 35 :: repeat 57 n ++ lit ";") at 1.
  cbv iota. change (38 :: 35 :: repeat 57 n ++ lit ";") with (long_reference n).
  now rewrite delims_long_reference, strip_controls_long_reference.
Qed.

Lemma X8_long_reference_witness :
  (0 < int_max_str_digits py_runtime < 5000)%nat
  /\ normalize_listing py_runtime None (long_reference 5000) None = None
  /\ normalize_listing py_runtime None [] (Some (long_reference 5000)) = None
  /\ normalize_listing py_runtime (Some (long_reference 5000)) [] None = None.
Proof.
  assert (0 < int_max_str_digits py_runtime < 5000)%nat as H
    by (cbn [int_max_str_digits py_runtime]; lia).
  split; [exact H|]. exact (X8_long_decimal_reference_raises py_runtime 5000 H).
Defined.

(** X9.  [normalize_listing] returns a listing whenever none of its
    three inputs holds an ampersand. *)
Theorem X9_returns_without_ampersand (U : runtime) (t : option str) (d : str)
    (c : option str) :
  may_raise t d c = false -> is_Some (normalize_listing U t d c).
Proof.
  intros H. destruct (normalize_listing U t d c) as [r|] eqn:E; [now eexists|].
  apply normalize_listing_raises in E. rewrite E in H. discriminate.
Qed.

Lemma X9_returns_witness :
  may_raise (Some (lit "Rug")) (lit "soft mat") None = false
  /\ is_Some (normalize_listing py_runtime (Some (lit "Rug")) (lit "soft mat") None).
Proof.
  assert (may_raise (Some (lit "Rug")) (lit "soft mat") None = false) as H by reflexivity.
  split; [exact H|]. exact (X9_returns_without_ampersand py_runtime _ _ _ H).
Defined.

(** X10.  When the dimensions of a returned listing hold a width in
    inches, they hold a length in inches too and the first feature is
    the Size bullet of the two, with the centimetre pair in brackets
    when that is recorded as well. *)
Theorem X10_recorded_size_is_the_first_feature (U : runtime) (t : option str) (d : str)
    (c : option str) (r : listing) (w : str) :
  normalize_listing U t d c = Some r -> dimensions r !! "width_in" = Some w ->
  exists l, dimensions r !! "length_in" = Some l
    /\ head (features r)
       = Some (lit "Size: " ++ inch_text w l
               ++ match dimensions r !! "width_cm", dimensions r !! "length_cm" with
                  | Some wc, Some lc => lit " (" ++ cm_text wc lc ++ lit ")"
                  | _, _ => []
                  end).
Proof.
  intros Hr Hw.
  apply normalize_listing_inv in Hr as (clean & dims & cr & Hd & _ & _ & Hf & Hdims & _).
  rewrite Hdims in *. rewrite Hf, features_are_bullets.
  destruct (dims_of_description U d clean dims Hd) as [s ->].
  now apply size_bullet_of_dims.
Qed.

Lemma X10_recorded_size_witness :
  exists r : listing,
    normalize_listing py_runtime None (lit "Mat 24 x 36 in") None = Some r
    /\ dimensions r !! "width_in" = Some (lit "24")
    /\ exists l, dimensions r !! "length_in" = Some l
         /\ head (features r)
            = Some (lit "Size: " ++ inch_text (lit "24") l
                    ++ match dimensions r !! "width_cm", dimensions r !! "length_cm" with
                       | Some wc, Some lc => lit " (" ++ cm_text wc lc ++ lit ")"
                       | _, _ => []
                       end).
Proof.
  assert (is_Some (normalize_listing py_runtime None (lit "Mat 24 x 36 in") None)) as [r Hr]
    by (vm_compute; eexists; reflexivity).
  assert (dimensions r !! "width_in" = Some (lit "24")) as Hw.
  { pose proof Hr as E. vm_compute in E. injection E as <-. vm_compute. reflexivity. }
  exists r. split; [exact Hr|]. split; [exact Hw|].
  exact (X10_recorded_size_is_the_first_feature py_runtime None _ None r _ Hr Hw).
Defined.

(** X11.  When the dimensions of a returned listing hold a thickness,
    the features hold the Thickness bullet of that value. *)
Theorem X11_recorded_thickness_is_shown (U : runtime) (t : option str) (d : str)
    (c : option str) (r : listing) (th : str) :
  normalize_listing U t d c = Some r -> dimensions r !! "thickness_in" = Some th ->
  In (lit "Thickness: " ++ th ++ [c_dquote] ++ lit " (low profile)") (features r).
Proof.
  intros Hr Ht.
  apply normalize_listing_inv in Hr as (clean & dims & cr & Hd & _ & _ & Hf & Hdims & _).
  rewrite Hdims in *. rewrite Hf, features_are_bullets.
  destruct (dims_of_description U d clean dims Hd) as [s ->].
  now apply thickness_bullet_of_dims.
Qed.

Lemma X11_recorded_thickness_witness :
  exists r : listing,
    normalize_listing py_runtime None (lit "thickness: 0.4 inch") None = Some r
    /\ dimensions r !! "thickness_in" = Some (lit "0.4")
    /\ In (lit "Thickness: " ++ lit "0.4" ++ [c_dquote] ++ lit " (low profile)") (features r).
Proof.
  assert (is_Some (normalize_listing py_runtime None (lit "thickness: 0.4 inch") None))
    as [r Hr] by (vm_compute; eexists; reflexivity).
  assert (dimensions r !! "thickness_in" = Some (lit "0.4")) as Ht.
  { pose proof Hr as E. vm_compute in E. injection E as <-. vm_compute. reflexivity. }
  exists r. split; [exact Hr|]. split; [exact Ht|].
  exact (X11_recorded_thickness_is_shown py_runtime None _ None r _ Hr Ht).
Defined.

(** X12.  The loop of [_synthesize_bullets] that drops repeated bullets
    never drops one: the bullets of the six rules are different texts,
    so the features are the bullets of the rules as they come. *)
Theorem X12_no_bullet_is_ever_dropped (U : runtime) (clean : str) (dims : gmap string str) :
  _synthesize_bullets U clean dims = bullets_of U clean dims.
Proof. apply features_are_bullets. Qed.

(** X13.  [_sentenceize] gives the empty text for a text of white space
    only: the one part of the split is dropped. *)
Theorem X13_sentenceize_blank (U : runtime) (s : str) :
  Forall (fun c => isspace U c = true) s -> _sentenceize U s = [].
Proof.
  intros H. unfold _sentenceize. rewrite (strip_blank U s H). vm_compute. reflexivity.
Qed.

Lemma X13_sentenceize_blank_witness :
  Forall (fun c => isspace py_runtime c = true) (lit "  " ++ [9; c_nbsp])
  /\ _sentenceize py_runtime (lit "  " ++ [9; c_nbsp]) = [].
Proof.
  assert (Forall (fun c => isspace py_runtime c = true) (lit "  " ++ [9; c_nbsp])) as H
    by (repeat constructor).
  split; [exact H|]. exact (X13_sentenceize_blank py_runtime _ H).
Defined.
